(** * A line-oriented document store: model and verification

    This development embeds the document store of
    [src/exercises/exercise-15/database.ts] (class [Database] with its
    helpers [intersect2], [intersect] and [union]) and proves or refutes
    the properties its specification states.

    Layout:
    - [Text]: the JavaScript string primitives the store uses ([trim],
      [split], [startsWith], [slice], [toLowerCase]);
    - [Json]: JSON values with [JSON_stringify] and [JSON_parse];
    - [Store]: the store itself ([_load], [_find], [find], [insert],
      [delete]) over an explicit file system, in an error monad, followed
      by the vocabulary of the statements;
    - [Part_000], [Part_001]: the [find] of the two earlier versions of
      the class, [src/unnamed/part_000] and [src/unnamed/part_001];
    - [Scenario]: the concrete stores of the examples;
    - the lemmas about strings, JSON, sets, the matcher and the file;
    - the properties of the specification, then their instances on the
      concrete stores;
    - further properties of the code (the set helpers, the matcher,
      sorting and projecting, writing, the earlier versions), then their
      instances on the concrete stores.

    Modelling conventions.  A JavaScript string is a list of characters
    (one [ascii] per code unit, so only the ASCII part of the white space
    and case tables is modelled).  A JavaScript number is an integer
    [Z]; fractions, exponents, NaN and the infinities are outside the
    model.  An object created by [JSON.parse] lives at an address, and
    [Set]/[===] compare objects by address and primitives by value.
    Three failures are modelled: reading a file that does not exist,
    [JSON.parse] on a text that is not JSON, and reading a property of
    [null]. *)

From Stdlib Require Import Ascii String List ZArith Lia Bool Arith.
From Stdlib Require Import Sorted Permutation.
From Stdlib Require DecimalFacts DecimalPos DecimalN.
Import ListNotations.

Set Implicit Arguments.

(** ** Strings *)

Module Text.

Abbreviation str := (list ascii).

Definition dquote : ascii := "034"%char.
Definition backslash : ascii := "092"%char.
Definition newline : ascii := "010"%char.

(** [lit s] is the character list of the literal [s]; [js s] is the same
    with every apostrophe read as a JSON double quote, so that file
    contents can be written legibly. *)
Definition lit (s : string) : str := list_ascii_of_string s.

Definition js (s : string) : str :=
  map (fun c => if Ascii.eqb c "'"%char then dquote else c) (lit s).

(** ECMAScript [WhiteSpace] and [LineTerminator] code points below 128:
    TAB, LF, VT, FF, CR and SPACE. *)
Definition is_space (c : ascii) : bool :=
  let n := nat_of_ascii c in
  ((9 <=? n) && (n <=? 13)) || (n =? 32).

Fixpoint drop_spaces (s : str) : str :=
  match s with
  | c :: t => if is_space c then drop_spaces t else s
  | [] => []
  end.

(** [String.prototype.trim] *)
Definition trim (s : str) : str :=
  rev (drop_spaces (rev (drop_spaces s))).

(** [String.prototype.split] with a one-character separator: the result
    always has at least one piece, [split sep "" = [""]]. *)
Fixpoint split (sep : ascii) (s : str) : list str :=
  match s with
  | [] => [[]]
  | c :: t =>
      if Ascii.eqb c sep then [] :: split sep t
      else match split sep t with
           | piece :: pieces => (c :: piece) :: pieces
           | [] => [[c]]
           end
  end.

(** [s.split(/\s+/)]: pieces are separated by maximal runs of white
    space; a leading or trailing run leaves an empty piece at that end. *)
Fixpoint split_run (in_run : bool) (s : str) : list str :=
  match s with
  | [] => [[]]
  | c :: t =>
      if is_space c then
        if in_run then split_run true t else [] :: split_run true t
      else match split_run false t with
           | piece :: pieces => (c :: piece) :: pieces
           | [] => [[c]]
           end
  end.

Definition split_spaces (s : str) : list str := split_run false s.

(** [r.startsWith(p)] *)
Fixpoint startsWith (p s : str) : bool :=
  match p, s with
  | [], _ => true
  | a :: p', b :: s' => Ascii.eqb a b && startsWith p' s'
  | _ :: _, [] => false
  end.

(** [r.slice(1)] *)
Definition slice1 (s : str) : str := tl s.

Definition lower_char (c : ascii) : ascii :=
  let n := nat_of_ascii c in
  if (65 <=? n) && (n <=? 90) then ascii_of_nat (n + 32) else c.

(** [String.prototype.toLowerCase] *)
Definition toLowerCase (s : str) : str := map lower_char s.

Definition str_eqb (a b : str) : bool :=
  if list_eq_dec ascii_dec a b then true else false.

(** [arr.join("")] *)
Definition concat_str (l : list str) : str := List.concat l.

(** *** Words and frames, for the statements about texts *)

Definition visible (t : str) : Prop := Forall (fun c => is_space c = false) t.

Definition ends_with_space (s : str) : Prop :=
  exists p w, s = p ++ [w] /\ is_space w = true.

Definition starts_with_space (s : str) : Prop :=
  exists w p, s = w :: p /\ is_space w = true.

(** [t] stands at the start of [s], up to white space or the end. *)
Definition leading (t s : str) : Prop :=
  exists post,
    s = t ++ post /\ visible t /\ (post = [] \/ starts_with_space post).

(** [t] stands inside [s], after white space, up to white space or the
    end. *)
Definition inner (t s : str) : Prop :=
  exists pre post,
    s = pre ++ t ++ post /\ visible t /\ ends_with_space pre /\
    (post = [] \/ starts_with_space post).

(** A whole word of [s]: an occurrence of [t], free of white space,
    with white space or a text boundary on either side. *)
Definition is_token (t s : str) : Prop :=
  exists pre post,
    s = pre ++ t ++ post /\ visible t /\
    (pre = [] \/ ends_with_space pre) /\
    (post = [] \/ starts_with_space post).

(** The longest prefix without white space. *)
Fixpoint word (s : str) : str :=
  match s with
  | [] => []
  | c :: s' => if is_space c then [] else c :: word s'
  end.

(** A text that starts and ends with a visible character. *)
Definition framed (s : str) : Prop :=
  exists c m d, s = c :: m ++ [d] /\
                is_space c = false /\ is_space d = false.

End Text.

Import Text.

(** ** JSON values, [JSON.stringify] and [JSON.parse] *)

Module Json.

Unset Elimination Schemes.

Inductive json : Type :=
| JNull
| JBool (b : bool)
| JNum (n : Z)
| JStr (s : str)
| JArr (items : list json)
| JObj (members : list (str * json)).

Set Elimination Schemes.

(** Induction over a value gives the property for every item of an array
    and every member value of an object. *)
Section JsonInd.
Variable P : json -> Prop.
Hypothesis Hnull : P JNull.
Hypothesis Hbool : forall b, P (JBool b).
Hypothesis Hnum : forall n, P (JNum n).
Hypothesis Hstr : forall s, P (JStr s).
Hypothesis Harr : forall items, Forall P items -> P (JArr items).
Hypothesis Hobj :
  forall members, Forall (fun kv => P (snd kv)) members -> P (JObj members).

Fixpoint json_ind (v : json) : P v :=
  match v with
  | JNull => Hnull
  | JBool b => Hbool b
  | JNum n => Hnum n
  | JStr s => Hstr s
  | JArr items =>
      Harr ((fix all (l : list json) : Forall P l :=
               match l with
               | [] => Forall_nil _
               | x :: t => Forall_cons _ (json_ind x) (all t)
               end) items)
  | JObj members =>
      Hobj ((fix all (l : list (str * json)) :
               Forall (fun kv => P (snd kv)) l :=
               match l with
               | [] => Forall_nil _
               | x :: t => Forall_cons _ (json_ind (snd x)) (all t)
               end) members)
  end.
End JsonInd.

(** [typeof v === "object"] for a parsed value: arrays and objects are
    heap objects, everything else is a primitive. *)
Definition is_object (v : json) : bool :=
  match v with
  | JArr _ | JObj _ => true
  | _ => false
  end.

(** Equality of two primitives by value; [false] as soon as one side is
    a heap object. *)
Definition prim_eqb (a b : json) : bool :=
  match a, b with
  | JNull, JNull => true
  | JBool x, JBool y => Bool.eqb x y
  | JNum x, JNum y => Z.eqb x y
  | JStr x, JStr y => str_eqb x y
  | _, _ => false
  end.

(** *** Objects as ordered member lists *)

Fixpoint assoc (k : str) (members : list (str * json)) : option json :=
  match members with
  | [] => None
  | (k', v) :: t => if str_eqb k k' then Some v else assoc k t
  end.

(** [obj[k] = v]: an existing key keeps its position, a new key goes last. *)
Fixpoint obj_set (k : str) (v : json) (members : list (str * json))
  : list (str * json) :=
  match members with
  | [] => [(k, v)]
  | (k', v') :: t =>
      if str_eqb k k' then (k', v) :: t else (k', v') :: obj_set k v t
  end.

Definition build_object (members : list (str * json)) : list (str * json) :=
  fold_left (fun acc kv => obj_set (fst kv) (snd kv) acc) members [].

(** Values a JavaScript program can hold: no object has a key twice. *)
Fixpoint wf (v : json) : Prop :=
  match v with
  | JArr items => (fix all (l : list json) : Prop :=
                     match l with
                     | [] => True
                     | x :: t => wf x /\ all t
                     end) items
  | JObj members =>
      NoDup (map fst members) /\
      (fix all (l : list (str * json)) : Prop :=
         match l with
         | [] => True
         | x :: t => wf (snd x) /\ all t
         end) members
  | _ => True
  end.

(** *** Printing *)

Fixpoint digits (d : Decimal.uint) : str :=
  match d with
  | Decimal.Nil => []
  | Decimal.D0 d => "0"%char :: digits d
  | Decimal.D1 d => "1"%char :: digits d
  | Decimal.D2 d => "2"%char :: digits d
  | Decimal.D3 d => "3"%char :: digits d
  | Decimal.D4 d => "4"%char :: digits d
  | Decimal.D5 d => "5"%char :: digits d
  | Decimal.D6 d => "6"%char :: digits d
  | Decimal.D7 d => "7"%char :: digits d
  | Decimal.D8 d => "8"%char :: digits d
  | Decimal.D9 d => "9"%char :: digits d
  end.

Definition number_to_string (n : Z) : str :=
  match n with
  | Z0 => ["0"%char]
  | Zpos p => digits (Pos.to_uint p)
  | Zneg p => "-"%char :: digits (Pos.to_uint p)
  end.

Definition hex_digit (n : nat) : ascii :=
  nth n (lit "0123456789abcdef") "0"%char.

(** [QuoteJSONString]: the quote, the backslash and the control
    characters are escaped, everything else is copied. *)
Definition escape_char (c : ascii) : str :=
  if Ascii.eqb c dquote then [backslash; dquote]
  else if Ascii.eqb c backslash then [backslash; backslash]
  else
    let n := nat_of_ascii c in
    if 32 <=? n then [c]
    else if n =? 8 then [backslash; "b"%char]
    else if n =? 9 then [backslash; "t"%char]
    else if n =? 10 then [backslash; "n"%char]
    else if n =? 12 then [backslash; "f"%char]
    else if n =? 13 then [backslash; "r"%char]
    else [backslash; "u"%char; "0"%char; "0"%char;
          hex_digit (n / 16); hex_digit (n mod 16)].

Definition quote (s : str) : str :=
  dquote :: flat_map escape_char s ++ [dquote].

Fixpoint join (sep : str) (l : list str) : str :=
  match l with
  | [] => []
  | [x] => x
  | x :: t => x ++ sep ++ join sep t
  end.

Definition comma : ascii := ","%char.

Fixpoint JSON_stringify (v : json) : str :=
  match v with
  | JNull => lit "null"
  | JBool true => lit "true"
  | JBool false => lit "false"
  | JNum n => number_to_string n
  | JStr s => quote s
  | JArr items =>
      "["%char :: join [comma] (map JSON_stringify items) ++ ["]"%char]
  | JObj members =>
      "{"%char ::
      join [comma]
        (map (fun kv => quote (fst kv) ++ ":"%char :: JSON_stringify (snd kv))
             members)
      ++ ["}"%char]
  end.

(** *** Parsing *)

(** JSON white space: TAB, LF, CR and SPACE. *)
Definition is_json_space (c : ascii) : bool :=
  let n := nat_of_ascii c in
  (n =? 9) || (n =? 10) || (n =? 13) || (n =? 32).

Fixpoint skip_ws (s : str) : str :=
  match s with
  | c :: t => if is_json_space c then skip_ws t else s
  | [] => []
  end.

Fixpoint strip_prefix (p s : str) : option str :=
  match p, s with
  | [], _ => Some s
  | a :: p', b :: s' => if Ascii.eqb a b then strip_prefix p' s' else None
  | _ :: _, [] => None
  end.

Definition digit_of_char (c : ascii)
  : option (Decimal.uint -> Decimal.uint) :=
  match nat_of_ascii c - 48, 48 <=? nat_of_ascii c with
  | 0, true => Some Decimal.D0
  | 1, _ => Some Decimal.D1
  | 2, _ => Some Decimal.D2
  | 3, _ => Some Decimal.D3
  | 4, _ => Some Decimal.D4
  | 5, _ => Some Decimal.D5
  | 6, _ => Some Decimal.D6
  | 7, _ => Some Decimal.D7
  | 8, _ => Some Decimal.D8
  | 9, _ => Some Decimal.D9
  | _, _ => None
  end.

Fixpoint read_digits (s : str) : Decimal.uint * str :=
  match s with
  | [] => (Decimal.Nil, [])
  | c :: t =>
      match digit_of_char c with
      | Some d => let (u, r) := read_digits t in (d u, r)
      | None => (Decimal.Nil, s)
      end
  end.

(** A fraction or an exponent follows: not an integer literal. *)
Definition continues_number (r : str) : bool :=
  match r with
  | c :: _ => Ascii.eqb c "."%char || Ascii.eqb c "e"%char
              || Ascii.eqb c "E"%char
  | [] => false
  end.

Definition parse_nat (s : str) : option (N * str) :=
  let (u, r) := read_digits s in
  if continues_number r then None
  else
    match u with
    | Decimal.Nil => None
    | Decimal.D0 Decimal.Nil => Some (0%N, r)
    | Decimal.D0 _ => None
    | _ => Some (N.of_uint u, r)
    end.

Definition parse_number (s : str) : option (json * str) :=
  match s with
  | c :: t =>
      if Ascii.eqb c "-"%char then
        match parse_nat t with
        | Some (n, r) => Some (JNum (- Z.of_N n), r)
        | None => None
        end
      else
        match parse_nat s with
        | Some (n, r) => Some (JNum (Z.of_N n), r)
        | None => None
        end
  | [] => None
  end.

Definition hex_value (c : ascii) : option nat :=
  let n := nat_of_ascii c in
  if (48 <=? n) && (n <=? 57) then Some (n - 48)
  else if (97 <=? n) && (n <=? 102) then Some (n - 87)
  else if (65 <=? n) && (n <=? 70) then Some (n - 55)
  else None.

Definition hex4 (a b c d : ascii) : option nat :=
  match hex_value a, hex_value b, hex_value c, hex_value d with
  | Some x, Some y, Some z, Some w => Some (((x * 16 + y) * 16 + z) * 16 + w)
  | _, _, _, _ => None
  end.

Definition unescape (c : ascii) : option ascii :=
  if Ascii.eqb c dquote then Some dquote
  else if Ascii.eqb c backslash then Some backslash
  else if Ascii.eqb c "/"%char then Some "/"%char
  else if Ascii.eqb c "b"%char then Some "008"%char
  else if Ascii.eqb c "t"%char then Some "009"%char
  else if Ascii.eqb c "n"%char then Some "010"%char
  else if Ascii.eqb c "f"%char then Some "012"%char
  else if Ascii.eqb c "r"%char then Some "013"%char
  else None.

Definition cons_fst (c : ascii) (p : option (str * str)) : option (str * str) :=
  match p with
  | Some (s, r) => Some (c :: s, r)
  | None => None
  end.

(** The characters of a string literal after its opening quote, up to
    and including the closing quote.  An escape [\uXXXX] is decoded when
    it denotes a character below 128. *)
Fixpoint parse_chars (s : str) : option (str * str) :=
  match s with
  | [] => None
  | c :: t =>
      if Ascii.eqb c dquote then Some ([], t)
      else if Ascii.eqb c backslash then
        match t with
        | [] => None
        | e :: t' =>
            if Ascii.eqb e "u"%char then
              match t' with
              | a :: b :: c' :: d :: t'' =>
                  match hex4 a b c' d with
                  | Some n =>
                      if n <? 128
                      then cons_fst (ascii_of_nat n) (parse_chars t'')
                      else None
                  | None => None
                  end
              | _ => None
              end
            else
              match unescape e with
              | Some c' => cons_fst c' (parse_chars t')
              | None => None
              end
        end
      else if nat_of_ascii c <? 32 then None
      else cons_fst c (parse_chars t)
  end.

Definition expect (c : ascii) (s : str) : option str :=
  match skip_ws s with
  | c' :: r => if Ascii.eqb c c' then Some r else None
  | [] => None
  end.

Fixpoint parse_value (fuel : nat) (s : str) : option (json * str) :=
  match fuel with
  | O => None
  | S fuel =>
      match skip_ws s with
      | [] => None
      | c :: r =>
          if Ascii.eqb c "n"%char then
            match strip_prefix (lit "ull") r with
            | Some r' => Some (JNull, r')
            | None => None
            end
          else if Ascii.eqb c "t"%char then
            match strip_prefix (lit "rue") r with
            | Some r' => Some (JBool true, r')
            | None => None
            end
          else if Ascii.eqb c "f"%char then
            match strip_prefix (lit "alse") r with
            | Some r' => Some (JBool false, r')
            | None => None
            end
          else if Ascii.eqb c dquote then
            match parse_chars r with
            | Some (s', r') => Some (JStr s', r')
            | None => None
            end
          else if Ascii.eqb c "["%char then
            match expect "]"%char r with
            | Some r' => Some (JArr [], r')
            | None =>
                match parse_elements fuel r with
                | Some (items, r') => Some (JArr items, r')
                | None => None
                end
            end
          else if Ascii.eqb c "{"%char then
            match expect "}"%char r with
            | Some r' => Some (JObj [], r')
            | None =>
                match parse_members fuel r with
                | Some (members, r') => Some (JObj (build_object members), r')
                | None => None
                end
            end
          else parse_number (c :: r)
      end
  end

with parse_elements (fuel : nat) (s : str) : option (list json * str) :=
  match fuel with
  | O => None
  | S fuel =>
      match parse_value fuel s with
      | None => None
      | Some (v, r) =>
          match expect comma r with
          | Some r' =>
              match parse_elements fuel r' with
              | Some (items, r'') => Some (v :: items, r'')
              | None => None
              end
          | None =>
              match expect "]"%char r with
              | Some r' => Some ([v], r')
              | None => None
              end
          end
      end
  end

with parse_members (fuel : nat) (s : str)
  : option (list (str * json) * str) :=
  match fuel with
  | O => None
  | S fuel =>
      match expect dquote s with
      | None => None
      | Some r0 =>
          match parse_chars r0 with
          | None => None
          | Some (k, r1) =>
              match expect ":"%char r1 with
              | None => None
              | Some r2 =>
                  match parse_value fuel r2 with
                  | None => None
                  | Some (v, r) =>
                      match expect comma r with
                      | Some r' =>
                          match parse_members fuel r' with
                          | Some (members, r'') => Some ((k, v) :: members, r'')
                          | None => None
                          end
                      | None =>
                          match expect "}"%char r with
                          | Some r' => Some ([(k, v)], r')
                          | None => None
                          end
                      end
                  end
              end
          end
      end
  end.

(** [JSON.parse]: one value, surrounded by optional white space.  [None]
    stands for the [SyntaxError] it throws.  The fragment modelled has
    integer numbers (a fraction or an exponent is refused) and escapes
    [\uXXXX] below 128; a repeated key keeps its first position and its
    last value, as in a JavaScript object. *)
Definition JSON_parse (s : str) : option json :=
  match parse_value (S (length s)) s with
  | Some (v, r) => match skip_ws r with [] => Some v | _ :: _ => None end
  | None => None
  end.

(** *** Properties *)

(** The array index a property key denotes: a decimal numeral without
    sign or leading zero. *)
Definition index_of (key : str) : option nat :=
  match parse_nat key with
  | Some (n, []) => Some (N.to_nat n)
  | _ => None
  end.

(** [record[key]] on a value other than [null]; [None] is [undefined].
    Own data properties are modelled: the members of an object, the
    length and the items of an array, the length and the characters of
    a string.  Inherited properties hold functions, which no test of the
    store tells from [undefined]. *)
Definition get_field (v : json) (key : str) : option json :=
  match v with
  | JObj members => assoc key members
  | JArr items =>
      if str_eqb key (lit "length") then Some (JNum (Z.of_nat (length items)))
      else match index_of key with
           | Some i => nth_error items i
           | None => None
           end
  | JStr s =>
      if str_eqb key (lit "length") then Some (JNum (Z.of_nat (length s)))
      else match index_of key with
           | Some i => option_map (fun c => JStr [c]) (nth_error s i)
           | None => None
           end
  | _ => None
  end.

(** *** Vocabulary of the statements about the parser *)

(** No control character, in particular no line break, survives
    escaping. *)
Definition printable (c : ascii) : Prop := (32 <=? nat_of_ascii c) = true.

(** What can follow a printed value: the end of the text, or the comma
    or bracket that closes it. *)
Definition delimited (r : str) : Prop :=
  match r with
  | [] => True
  | c :: _ => c = comma \/ c = "]"%char \/ c = "}"%char
  end.

Definition number_end (r : str) : Prop :=
  match r with
  | [] => True
  | c :: _ => digit_of_char c = None /\ continues_number r = false
  end.

Definition is_digit (c : ascii) : bool :=
  (48 <=? nat_of_ascii c) && (nat_of_ascii c <=? 57).

Definition number_start (c : ascii) : bool :=
  is_digit c || Ascii.eqb c "-"%char.

Definition value_start (c : ascii) : bool :=
  number_start c || Ascii.eqb c "n"%char || Ascii.eqb c "t"%char
  || Ascii.eqb c "f"%char || Ascii.eqb c dquote || Ascii.eqb c "["%char
  || Ascii.eqb c "{"%char.

Definition print_member (kv : str * json) : str :=
  quote (fst kv) ++ ":"%char :: JSON_stringify (snd kv).

Definition reparses (v : json) : Prop :=
  forall fuel r,
    delimited r -> length (JSON_stringify v) < fuel ->
    parse_value fuel (JSON_stringify v ++ r) = Some (v, r).

End Json.

Import Json.

(** ** The store *)

Module Store.

(** *** Failures *)

Inductive error : Type :=
| IOError       (* [readFile] on a file that does not exist *)
| SyntaxError   (* thrown by [JSON.parse] *)
| TypeError.    (* a property read on [null] *)

Inductive result (A : Type) : Type :=
| Ok (a : A)
| Err (e : error).

Arguments Ok {A} a.
Arguments Err {A} e.

Definition bind {A B : Type} (m : result A) (k : A -> result B) : result B :=
  match m with
  | Ok a => k a
  | Err e => Err e
  end.

Notation "x <- m ;; k" := (bind m (fun x => k))
  (at level 61, m at next level, right associativity).

(** *** The file system *)

Definition FileSystem := str -> option str.

Definition readFile (fs : FileSystem) (name : str) : result str :=
  match fs name with
  | Some contents => Ok contents
  | None => Err IOError
  end.

Definition writeFile (fs : FileSystem) (name data : str) : FileSystem :=
  fun n => if str_eqb n name then Some data else fs n.

(** [appendFile] creates the file when it does not exist. *)
Definition appendFile (fs : FileSystem) (name data : str) : FileSystem :=
  match fs name with
  | Some contents => writeFile fs name (contents ++ data)
  | None => writeFile fs name data
  end.

(** *** Values in memory *)

(** A parsed record: the value and the address [JSON.parse] put it at. *)
Record ref : Type := { addr : nat; val : json }.

(** SameValueZero, the equality of [Set] and of [Array.prototype.includes]:
    heap objects are equal when they are the same object, primitives when
    they have the same value. *)
Definition same_value (a b : ref) : bool :=
  if is_object (val a) then is_object (val b) && (addr a =? addr b)
  else prim_eqb (val a) (val b).

(** [set.has(e)], a set being the list of its elements in insertion order *)
Definition set_has (set : list ref) (e : ref) : bool :=
  existsb (same_value e) set.

Definition set_add (set : list ref) (e : ref) : list ref :=
  if set_has set e then set else set ++ [e].

(** [new Set(l)] *)
Definition new_Set (l : list ref) : list ref := fold_left set_add l [].

Definition intersect2 (a b : list ref) : list ref :=
  let set := new_Set a in
  filter (fun e => set_has set e) b.

Definition intersect (arrs : list (list ref)) : list ref :=
  match arrs with
  | [] => []
  | first :: rest => fold_left (fun p n => intersect2 p n) rest first
  end.

Definition union (arrs : list (list ref)) : list ref :=
  new_Set (fold_left (fun p n => p ++ n) arrs []).

(** *** Queries and options *)

(** The query types of the source are unions of object types told apart
    by the key they carry ([$in], [$eq], [$lt], [$gt]; [$text], [$and],
    [$or], or field names).  Each union is a type with one constructor
    per member. *)
Inductive Clause : Type :=
| InQuery (values : list json)   (* [{$in: values}] *)
| EqQuery (value : json)         (* [{$eq: value}] *)
| LTQuery (n : Z)                (* [{$lt: n}] *)
| GTQuery (n : Z).               (* [{$gt: n}] *)

Unset Elimination Schemes.

Inductive Query : Type :=
| TextQuery (text : str)                       (* [{$text: text}] *)
| AndQuery (queries : list Query)              (* [{$and: queries}] *)
| OrQuery (queries : list Query)               (* [{$or: queries}] *)
| SimpleQuery (fields : list (str * Clause)).  (* [{key: clause, ...}] *)

Set Elimination Schemes.

Section QueryInd.
Variable P : Query -> Prop.
Hypothesis Htext : forall text, P (TextQuery text).
Hypothesis Hand : forall queries, Forall P queries -> P (AndQuery queries).
Hypothesis Hor : forall queries, Forall P queries -> P (OrQuery queries).
Hypothesis Hsimple : forall fields, P (SimpleQuery fields).

Fixpoint Query_ind (q : Query) : P q :=
  let all := fix all (l : list Query) : Forall P l :=
               match l with
               | [] => Forall_nil _
               | x :: t => Forall_cons _ (Query_ind x) (all t)
               end in
  match q with
  | TextQuery text => Htext text
  | AndQuery queries => Hand (all queries)
  | OrQuery queries => Hor (all queries)
  | SimpleQuery fields => Hsimple fields
  end.
End QueryInd.

(** Keeping the first occurrence of every element, in order. *)
Fixpoint first_occurrences (seen l : list ref) : list ref :=
  match l with
  | [] => []
  | x :: t =>
      if set_has seen x then first_occurrences seen t
      else x :: first_occurrences (seen ++ [x]) t
  end.

(** The directions [1] and [-1] of a sort key. *)
Inductive Order : Type := Ascending | Descending.

(** [sort[key] ?? 0] *)
Definition order_value (o : option Order) : Z :=
  match o with
  | Some Ascending => 1%Z
  | Some Descending => (-1)%Z
  | None => 0%Z
  end.

Record Options : Type := {
  projection : option (list str);
  sort : option (list (str * option Order))
}.

(** [options?.field] *)
Definition optional {A B : Type} (field : A -> option B) (o : option A)
  : option B :=
  match o with
  | Some a => field a
  | None => None
  end.

Record Row : Type := { exists_ : bool; data : ref }.

Record Database : Type := {
  filename : str;
  fullTextSearchFieldNames : list str
}.

(** What [find] returns: a record itself, or the fresh object a
    projection builds (a projected key can hold [undefined]). *)
Inductive Found : Type :=
| Whole (record : ref)
| Partial (fields : list (str * option json)).

Fixpoint set_property (k : str) (v : option json)
    (p : list (str * option json)) : list (str * option json) :=
  match p with
  | [] => [(k, v)]
  | (k', v') :: t =>
      if str_eqb k k' then (k', v) :: t else (k', v') :: set_property k v t
  end.

(** *** Callbacks that can throw *)

Section Callbacks.
Variables A B : Type.
Variable f : A -> result B.
Variable p : A -> result bool.

(** [arr.map(f)] *)
Fixpoint map_m (l : list A) : result (list B) :=
  match l with
  | [] => Ok []
  | x :: t => y <- f x ;; ys <- map_m t ;; Ok (y :: ys)
  end.

(** [arr.filter(p)] *)
Fixpoint filter_m (l : list A) : result (list A) :=
  match l with
  | [] => Ok []
  | x :: t => b <- p x ;; r <- filter_m t ;; Ok (if b then x :: r else r)
  end.

(** [arr.some(p)]: stops at the first element that passes. *)
Fixpoint some_m (l : list A) : result bool :=
  match l with
  | [] => Ok false
  | x :: t => b <- p x ;; if b then Ok true else some_m t
  end.

(** [arr.every(p)]: stops at the first element that fails. *)
Fixpoint every_m (l : list A) : result bool :=
  match l with
  | [] => Ok true
  | x :: t => b <- p x ;; if b then every_m t else Ok false
  end.

Variable step : B -> A -> result B.

(** [arr.reduce(step, init)] *)
Fixpoint reduce_m (l : list A) (init : B) : result B :=
  match l with
  | [] => Ok init
  | x :: t => acc <- step init x ;; reduce_m t acc
  end.
End Callbacks.

(** [Array.prototype.sort]: stable; each element in turn moves left past
    the elements it compares below. *)
Section Sort.
Variable A : Type.
Variable comparefn : A -> A -> result Z.

(** [place x sorted]: [sorted] is the sorted prefix, last element first. *)
Fixpoint place (x : A) (sorted : list A) : result (list A) :=
  match sorted with
  | [] => Ok [x]
  | y :: t =>
      c <- comparefn x y ;;
      if (c <? 0)%Z then r <- place x t ;; Ok (y :: r) else Ok (x :: sorted)
  end.

Definition js_sort (l : list A) : result (list A) :=
  sorted <- reduce_m (fun sorted x => place x sorted) l [] ;;
  Ok (rev sorted).
End Sort.

(** The same sort with a comparator that cannot throw. *)
Section StableSort.
Variable A : Type.
Variable compare : A -> A -> Z.

Fixpoint stable_place (x : A) (sorted : list A) : list A :=
  match sorted with
  | [] => [x]
  | y :: t =>
      if (compare x y <? 0)%Z then y :: stable_place x t else x :: sorted
  end.

Definition stable_sort (l : list A) : list A :=
  rev (fold_left (fun sorted x => stable_place x sorted) l []).

(** [subseq l s]: the elements of [l] occur in [s], in that order. *)
Inductive subseq : list A -> list A -> Prop :=
| subseq_nil : forall s, subseq [] s
| subseq_skip : forall a l s, subseq l s -> subseq l (a :: s)
| subseq_take : forall a l s, subseq l s -> subseq (a :: l) (a :: s).
End StableSort.

Section Database.

(** [String.prototype.localeCompare] depends on the host's collation. *)
Variable localeCompare : str -> str -> Z.

Variable db : Database.

Fixpoint load_lines (next : nat) (lines : list str) : result (list Row) :=
  match lines with
  | [] => Ok []
  | r :: rest =>
      match JSON_parse (slice1 r) with
      | None => Err SyntaxError
      | Some v =>
          rows <- load_lines (S next) rest ;;
          Ok ({| exists_ := startsWith (lit "E") r;
                 data := {| addr := next; val := v |} |} :: rows)
      end
  end.

Definition _load (fs : FileSystem) : result (list Row) :=
  contents <- readFile fs (filename db) ;;
  load_lines 0 (split newline (trim contents)).

(** [record[key]]: reading a property of [null] throws. *)
Definition read (record : json) (key : str) : result (option json) :=
  match record with
  | JNull => Err TypeError
  | _ => Ok (get_field record key)
  end.

Definition test_clause (queryObject : Clause) (value : option json) : bool :=
  match queryObject, value with
  | InQuery values, Some v => existsb (fun x => prim_eqb x v) values
  | EqQuery q, Some v => prim_eqb q v
  | LTQuery n, Some (JNum v) => (n >? v)%Z
  | GTQuery n, Some (JNum v) => (n <? v)%Z
  | _, _ => false
  end.

Definition has_word (text : str) (value : option json) : bool :=
  match value with
  | Some (JStr value) =>
      let words := map toLowerCase (split_spaces value) in
      existsb (str_eqb (toLowerCase text)) words
  | _ => false
  end.

Definition text_matches (text : str) (record : json) : result bool :=
  some_m (fun key => value <- read record key ;; Ok (has_word text value))
    (fullTextSearchFieldNames db).

Definition fields_match (fields : list (str * Clause)) (record : json)
  : result bool :=
  every_m
    (fun kc => value <- read record (fst kc) ;; Ok (test_clause (snd kc) value))
    fields.

Fixpoint _find (records : list ref) (query : Query) : result (list ref) :=
  match query with
  | TextQuery text =>
      filter_m (fun record => text_matches text (val record)) records
  | AndQuery queries =>
      subQueries <- map_m (_find records) queries ;;
      Ok (intersect subQueries)
  | OrQuery queries =>
      subQueries <- map_m (_find records) queries ;;
      Ok (union subQueries)
  | SimpleQuery fields =>
      filter_m (fun record => fields_match fields (val record)) records
  end.

Definition compare_values (order : Z) (aValue bValue : option json) : Z :=
  match aValue, bValue with
  | Some (JStr a), Some (JStr b) => (localeCompare a b * order)%Z
  | Some (JNum a), Some (JNum b) => ((if a <? b then -1 else 1) * order)%Z
  | _, _ => 0%Z
  end.

Definition first_nonzero (compares : list Z) : Z :=
  match List.find (fun n => negb (n =? 0)%Z) compares with
  | Some n => n
  | None => 0%Z
  end.

Definition comparefn (sort : list (str * option Order)) (a b : ref)
  : result Z :=
  compares <-
    map_m (fun ko =>
             aValue <- read (val a) (fst ko) ;;
             bValue <- read (val b) (fst ko) ;;
             Ok (compare_values (order_value (snd ko)) aValue bValue))
      sort ;;
  Ok (first_nonzero compares).

Definition project (keys : list str) (record : ref) : result Found :=
  p <- reduce_m
         (fun p n => value <- read (val record) n ;;
                     Ok (set_property n value p))
         keys [] ;;
  Ok (Partial p).

Definition existing (rows : list Row) : list ref :=
  map data (filter exists_ rows).

Definition find (fs : FileSystem) (query : Query) (options : option Options)
  : result (list Found) :=
  rows <- _load fs ;;
  let existingRecords := existing rows in
  result <- _find existingRecords query ;;
  result <-
    match optional sort options with
    | Some sort => js_sort (comparefn sort) result
    | None => Ok result
    end ;;
  match optional projection options with
  | Some projection => map_m (project projection) result
  | None => Ok (map Whole result)
  end.

Definition insert (record : json) (fs : FileSystem) : FileSystem :=
  let json := JSON_stringify record in
  let row := "E"%char :: json ++ [newline] in
  appendFile fs (filename db) row.

Definition mark (r : Row) : ascii := if exists_ r then "E"%char else "D"%char.

Definition line (r : Row) : str :=
  mark r :: JSON_stringify (val (data r)) ++ [newline].

(** The file that holds the given rows. *)
Definition serialize (rows : list Row) : str := concat_str (map line rows).

Definition delete (query : Query) (fs : FileSystem) : result FileSystem :=
  rows <- _load fs ;;
  matched <- _find (existing rows) query ;;
  let deletedRecords := new_Set matched in
  let newRows :=
    map (fun r =>
           {| exists_ :=
                if exists_ r then negb (set_has deletedRecords (data r))
                else false;
              data := data r |})
        rows in
  let newContents := serialize newRows in
  Ok (writeFile fs (filename db) newContents).

(** *** What the operations compute when no read throws *)

Definition text_selects (text : str) (record : json) : bool :=
  existsb (fun key => has_word text (get_field record key))
    (fullTextSearchFieldNames db).

Definition fields_select (fields : list (str * Clause)) (record : json)
  : bool :=
  forallb (fun kc => test_clause (snd kc) (get_field record (fst kc))) fields.

Fixpoint matching (records : list ref) (query : Query) : list ref :=
  match query with
  | TextQuery text =>
      filter (fun record => text_selects text (val record)) records
  | AndQuery queries => intersect (map (matching records) queries)
  | OrQuery queries => union (map (matching records) queries)
  | SimpleQuery fields =>
      filter (fun record => fields_select fields (val record)) records
  end.

(** The records a query selects, read off the query alone: [$and] holds
    when the list is not empty and every branch holds, [$or] when some
    branch holds. *)
Fixpoint selects (query : Query) (record : json) : bool :=
  match query with
  | TextQuery text => text_selects text record
  | AndQuery queries =>
      match queries with
      | [] => false
      | _ :: _ => forallb (fun q => selects q record) queries
      end
  | OrQuery queries => existsb (fun q => selects q record) queries
  | SimpleQuery fields => fields_select fields record
  end.

Definition ordering (sort : list (str * option Order)) (a b : ref) : Z :=
  first_nonzero
    (map (fun ko =>
            compare_values (order_value (snd ko))
              (get_field (val a) (fst ko)) (get_field (val b) (fst ko)))
       sort).

Definition projected (keys : list str) (record : ref) : Found :=
  Partial
    (fold_left (fun p n => set_property n (get_field (val record) n) p)
       keys []).

(** Records no read throws on. *)
Definition readable (records : list ref) : Prop :=
  Forall (fun x => val x <> JNull) records.

(** *** Vocabulary of the statements about the store *)

(** No two elements of a set are the same value. *)
Definition distinct (l : list ref) : Prop :=
  ForallOrdPairs (fun a b => same_value a b = false) l.

(** In a heap, the same value has the same contents. *)
Definition heap_ok (records : list ref) : Prop :=
  forall a b, In a records -> In b records ->
              same_value a b = true -> val a = val b.

(** The text of a row without its line break. *)
Definition body (r : Row) : str := mark r :: JSON_stringify (val (data r)).

(** Rows as [_load] creates them: the record of line [i] is at address
    [first + i]. *)
Definition addressed (first : nat) (rows : list Row) : Prop :=
  map (fun r => addr (data r)) rows = seq first (length rows).

Definition rows_wf (rows : list Row) : Prop :=
  Forall (fun r => wf (val (data r))) rows.

Definition decodes (line : str) (r : Row) : Prop :=
  exists_ r = startsWith (lit "E") line /\
  JSON_parse (slice1 line) = Some (val (data r)).

(** What [delete] writes for a row: a live row whose record the query
    selects becomes a tombstone, every other row is kept as it is. *)
Definition retire (query : Query) (r : Row) : Row :=
  {| exists_ := exists_ r && negb (selects query (val (data r)));
     data := data r |}.

(** A store written by [insert] and [delete] alone: the file holds the
    serialized rows, or does not exist yet. *)
Definition stores (fs : FileSystem) (rows : list Row) : Prop :=
  addressed 0 rows /\ rows_wf rows /\
  match fs (filename db) with
  | Some contents => contents = serialize rows
  | None => rows = []
  end.

(** The file systems the store can reach from one where its file is
    missing or empty, by [insert] and by [delete]s that complete. *)
Inductive reachable : FileSystem -> Prop :=
| reach_missing : forall fs, fs (filename db) = None -> reachable fs
| reach_empty : forall fs, fs (filename db) = Some [] -> reachable fs
| reach_insert : forall fs record,
    reachable fs -> wf record -> reachable (insert record fs)
| reach_delete : forall fs fs' query,
    reachable fs -> delete query fs = Ok fs' -> reachable fs'.

Definition new_row (rows : list Row) (record : json) : Row :=
  {| exists_ := true; data := {| addr := length rows; val := record |} |}.

(** The shape [find] gives a record. *)
Definition shape (options : option Options) (record : ref) : Found :=
  match optional projection options with
  | Some keys => projected keys record
  | None => Whole record
  end.

(** A result holds [record] exactly once: at one position, and nowhere
    else. *)
Definition holds_record (record : json) (y : Found) : Prop :=
  exists a, y = Whole {| addr := a; val := record |}.

Definition included_once (record : json) (found : list Found) : Prop :=
  exists k y,
    nth_error found k = Some y /\ holds_record record y /\
    forall j z, nth_error found j = Some z -> holds_record record z -> j = k.

(** *** Vocabulary of the further properties *)


(** A query that holds no [$or], at any depth. *)
Fixpoint or_free (query : Query) : bool :=
  match query with
  | TextQuery _ => true
  | AndQuery queries => forallb or_free queries
  | OrQuery _ => false
  | SimpleQuery _ => true
  end.

(** The field query [{k1: c1, ..., kn: cn}] cut into [{k1: c1}], ...,
    [{kn: cn}]. *)
Definition singles (fields : list (str * Clause)) : list Query :=
  map (fun kc => SimpleQuery [kc]) fields.

(** The number a record holds under a key. *)
Definition number_at (key : str) (record : ref) : Z :=
  match get_field (val record) key with
  | Some (JNum n) => n
  | _ => 0%Z
  end.

(** [a] may stand before [b] in the direction [o] of a numeric key. *)
Definition in_order (o : Order) (key : str) (a b : ref) : Prop :=
  match o with
  | Ascending => (number_at key a <= number_at key b)%Z
  | Descending => (number_at key b <= number_at key a)%Z
  end.

(** The string a record holds under a key. *)
Definition string_at (key : str) (record : ref) : str :=
  match get_field (val record) key with
  | Some (JStr s) => s
  | _ => []
  end.

(** [a] may stand before [b] in the direction [o] of a string key: the
    collation does not put [b] first. *)
Definition collated (o : Order) (key : str) (a b : ref) : Prop :=
  (localeCompare (string_at key a) (string_at key b)
   * order_value (Some o) <= 0)%Z.

(** A record the comparator of [find] cannot order by [key]: the value
    under the key is neither a string nor a number. *)
Definition unordered (key : str) (record : json) : bool :=
  match get_field record key with
  | Some (JStr _) | Some (JNum _) => false
  | _ => true
  end.

(** [insert] called on each record in turn. *)
Definition insert_all (records : list json) (fs : FileSystem) : FileSystem :=
  fold_left (fun fs record => insert record fs) records fs.

(** The values placed at the addresses [first], [first + 1], ... *)
Fixpoint numbered (first : nat) (values : list json) : list ref :=
  match values with
  | [] => []
  | v :: t => {| addr := first; val := v |} :: numbered (S first) t
  end.

(** What a result holds, whatever the address of the record. *)
Definition content_of (y : Found) : json + list (str * option json) :=
  match y with
  | Whole record => inl (val record)
  | Partial fields => inr fields
  end.

(** The result of a computation, changed by [f] when there is one. *)
Definition fmap {A B : Type} (f : A -> B) (m : result A) : result B :=
  match m with
  | Ok a => Ok (f a)
  | Err e => Err e
  end.

(** The position of the first record at address [a]. *)
Fixpoint position (a : nat) (l : list ref) : nat :=
  match l with
  | [] => 0
  | x :: t => if addr x =? a then 0 else S (position a t)
  end.

(** The record [x] of [l], moved to the address that is its position in
    [l]. *)
Definition renumbered (l : list ref) (x : ref) : ref :=
  {| addr := position (addr x) l; val := val x |}.

(** Two calls answer alike: both fail, with the same error, or both
    return, and the results hold the same contents in the same order. *)
Definition same_answer (m m' : result (list Found)) : Prop :=
  match m, m' with
  | Ok found, Ok found' => map content_of found' = map content_of found
  | Err e, Err e' => e = e'
  | _, _ => False
  end.

(** The lines the earlier versions of [find] parse. *)
Definition live_lines (contents : str) : list str :=
  filter (fun r => startsWith (lit "E") r) (split newline contents).

(** The rows that hold the given records, all live. *)
Definition live_rows (records : list ref) : list Row :=
  map (fun x => {| exists_ := true; data := x |}) records.

End Database.

End Store.

Import Store.

(** ** The earlier versions of the store

    [src/unnamed/part_000] and [src/unnamed/part_001] hold the class
    before it could write: [find] reads the file itself, keeps the lines
    that start with [E] and parses these only.  The helpers [intersect2],
    [intersect], [union] and the method [_find] are the same text in the
    three files. *)

Module Part_000.

Section Database.

Variable db : Database.

(** [texts.map((r) => JSON.parse(r))]: the records are created in the
    order of the array, at the addresses [next], [next + 1], ... *)
Fixpoint parse_all (next : nat) (texts : list str) : result (list ref) :=
  match texts with
  | [] => Ok []
  | r :: rest =>
      match JSON_parse r with
      | None => Err SyntaxError
      | Some v =>
          records <- parse_all (S next) rest ;;
          Ok ({| addr := next; val := v |} :: records)
      end
  end.

Definition find (fs : FileSystem) (query : Query) : result (list ref) :=
  contents <- readFile fs (filename db) ;;
  records <-
    parse_all 0
      (map slice1
         (filter (fun r => startsWith (lit "E") r) (split newline contents))) ;;
  _find db records query.

End Database.

End Part_000.

Module Part_001.

Section Database.

Variable localeCompare : str -> str -> Z.

Variable db : Database.

Fixpoint parse_all (next : nat) (texts : list str) : result (list ref) :=
  match texts with
  | [] => Ok []
  | r :: rest =>
      match JSON_parse r with
      | None => Err SyntaxError
      | Some v =>
          records <- parse_all (S next) rest ;;
          Ok ({| addr := next; val := v |} :: records)
      end
  end.

Definition find (fs : FileSystem) (query : Query) (options : option Options)
  : result (list Found) :=
  contents <- readFile fs (filename db) ;;
  records <-
    parse_all 0
      (map slice1
         (filter (fun r => startsWith (lit "E") r) (split newline contents))) ;;
  result <- _find db records query ;;
  result <-
    match optional sort options with
    | Some sort => js_sort (comparefn localeCompare sort) result
    | None => Ok result
    end ;;
  match optional projection options with
  | Some projection => map_m (project projection) result
  | None => Ok (map Whole result)
  end.

End Database.

End Part_001.

(** * Concrete stores *)

Module Scenario.

Definition people : Database :=
  {| filename := lit "people.db"; fullTextSearchFieldNames := [lit "bio"] |}.

Definition no_files : FileSystem := fun _ => None.

(** A collation for the examples: code unit order. *)
Fixpoint code_unit_compare (a b : str) : Z :=
  match a, b with
  | [], [] => 0
  | [], _ :: _ => -1
  | _ :: _, [] => 1
  | x :: a', y :: b' =>
      match Nat.compare (nat_of_ascii x) (nat_of_ascii y) with
      | Lt => -1
      | Gt => 1
      | Eq => code_unit_compare a' b'
      end
  end%Z.

Definition ann : json :=
  JObj [(lit "name", JStr (lit "Ann")); (lit "age", JNum 30);
        (lit "bio", JStr (lit "Fast and curious"))].

Definition bob : json :=
  JObj [(lit "name", JStr (lit "Bob")); (lit "age", JNum 40);
        (lit "bio", JStr (lit "slow  but steady"))].

Definition at_ (a : nat) (v : json) : ref := {| addr := a; val := v |}.

Definition live (a : nat) (v : json) : Row :=
  {| exists_ := true; data := at_ a v |}.

Definition dead (a : nat) (v : json) : Row :=
  {| exists_ := false; data := at_ a v |}.

(** Ann, then Bob, both inserted through the store. *)
Definition ann_bob : FileSystem := insert people bob (insert people ann no_files).

(** Ann deleted, Bob live. *)
Definition ann_gone : FileSystem :=
  writeFile ann_bob (filename people) (serialize [dead 0 ann; live 1 bob]).

Definition a1_b2 : json := JObj [(lit "a", JNum 1); (lit "b", JNum 2)].
Definition a1_b1 : json := JObj [(lit "a", JNum 1); (lit "b", JNum 1)].

(** Two records that tie on [a] and are out of order on [b]. *)
Definition ties : FileSystem := insert people a1_b1 (insert people a1_b2 no_files).

Definition by_a_then_b : list (str * option Order) :=
  [(lit "a", Some Ascending); (lit "b", Some Ascending)].

Definition by_a_descending : list (str * option Order) :=
  [(lit "a", Some Descending)].

Definition sorted_by (keys : list (str * option Order)) : option Options :=
  Some {| projection := None; sort := Some keys |}.

(** A file whose only line starts with neither [E] nor [D]. *)
Definition bad_marker : FileSystem :=
  writeFile no_files (filename people) (js "X{'a':1}").

Definition blank : FileSystem :=
  writeFile no_files (filename people) [" "%char; newline].

(** The query [{name: {$eq: name}}]. *)
Definition name_is (name : string) : Query :=
  SimpleQuery [(lit "name", EqQuery (JStr (lit name)))].

(** The query [{age: {$gt: n}}]. *)
Definition older_than (n : Z) : Query := SimpleQuery [(lit "age", GTQuery n)].

Definition by_age (o : Order) : list (str * option Order) :=
  [(lit "age", Some o)].

Definition by_name (o : Order) : list (str * option Order) :=
  [(lit "name", Some o)].


(** A store whose first record is [null]. *)
Definition with_null : FileSystem :=
  insert people ann (insert people JNull no_files).

(** A file edited by hand: a line that is no row, then a live row. *)
Definition hand_edited : FileSystem :=
  writeFile no_files (filename people)
    (js "# people" ++ newline :: js "E{'a':1}" ++ [newline]).

End Scenario.

Import Scenario.

(** * Properties of the string primitives *)

Ltac ascii_cases c := destruct c as [[] [] [] [] [] [] [] []].

Section TextFacts.

Lemma str_eqb_eq (a b : str) : str_eqb a b = true <-> a = b.
Proof.
  unfold str_eqb. destruct (list_eq_dec ascii_dec a b); split; congruence.
Qed.

Lemma str_eqb_refl (a : str) : str_eqb a a = true.
Proof. now apply str_eqb_eq. Qed.

Lemma drop_spaces_app_spaces (w s : str) :
  forallb is_space w = true -> drop_spaces (w ++ s) = drop_spaces s.
Proof.
  induction w as [|c w IH]; simpl; [easy|].
  intros H. apply andb_true_iff in H as [Hc Hw]. rewrite Hc. auto.
Qed.

Lemma drop_spaces_all (w : str) :
  forallb is_space w = true -> drop_spaces w = [].
Proof.
  intros H. rewrite <- (app_nil_r w). now rewrite drop_spaces_app_spaces.
Qed.

Lemma forallb_rev {A : Type} (f : A -> bool) (l : list A) :
  forallb f (rev l) = forallb f l.
Proof.
  induction l as [|x l IH]; simpl; [easy|].
  rewrite forallb_app, IH. simpl. rewrite andb_true_r. apply andb_comm.
Qed.

Lemma trim_spaces (w : str) : forallb is_space w = true -> trim w = [].
Proof.
  intros H. unfold trim. now rewrite (drop_spaces_all w H).
Qed.

(** Trimming removes exactly the white space around a text that starts
    and ends with a visible character. *)
Lemma trim_framed (c d : ascii) (m w1 w2 : str) :
  is_space c = false -> is_space d = false ->
  forallb is_space w1 = true -> forallb is_space w2 = true ->
  trim (w1 ++ (c :: m ++ [d]) ++ w2) = c :: m ++ [d].
Proof.
  intros Hc Hd H1 H2. unfold trim.
  rewrite drop_spaces_app_spaces by assumption.
  set (body := c :: m ++ [d]).
  assert (Hhead : drop_spaces (body ++ w2) = body ++ w2)
    by (unfold body; simpl; now rewrite Hc).
  assert (Hlast : rev body = d :: rev (c :: m)).
  { unfold body. change (c :: m ++ [d]) with ((c :: m) ++ [d]).
    now rewrite rev_app_distr. }
  rewrite Hhead, rev_app_distr, drop_spaces_app_spaces
    by now rewrite forallb_rev.
  rewrite Hlast. cbn [drop_spaces]. rewrite Hd, <- Hlast.
  apply rev_involutive.
Qed.

Lemma split_cons_shape (sep : ascii) (s : str) :
  exists piece pieces, split sep s = piece :: pieces.
Proof.
  induction s as [|c s (p & ps & IH)]; simpl; [now eauto|].
  destruct (Ascii.eqb c sep); [now eauto|]. rewrite IH. eauto.
Qed.

Lemma split_app (sep : ascii) (a b : str) :
  Forall (fun c => c <> sep) a ->
  split sep (a ++ sep :: b) = a :: split sep b.
Proof.
  induction 1 as [|c a Hc Ha IH]; simpl.
  - now rewrite Ascii.eqb_refl.
  - destruct (Ascii.eqb_spec c sep); [contradiction|]. now rewrite IH.
Qed.

Lemma split_whole (sep : ascii) (a : str) :
  Forall (fun c => c <> sep) a -> split sep a = [a].
Proof.
  induction 1 as [|c a Hc Ha IH]; simpl; [easy|].
  destruct (Ascii.eqb_spec c sep); [contradiction|]. now rewrite IH.
Qed.

End TextFacts.

(** ** Words of a text *)

Section TokenFacts.

Lemma is_token_cases (t s : str) : is_token t s <-> leading t s \/ inner t s.
Proof.
  split.
  - intros (pre & post & E & Hv & [->|Hpre] & Hpost).
    + left. exists post. now repeat split.
    + right. exists pre, post. now repeat split.
  - intros [(post & E & Hv & Hpost)|(pre & post & E & Hv & Hpre & Hpost)].
    + exists [], post. repeat split; auto.
    + exists pre, post. repeat split; auto.
Qed.

Lemma word_leading (t s : str) : leading t s <-> t = word s.
Proof.
  split.
  - intros (post & -> & Hv & Hpost).
    induction Hv as [|c t Hc Hv IH]; simpl.
    + destruct Hpost as [->|(w & p & -> & Hw)]; simpl; [easy|].
      now rewrite Hw.
    + rewrite Hc. now f_equal.
  - intros ->. induction s as [|c s (post & E & Hv & Hpost)]; simpl.
    + exists []. repeat split; [constructor | now left].
    + destruct (is_space c) eqn:Hc.
      * exists (c :: s). repeat split; [constructor|].
        right. now exists c, s.
      * exists post. repeat split; [simpl; now f_equal | | exact Hpost].
        now constructor.
Qed.

Lemma split_run_head (s : str) :
  exists pieces, split_run false s = word s :: pieces.
Proof.
  induction s as [|c s (pieces & IH)]; simpl; [now eexists|].
  destruct (is_space c); [now eexists|]. rewrite IH. now eexists.
Qed.

Lemma split_run_flag (s t : str) :
  t <> [] -> In t (split_run true s) <-> In t (split_run false s).
Proof.
  intros Ht. destruct s as [|c s]; simpl; [tauto|].
  destruct (is_space c); simpl; [|tauto].
  split; [now right|]. now intros [<-|H].
Qed.

Lemma inner_nil (t : str) : ~ inner t [].
Proof.
  intros (pre & post & E & _ & (p & w & -> & _) & _).
  destruct p; discriminate E.
Qed.

Lemma inner_cons_space (c : ascii) (t s : str) :
  is_space c = true -> t <> [] ->
  inner t (c :: s) <-> leading t s \/ inner t s.
Proof.
  intros Hc Ht. split.
  - intros (pre & post & E & Hv & (p & w & -> & Hw) & Hpost).
    destruct p as [|c' p]; simpl in E; injection E as <- E.
    + left. exists post. now repeat split.
    + right. exists (p ++ [w]), post.
      repeat split; try assumption. now exists p, w.
  - intros [(post & -> & Hv & Hpost)|(pre & post & -> & Hv & Hpre & Hpost)].
    + exists [c], post. repeat split; try assumption. now exists [], c.
    + exists (c :: pre), post. repeat split; try assumption.
      destruct Hpre as (p & w & -> & Hw). now exists (c :: p), w.
Qed.

Lemma inner_cons_visible (c : ascii) (t s : str) :
  is_space c = false -> inner t (c :: s) <-> inner t s.
Proof.
  intros Hc. split.
  - intros (pre & post & E & Hv & (p & w & -> & Hw) & Hpost).
    destruct p as [|c' p]; simpl in E; injection E as <- E.
    + congruence.
    + exists (p ++ [w]), post. repeat split; try assumption.
      now exists p, w.
  - intros (pre & post & -> & Hv & (p & w & -> & Hw) & Hpost).
    exists (c :: p ++ [w]), post. repeat split; try assumption.
    now exists (c :: p), w.
Qed.

Lemma split_run_inner (s : str) :
  forall pieces,
    split_run false s = word s :: pieces ->
    forall t, t <> [] -> (In t pieces <-> inner t s).
Proof.
  induction s as [|c s IH]; intros pieces E t Ht.
  - injection E as <-. split; [easy|]. intros H. now apply inner_nil in H.
  - destruct (split_run_head s) as (pieces' & E').
    specialize (IH pieces' E' t Ht).
    cbn [split_run word] in E. destruct (is_space c) eqn:Hc.
    + injection E as <-.
      rewrite split_run_flag, E', inner_cons_space by assumption.
      simpl. rewrite IH, word_leading. intuition congruence.
    + rewrite E' in E. injection E as <-.
      now rewrite inner_cons_visible.
Qed.

(** The non-empty pieces of [s.split(/\s+/)] are the whole words of [s]. *)
Theorem split_spaces_tokens (t s : str) :
  t <> [] -> In t (split_spaces s) <-> is_token t s.
Proof.
  intros Ht. unfold split_spaces.
  destruct (split_run_head s) as (pieces & E). rewrite E. simpl.
  rewrite (split_run_inner s E Ht), is_token_cases, word_leading.
  intuition congruence.
Qed.

Lemma toLowerCase_nil (s : str) : toLowerCase s = [] <-> s = [].
Proof. destruct s; simpl; split; congruence. Qed.

End TokenFacts.

(** * Properties of the JSON printer and parser *)

Section JsonFacts.

(** ** String literals *)

Lemma parse_chars_escape (c : ascii) (t : str) :
  parse_chars (escape_char c ++ t) = cons_fst c (parse_chars t).
Proof. ascii_cases c; reflexivity. Qed.

Lemma parse_chars_quote (s r : str) :
  parse_chars (flat_map escape_char s ++ dquote :: r) = Some (s, r).
Proof.
  induction s as [|c s IH]; simpl; [reflexivity|].
  now rewrite <- app_assoc, parse_chars_escape, IH.
Qed.

Lemma escape_char_printable (c : ascii) : Forall printable (escape_char c).
Proof.
  ascii_cases c; cbv [escape_char]; simpl; repeat constructor.
Qed.

Lemma quote_printable (s : str) : Forall printable (quote s).
Proof.
  unfold quote. apply Forall_cons; [reflexivity|].
  apply Forall_app. split.
  - induction s as [|c s IH]; simpl; [constructor|].
    apply Forall_app. split; [apply escape_char_printable | exact IH].
  - repeat constructor.
Qed.

(** ** Numbers *)

Lemma delimited_number_end (r : str) : delimited r -> number_end r.
Proof.
  destruct r as [|c r]; simpl; [easy|].
  intros [-> | [-> | ->]]; split; reflexivity.
Qed.

Lemma read_digits_digits (u : Decimal.uint) (r : str) :
  number_end r -> read_digits (digits u ++ r) = (u, r).
Proof.
  intros Hr. induction u; simpl; try (rewrite IHu; reflexivity).
  destruct r as [|c r]; simpl; [reflexivity|].
  destruct Hr as [-> _]. reflexivity.
Qed.

Lemma to_uint_normal (p : positive) :
  Pos.to_uint p <> Decimal.Nil /\
  forall u, Pos.to_uint p <> Decimal.D0 u.
Proof.
  split; [apply DecimalPos.Unsigned.to_uint_nonnil|].
  intros u Hu.
  assert (Hn : Decimal.unorm (Pos.to_uint p) = Pos.to_uint p).
  { rewrite <- DecimalPos.Unsigned.to_of, DecimalPos.Unsigned.of_to.
    reflexivity. }
  unfold Decimal.unorm in Hn.
  destruct (Decimal.nzhead (Pos.to_uint p)) eqn:Hz;
    try (rewrite <- Hn in Hu; discriminate Hu).
  - apply (DecimalPos.Unsigned.to_uint_nonzero p).
    rewrite <- Hn. reflexivity.
  - apply (DecimalFacts.nzhead_nonzero (Pos.to_uint p) u0). exact Hz.
Qed.

Lemma parse_nat_digits (p : positive) (r : str) :
  number_end r ->
  parse_nat (digits (Pos.to_uint p) ++ r) = Some (Npos p, r).
Proof.
  intros Hr. unfold parse_nat. rewrite read_digits_digits by assumption.
  assert (Hc : continues_number r = false)
    by (destruct r; [reflexivity | apply Hr]).
  rewrite Hc.
  destruct (to_uint_normal p) as [Hnil Hzero].
  pose proof (DecimalPos.Unsigned.of_to p) as Hp.
  destruct (Pos.to_uint p) eqn:Hu;
    try (exfalso; first [now apply Hnil | now eapply Hzero]);
    unfold N.of_uint; now rewrite Hp.
Qed.

Lemma digits_head (p : positive) :
  exists c s, digits (Pos.to_uint p) = c :: s /\ is_digit c = true.
Proof.
  destruct (to_uint_normal p) as [Hnil _].
  destruct (Pos.to_uint p); try (now contradiction Hnil);
    simpl; eexists _, _; (split; reflexivity).
Qed.

Lemma parse_number_print (n : Z) (r : str) :
  number_end r ->
  parse_number (number_to_string n ++ r) = Some (JNum n, r).
Proof.
  intros Hr. destruct n as [|p|p]; simpl.
  - unfold parse_nat. simpl.
    change r with (digits Decimal.Nil ++ r).
    rewrite read_digits_digits by assumption. simpl.
    destruct r; [reflexivity|]. destruct Hr as [_ ->]. reflexivity.
  - destruct (digits_head p) as (c & s & Hs & Hc).
    pose proof (@parse_nat_digits p r Hr) as Hp. rewrite Hs in *. simpl.
    destruct (Ascii.eqb_spec c "-"%char) as [->|_]; [discriminate Hc|].
    simpl in Hp. now rewrite Hp.
  - now rewrite parse_nat_digits.
Qed.

(** ** The first character of a printed value *)

Lemma number_to_string_head (n : Z) :
  exists c s, number_to_string n = c :: s /\ number_start c = true.
Proof.
  destruct n as [|p|p]; simpl.
  - now eexists _, _.
  - destruct (digits_head p) as (c & s & -> & Hc).
    exists c, s. unfold number_start. now rewrite Hc.
  - now eexists _, _.
Qed.

Lemma stringify_head (v : json) :
  exists c s, JSON_stringify v = c :: s /\ value_start c = true.
Proof.
  destruct v as [|[]|n| | |]; simpl; try (now eexists _, _).
  destruct (number_to_string_head n) as (c & s & -> & Hc).
  exists c, s. unfold value_start. now rewrite Hc.
Qed.

Lemma value_start_visible (c : ascii) :
  value_start c = true -> is_json_space c = false /\ is_space c = false.
Proof. ascii_cases c; intros H; try discriminate H; split; reflexivity. Qed.

Lemma expect_value_start (d c : ascii) (s : str) :
  value_start c = true -> value_start d = false ->
  expect d (c :: s) = None.
Proof.
  intros Hc Hd. unfold expect. simpl.
  destruct (value_start_visible c Hc) as [-> _].
  destruct (Ascii.eqb_spec d c) as [->|]; [congruence | reflexivity].
Qed.

Lemma parse_value_number (fuel : nat) (c : ascii) (s : str) :
  number_start c = true ->
  parse_value (S fuel) (c :: s) = parse_number (c :: s).
Proof. ascii_cases c; intros H; try discriminate H; reflexivity. Qed.

Lemma join_cons (sep x y : str) (t : list str) :
  join sep (x :: y :: t) = x ++ sep ++ join sep (y :: t).
Proof. reflexivity. Qed.

(** ** Printing then parsing *)

Lemma parse_elements_print (items : list json) :
  items <> [] -> Forall reparses items ->
  forall fuel r,
    S (length (join [comma] (map JSON_stringify items))) < fuel ->
    parse_elements fuel
      (join [comma] (map JSON_stringify items) ++ "]"%char :: r)
    = Some (items, r).
Proof.
  intros Hne Hall. induction Hall as [|v items Hv Hall IH]; [easy|].
  intros [|fuel] r Hlen; [lia|].
  destruct items as [|w items].
  - simpl in *. rewrite Hv; [reflexivity | simpl; auto | lia].
  - rewrite map_cons, map_cons, join_cons, <- map_cons in *.
    rewrite length_app in Hlen. simpl in Hlen.
    rewrite <- app_assoc. simpl.
    rewrite Hv; [| simpl; auto | lia].
    change (expect comma (comma :: ?x)) with (Some x). cbv iota.
    rewrite IH; [reflexivity | easy | simpl in *; lia].
Qed.

Lemma parse_members_print (members : list (str * json)) :
  members <> [] -> Forall (fun kv => reparses (snd kv)) members ->
  forall fuel r,
    S (length (join [comma] (map print_member members))) < fuel ->
    parse_members fuel
      (join [comma] (map print_member members) ++ "}"%char :: r)
    = Some (members, r).
Proof.
  intros Hne Hall. induction Hall as [|[k v] members Hv Hall IH]; [easy|].
  intros [|fuel] r Hlen; [lia|].
  assert (Hkey : forall rest,
             parse_members (S fuel) (print_member (k, v) ++ rest) =
             match parse_value fuel (JSON_stringify v ++ rest) with
             | None => None
             | Some (v', r') =>
                 match expect comma r' with
                 | Some r'' =>
                     match parse_members fuel r'' with
                     | Some (ms, r3) => Some ((k, v') :: ms, r3)
                     | None => None
                     end
                 | None =>
                     match expect "}"%char r' with
                     | Some r'' => Some ([(k, v')], r'')
                     | None => None
                     end
                 end
             end).
  { intros rest. unfold print_member, quote. cbn [fst snd].
    cbn [parse_members app]. unfold expect at 1. cbn [skip_ws].
    change (is_json_space dquote) with false. cbv iota.
    rewrite Ascii.eqb_refl, <- !app_assoc. cbn [app].
    rewrite parse_chars_quote. unfold expect at 1. cbn [skip_ws].
    change (is_json_space ":"%char) with false. cbv iota.
    reflexivity. }
  simpl in Hv.
  destruct members as [|w members].
  - cbn [map join] in *. rewrite Hkey.
    unfold print_member in Hlen. cbn [fst snd] in Hlen.
    rewrite length_app in Hlen. cbn [length] in Hlen.
    rewrite Hv; [reflexivity | simpl; auto | lia].
  - rewrite map_cons, map_cons, join_cons, <- map_cons in *.
    rewrite length_app in Hlen.
    unfold print_member at 1 in Hlen. cbn [fst snd] in Hlen.
    rewrite length_app in Hlen. cbn [length app] in Hlen.
    rewrite <- app_assoc, Hkey. cbn [app].
    rewrite Hv; [| simpl; auto | lia].
    change (expect comma (comma :: ?x)) with (Some x). cbv iota.
    rewrite IH; [reflexivity | easy | lia].
Qed.

Lemma obj_set_fresh (k : str) (v : json) (members : list (str * json)) :
  ~ In k (map fst members) -> obj_set k v members = members ++ [(k, v)].
Proof.
  induction members as [|[k' v'] members IH]; simpl; [easy|].
  intros Hk. destruct (str_eqb k k') eqn:E.
  - apply str_eqb_eq in E. subst. tauto.
  - rewrite IH; tauto.
Qed.

Lemma build_object_distinct (members : list (str * json)) :
  NoDup (map fst members) -> build_object members = members.
Proof.
  unfold build_object.
  enough (H : forall acc,
             NoDup (map fst (acc ++ members)) ->
             fold_left (fun acc kv => obj_set (fst kv) (snd kv) acc)
               members acc = acc ++ members) by apply (H []).
  induction members as [|[k v] members IH]; intros acc Hnd; simpl.
  - now rewrite app_nil_r.
  - rewrite obj_set_fresh.
    + rewrite IH; rewrite <- app_assoc; [reflexivity | exact Hnd].
    + rewrite map_app in Hnd. simpl in Hnd.
      apply NoDup_remove_2 in Hnd. rewrite in_app_iff in Hnd.
      tauto.
Qed.

Lemma wf_arr (items : list json) : wf (JArr items) <-> Forall wf items.
Proof.
  induction items as [|x items IH].
  - simpl; split; constructor.
  - change (wf (JArr (x :: items))) with (wf x /\ wf (JArr items)).
    rewrite IH. split; [intros []; now constructor|].
    intros H; inversion H; auto.
Qed.

Lemma wf_obj (members : list (str * json)) :
  wf (JObj members) <->
  NoDup (map fst members) /\ Forall (fun kv => wf (snd kv)) members.
Proof.
  enough (H : (fix all (l : list (str * json)) : Prop :=
                 match l with
                 | [] => True
                 | x :: t => wf (snd x) /\ all t
                 end) members
              <-> Forall (fun kv => wf (snd kv)) members).
  { change (wf (JObj members)) with
      (NoDup (map fst members) /\
       (fix all (l : list (str * json)) : Prop :=
          match l with
          | [] => True
          | x :: t => wf (snd x) /\ all t
          end) members).
    now rewrite H. }
  induction members as [|x members IH].
  - split; constructor.
  - rewrite Forall_cons_iff, <- IH. reflexivity.
Qed.

Lemma stringify_arr (items : list json) :
  JSON_stringify (JArr items) =
  "["%char :: join [comma] (map JSON_stringify items) ++ ["]"%char].
Proof. reflexivity. Qed.

Lemma stringify_obj (members : list (str * json)) :
  JSON_stringify (JObj members) =
  "{"%char :: join [comma] (map print_member members) ++ ["}"%char].
Proof. reflexivity. Qed.

Lemma reparses_all (v : json) : wf v -> reparses v.
Proof.
  induction v as [|b|n|s|items IH|members IH] using json_ind;
    intros Hwf [|fuel] r Hr Hlen; try (simpl in Hlen; lia).
  - reflexivity.
  - destruct b; reflexivity.
  - destruct (number_to_string_head n) as (c & s & Hs & Hc).
    pose proof (@parse_number_print n r (delimited_number_end r Hr)) as Hp.
    simpl JSON_stringify. rewrite Hs in *. simpl app in *.
    now rewrite parse_value_number.
  - simpl JSON_stringify. unfold quote. cbn [app parse_value skip_ws].
    change (is_json_space dquote) with false. cbv iota.
    change (Ascii.eqb dquote "n"%char) with false.
    change (Ascii.eqb dquote "t"%char) with false.
    change (Ascii.eqb dquote "f"%char) with false.
    rewrite Ascii.eqb_refl. cbv iota.
    rewrite <- app_assoc. cbn [app]. now rewrite parse_chars_quote.
  - apply wf_arr in Hwf.
    assert (Hall : Forall reparses items).
    { rewrite Forall_forall in *. auto. }
    destruct items as [|x items]; [reflexivity|].
    pose proof (@parse_elements_print (x :: items)
                  ltac:(discriminate) Hall fuel r) as Hp.
    rewrite stringify_arr in *.
    destruct (stringify_head x) as (c & s & Hs & Hc).
    assert (Hj : exists s', join [comma] (map JSON_stringify (x :: items))
                            = c :: s').
    { destruct items; simpl; rewrite Hs; simpl; eauto. }
    destruct Hj as (s' & Hj). rewrite Hj in *.
    cbn [length] in Hlen. rewrite length_app in Hlen. cbn [length] in Hlen.
    cbn [app] in *. rewrite <- app_assoc. cbn [app].
    cbn [parse_value skip_ws].
    change (is_json_space "["%char) with false. cbv iota.
    change (Ascii.eqb "["%char "n"%char) with false.
    change (Ascii.eqb "["%char "t"%char) with false.
    change (Ascii.eqb "["%char "f"%char) with false.
    change (Ascii.eqb "["%char dquote) with false.
    rewrite Ascii.eqb_refl. cbv iota.
    rewrite expect_value_start by (assumption || reflexivity).
    rewrite Hp by (simpl; lia). reflexivity.
  - apply wf_obj in Hwf. destruct Hwf as [Hnd Hwf].
    assert (Hall : Forall (fun kv => reparses (snd kv)) members).
    { rewrite Forall_forall in *. auto. }
    destruct members as [|x members]; [reflexivity|].
    pose proof (@parse_members_print (x :: members)
                  ltac:(discriminate) Hall fuel r) as Hp.
    rewrite stringify_obj in *.
    assert (Hj : exists s', join [comma] (map print_member (x :: members))
                            = dquote :: s').
    { destruct members; simpl; unfold print_member, quote; simpl; eauto. }
    destruct Hj as (s' & Hj). rewrite Hj in *.
    cbn [length] in Hlen. rewrite length_app in Hlen. cbn [length] in Hlen.
    cbn [app] in *. rewrite <- app_assoc. cbn [app].
    cbn [parse_value skip_ws].
    change (is_json_space "{"%char) with false. cbv iota.
    change (Ascii.eqb "{"%char "n"%char) with false.
    change (Ascii.eqb "{"%char "t"%char) with false.
    change (Ascii.eqb "{"%char "f"%char) with false.
    change (Ascii.eqb "{"%char dquote) with false.
    change (Ascii.eqb "{"%char "["%char) with false.
    rewrite Ascii.eqb_refl. cbv iota.
    rewrite expect_value_start by reflexivity.
    rewrite Hp by (simpl; lia). now rewrite build_object_distinct.
Qed.

Theorem JSON_parse_stringify (v : json) :
  wf v -> JSON_parse (JSON_stringify v) = Some v.
Proof.
  intros Hwf. unfold JSON_parse.
  pose proof (@reparses_all v Hwf (S (length (JSON_stringify v))) [] I
                (Nat.lt_succ_diag_r _)) as H.
  rewrite app_nil_r in H. now rewrite H.
Qed.

(** ** Parsed values are well formed *)

Lemma obj_set_keys (k : str) (v : json) (members : list (str * json)) :
  NoDup (map fst members) -> NoDup (map fst (obj_set k v members)).
Proof.
  intros Hnd.
  destruct (in_dec (list_eq_dec ascii_dec) k (map fst members)) as [Hin|Hout].
  - enough (E : map fst (obj_set k v members) = map fst members)
      by now rewrite E.
    clear Hnd. induction members as [|[k' v'] members IH]; simpl in *.
    + contradiction.
    + destruct (str_eqb k k') eqn:E; simpl; [reflexivity|].
      f_equal. apply IH. destruct Hin as [->|Hin]; [|exact Hin].
      now rewrite str_eqb_refl in E.
  - rewrite obj_set_fresh, map_app by assumption. simpl.
    apply NoDup_app; [exact Hnd | repeat constructor; easy |].
    intros a Ha [<-|[]]. contradiction.
Qed.

Lemma obj_set_values (P : json -> Prop) (k : str) (v : json)
    (members : list (str * json)) :
  P v -> Forall (fun kv => P (snd kv)) members ->
  Forall (fun kv => P (snd kv)) (obj_set k v members).
Proof.
  intros Hv. induction 1 as [|[k' v'] members Hx Hall IH]; simpl.
  - repeat constructor. exact Hv.
  - destruct (str_eqb k k'); constructor; auto.
Qed.

Lemma build_object_wf (members : list (str * json)) :
  Forall (fun kv => wf (snd kv)) members ->
  wf (JObj (build_object members)).
Proof.
  intros Hall. apply wf_obj. unfold build_object.
  enough (H : forall acc,
             NoDup (map fst acc) /\ Forall (fun kv => wf (snd kv)) acc ->
             let out := fold_left
                          (fun acc kv => obj_set (fst kv) (snd kv) acc)
                          members acc in
             NoDup (map fst out) /\ Forall (fun kv => wf (snd kv)) out).
  { apply (H []). split; constructor. }
  induction Hall as [|[k v] members Hv Hall IH]; intros acc [Hnd Hacc];
    simpl; [now split|].
  apply IH. split; [now apply obj_set_keys | now apply obj_set_values].
Qed.

Lemma parse_number_wf (s r : str) (v : json) :
  parse_number s = Some (v, r) -> wf v.
Proof.
  unfold parse_number. destruct s as [|c s]; [discriminate|].
  destruct (Ascii.eqb c "-"%char).
  - destruct (parse_nat s) as [[n r']|]; [|discriminate].
    intros [= <- _]. exact I.
  - destruct (parse_nat (c :: s)) as [[n r']|]; [|discriminate].
    intros [= <- _]. exact I.
Qed.

Ltac split_match H :=
  match type of H with
  | context [match ?x with _ => _ end] =>
      let E := fresh "E" in destruct x eqn:E; try discriminate H
  end.

Lemma parse_wf (fuel : nat) :
  (forall s v r, parse_value fuel s = Some (v, r) -> wf v) /\
  (forall s l r, parse_elements fuel s = Some (l, r) -> Forall wf l) /\
  (forall s l r, parse_members fuel s = Some (l, r) ->
                 Forall (fun kv => wf (snd kv)) l).
Proof.
  induction fuel as [|fuel (IHv & IHe & IHm)];
    [repeat split; intros; discriminate|].
  repeat split.
  - intros s v r H. cbn [parse_value] in H.
    destruct (skip_ws s) as [|c t]; [discriminate|].
    repeat split_match H; try (injection H as <- _; exact I);
      try (injection H as <- _; apply wf_arr; eauto; constructor);
      try (injection H as <- _; apply wf_obj; split; constructor).
    + injection H as <- _. apply build_object_wf. eauto.
    + eapply parse_number_wf; eassumption.
  - intros s l r H. cbn [parse_elements] in H.
    repeat split_match H; injection H as <- _; repeat constructor; eauto.
  - intros s l r H. cbn [parse_members] in H.
    repeat split_match H; injection H as <- _; repeat constructor;
      simpl; eauto.
Qed.

Theorem JSON_parse_wf (s : str) (v : json) : JSON_parse s = Some v -> wf v.
Proof.
  unfold JSON_parse. intros H.
  destruct (parse_value (S (length s)) s) as [[v' r]|] eqn:E;
    [|discriminate].
  destruct (skip_ws r); [|discriminate]. injection H as <-.
  eapply (proj1 (parse_wf _)); eassumption.
Qed.

Lemma JSON_parse_empty : JSON_parse [] = None.
Proof. reflexivity. Qed.

(** ** The characters of a printed value *)

Lemma join_Forall (P : ascii -> Prop) (sep : str) (l : list str) :
  Forall P sep -> Forall (Forall P) l -> Forall P (join sep l).
Proof.
  intros Hsep. induction 1 as [|x l Hx Hl IH]; simpl; [constructor|].
  destruct l; [exact Hx|].
  apply Forall_app; split; [exact Hx|].
  apply Forall_app; split; [exact Hsep | exact IH].
Qed.

Lemma digits_printable (u : Decimal.uint) : Forall printable (digits u).
Proof. induction u; simpl; constructor; auto; reflexivity. Qed.

Lemma digits_visible (u : Decimal.uint) :
  Forall (fun c => is_space c = false) (digits u).
Proof. induction u; simpl; constructor; auto. Qed.

Lemma stringify_printable (v : json) : Forall printable (JSON_stringify v).
Proof.
  induction v as [|b|n|s|items IH|members IH] using json_ind.
  - repeat constructor.
  - destruct b; repeat constructor.
  - destruct n; simpl; repeat constructor; apply digits_printable.
  - apply quote_printable.
  - rewrite stringify_arr. constructor; [reflexivity|].
    apply Forall_app; split; [|repeat constructor].
    apply join_Forall; [repeat constructor|].
    apply Forall_map. exact IH.
  - rewrite stringify_obj. constructor; [reflexivity|].
    apply Forall_app; split; [|repeat constructor].
    apply join_Forall; [repeat constructor|].
    apply Forall_map. eapply Forall_impl; [|exact IH].
    intros [k v] Hv. unfold print_member. cbn [fst snd] in *.
    apply Forall_app; split; [apply quote_printable|].
    constructor; [reflexivity | exact Hv].
Qed.

Lemma printable_not_newline (c : ascii) : printable c -> c <> newline.
Proof. intros H ->. discriminate H. Qed.

Lemma stringify_one_line (v : json) :
  Forall (fun c => c <> newline) (JSON_stringify v).
Proof.
  eapply Forall_impl; [|apply stringify_printable].
  apply printable_not_newline.
Qed.

(** A printed value ends with a visible character. *)
Lemma stringify_last (v : json) :
  exists s c, JSON_stringify v = s ++ [c] /\ is_space c = false.
Proof.
  destruct v as [|[]|n|s|items|members].
  - now exists (lit "nul"), "l"%char.
  - now exists (lit "tru"), "e"%char.
  - now exists (lit "fals"), "e"%char.
  - assert (Hv : Forall (fun c => is_space c = false) (number_to_string n)).
    { destruct n; simpl; repeat constructor; apply digits_visible. }
    destruct (number_to_string_head n) as (c & s & Hs & _).
    simpl JSON_stringify.
    destruct (@exists_last _ (number_to_string n)) as (s' & d & E);
      [now rewrite Hs|].
    exists s', d. split; [exact E|].
    rewrite E in Hv. apply Forall_app in Hv as [_ Hd].
    now inversion Hd.
  - exists (dquote :: flat_map escape_char s), dquote. now split.
  - rewrite stringify_arr. now eexists (_ :: _), _.
  - rewrite stringify_obj. now eexists (_ :: _), _.
Qed.

End JsonFacts.

(** * Properties of the store *)

(** ** Sets of values *)

Section SetFacts.

Lemma prim_eqb_eq (a b : json) : prim_eqb a b = true -> a = b.
Proof.
  destruct a, b; simpl; try discriminate; intros H; try reflexivity;
    f_equal.
  - now apply Bool.eqb_prop.
  - now apply Z.eqb_eq.
  - now apply str_eqb_eq.
Qed.

Lemma prim_eqb_object (a b : json) :
  prim_eqb a b = true -> is_object a = false /\ is_object b = false.
Proof. destruct a, b; simpl; try discriminate; auto. Qed.

Lemma prim_eqb_refl (a : json) : is_object a = false -> prim_eqb a a = true.
Proof.
  destruct a; simpl; try discriminate; intros _; auto.
  - apply Bool.eqb_reflx.
  - apply Z.eqb_refl.
  - apply str_eqb_refl.
Qed.

Lemma same_value_refl (a : ref) : same_value a a = true.
Proof.
  unfold same_value. destruct (is_object (val a)) eqn:E.
  - now rewrite Nat.eqb_refl.
  - now apply prim_eqb_refl.
Qed.

Lemma same_value_sym (a b : ref) : same_value a b = same_value b a.
Proof.
  unfold same_value.
  destruct (is_object (val a)) eqn:Ea, (is_object (val b)) eqn:Eb; simpl.
  - apply Nat.eqb_sym.
  - destruct (prim_eqb (val b) (val a)) eqn:E; [|reflexivity].
    apply prim_eqb_object in E. destruct E; congruence.
  - destruct (prim_eqb (val a) (val b)) eqn:E; [|reflexivity].
    apply prim_eqb_object in E. destruct E; congruence.
  - destruct (prim_eqb (val a) (val b)) eqn:E.
    + apply prim_eqb_eq in E. rewrite E. symmetry.
      apply prim_eqb_refl. congruence.
    + destruct (prim_eqb (val b) (val a)) eqn:E'; [|reflexivity].
      apply prim_eqb_eq in E'. rewrite E', prim_eqb_refl in E; congruence.
Qed.

Lemma same_value_trans (a b c : ref) :
  same_value a b = true -> same_value b c = true -> same_value a c = true.
Proof.
  unfold same_value.
  destruct (is_object (val a)) eqn:Ea, (is_object (val b)) eqn:Eb;
    simpl; try discriminate.
  - intros H1 H2. apply andb_true_iff in H2 as [-> H2]. simpl.
    apply Nat.eqb_eq in H1, H2. apply Nat.eqb_eq. congruence.
  - intros H. apply prim_eqb_object in H. destruct H; congruence.
  - intros H1 H2. apply prim_eqb_eq in H1. now rewrite H1.
Qed.

Lemma set_has_app (a b : list ref) (x : ref) :
  set_has (a ++ b) x = set_has a x || set_has b x.
Proof. apply existsb_app. Qed.

Lemma set_has_In (l : list ref) (x : ref) : In x l -> set_has l x = true.
Proof.
  intros H. apply existsb_exists. exists x. split; [exact H|].
  apply same_value_refl.
Qed.

Lemma set_has_same (l : list ref) (x y : ref) :
  same_value x y = true -> set_has l y = true -> set_has l x = true.
Proof.
  intros Hxy H. apply existsb_exists in H as (z & Hz & Hyz).
  apply existsb_exists. exists z. split; [exact Hz|].
  eapply same_value_trans; eassumption.
Qed.

Lemma set_has_add (set : list ref) (e x : ref) :
  set_has (set_add set e) x = set_has set x || same_value x e.
Proof.
  unfold set_add. destruct (set_has set e) eqn:E.
  - destruct (same_value x e) eqn:Ex; [|now rewrite orb_false_r].
    rewrite orb_true_r. eapply set_has_same; eassumption.
  - rewrite set_has_app. simpl. now rewrite orb_false_r.
Qed.

Lemma set_has_fold_add (l acc : list ref) (x : ref) :
  set_has (fold_left set_add l acc) x = set_has acc x || set_has l x.
Proof.
  revert acc. induction l as [|y l IH]; intros acc; simpl.
  - now rewrite orb_false_r.
  - now rewrite IH, set_has_add, orb_assoc.
Qed.

Lemma set_has_new_Set (l : list ref) (x : ref) :
  set_has (new_Set l) x = set_has l x.
Proof. unfold new_Set. now rewrite set_has_fold_add. Qed.

Lemma fold_add_first_occurrences (l acc : list ref) :
  fold_left set_add l acc = acc ++ first_occurrences acc l.
Proof.
  revert acc. induction l as [|y l IH]; intros acc; simpl.
  - now rewrite app_nil_r.
  - rewrite IH. unfold set_add. destruct (set_has acc y); [reflexivity|].
    now rewrite <- app_assoc.
Qed.

Lemma new_Set_first_occurrences (l : list ref) :
  new_Set l = first_occurrences [] l.
Proof. apply fold_add_first_occurrences. Qed.

Lemma first_occurrences_incl (l seen : list ref) (x : ref) :
  In x (first_occurrences seen l) -> In x l.
Proof.
  revert seen. induction l as [|y l IH]; intros seen; simpl; [easy|].
  destruct (set_has seen y); simpl; intuition eauto.
Qed.

Lemma new_Set_incl (l : list ref) (x : ref) : In x (new_Set l) -> In x l.
Proof. rewrite new_Set_first_occurrences. apply first_occurrences_incl. Qed.

Lemma first_occurrences_fresh (l seen : list ref) (x y : ref) :
  set_has seen y = true -> In x (first_occurrences seen l) ->
  same_value y x = false.
Proof.
  revert seen. induction l as [|z l IH]; intros seen Hy; simpl; [easy|].
  destruct (set_has seen z) eqn:Ez; simpl.
  - now apply IH.
  - intros [<-|Hx].
    + destruct (same_value y z) eqn:E; [|reflexivity].
      rewrite same_value_sym in E.
      now rewrite (set_has_same seen _ _ E Hy) in Ez.
    + apply (IH (seen ++ [z])); [|exact Hx].
      rewrite set_has_app, Hy. reflexivity.
Qed.

Lemma first_occurrences_distinct (l seen : list ref) :
  distinct (first_occurrences seen l).
Proof.
  revert seen. induction l as [|z l IH]; intros seen; simpl;
    [constructor|].
  destruct (set_has seen z); [apply IH|].
  constructor; [|apply IH].
  apply Forall_forall. intros x Hx.
  eapply first_occurrences_fresh; [|exact Hx].
  rewrite set_has_app. simpl. now rewrite same_value_refl, orb_true_r.
Qed.

Lemma new_Set_distinct (l : list ref) : distinct (new_Set l).
Proof.
  rewrite new_Set_first_occurrences. apply first_occurrences_distinct.
Qed.

Lemma intersect2_In (a b : list ref) (x : ref) :
  In x (intersect2 a b) <-> In x b /\ set_has a x = true.
Proof.
  unfold intersect2. rewrite filter_In. now rewrite set_has_new_Set.
Qed.

Lemma set_has_intersect2 (a b : list ref) (x : ref) :
  set_has (intersect2 a b) x = set_has a x && set_has b x.
Proof.
  destruct (set_has (intersect2 a b) x) eqn:E; symmetry.
  - apply existsb_exists in E as (y & Hy & Hxy).
    apply intersect2_In in Hy as [Hb Ha].
    apply andb_true_iff. split.
    + eapply set_has_same; eassumption.
    + apply existsb_exists. eauto.
  - apply not_true_iff_false. intros H. apply andb_true_iff in H as [Ha Hb].
    apply not_true_iff_false in E. apply E.
    apply existsb_exists in Hb as (y & Hy & Hxy).
    apply existsb_exists. exists y. split; [|exact Hxy].
    apply intersect2_In. split; [exact Hy|].
    rewrite same_value_sym in Hxy. eapply set_has_same; eassumption.
Qed.

Lemma set_has_fold_intersect2 (rest : list (list ref)) (first : list ref)
    (x : ref) :
  set_has (fold_left (fun p n => intersect2 p n) rest first) x =
  set_has first x && forallb (fun l => set_has l x) rest.
Proof.
  revert first. induction rest as [|l rest IH]; intros first; simpl.
  - now rewrite andb_true_r.
  - now rewrite IH, set_has_intersect2, andb_assoc.
Qed.

Lemma fold_intersect2_Forall (Q : ref -> Prop) (rest : list (list ref))
    (first : list ref) :
  Forall Q first -> Forall (Forall Q) rest ->
  Forall Q (fold_left (fun p n => intersect2 p n) rest first).
Proof.
  intros Hfirst Hrest. revert first Hfirst.
  induction Hrest as [|l rest Hl Hrest IH]; intros first Hfirst; simpl;
    [exact Hfirst|].
  apply IH. apply Forall_forall. intros x Hx.
  apply intersect2_In in Hx as [Hx _].
  rewrite Forall_forall in Hl. auto.
Qed.

Lemma fold_concat_app (arrs : list (list ref)) (acc : list ref) :
  fold_left (fun p n => p ++ n) arrs acc = acc ++ concat arrs.
Proof.
  revert acc. induction arrs as [|l arrs IH]; intros acc; simpl.
  - now rewrite app_nil_r.
  - now rewrite IH, app_assoc.
Qed.

Lemma union_eq (arrs : list (list ref)) : union arrs = new_Set (concat arrs).
Proof. unfold union. now rewrite fold_concat_app. Qed.

End SetFacts.

(** ** The matcher *)

Section FindFacts.

Variable db : Database.

Lemma find_Forall (Q : ref -> Prop) (records : list ref) (query : Query) :
  Forall Q records -> Forall Q (matching db records query).
Proof.
  intros Hrec.
  induction query as [text|queries IH|queries IH|fields] using Query_ind;
    simpl.
  - apply Forall_forall. intros x Hx. apply filter_In in Hx as [Hx _].
    rewrite Forall_forall in Hrec. auto.
  - destruct IH as [|q queries Hq IH]; simpl; [constructor|].
    apply fold_intersect2_Forall; [exact Hq|].
    now apply Forall_map.
  - rewrite union_eq. apply Forall_forall. intros x Hx.
    apply new_Set_incl in Hx.
    assert (H : Forall Q (concat (map (matching db records) queries))).
    { apply Forall_concat. now apply Forall_map. }
    rewrite Forall_forall in H. auto.
  - apply Forall_forall. intros x Hx. apply filter_In in Hx as [Hx _].
    rewrite Forall_forall in Hrec. auto.
Qed.

Lemma find_incl (records : list ref) (query : Query) (x : ref) :
  In x (matching db records query) -> In x records.
Proof.
  intros Hx.
  pose proof (@find_Forall (fun y => In y records) records query) as H.
  rewrite !Forall_forall in H. auto.
Qed.

Lemma set_has_concat (ls : list (list ref)) (x : ref) :
  set_has (concat ls) x = existsb (fun l => set_has l x) ls.
Proof.
  induction ls as [|l ls IH]; simpl; [reflexivity|].
  now rewrite set_has_app, IH.
Qed.

Lemma find_sound (records : list ref) (query : Query) :
  heap_ok records ->
  forall x, set_has (matching db records query) x = true -> In x records ->
            selects db query (val x) = true.
Proof.
  intros Hheap.
  assert (Hleaf : forall (p : json -> bool) x,
             set_has (filter (fun r => p (val r)) records) x = true ->
             In x records -> p (val x) = true).
  { intros p x Hx Hin. apply existsb_exists in Hx as (y & Hy & Hxy).
    apply filter_In in Hy as [Hy Hp]. now rewrite (Hheap x y). }
  induction query as [text|queries IH|queries IH|fields] using Query_ind;
    intros x Hx Hin; simpl in *; auto.
  - destruct queries as [|q queries]; [discriminate Hx|].
    change (intersect (map (matching db records) (q :: queries)))
      with (fold_left (fun p n => intersect2 p n)
              (map (matching db records) queries) (matching db records q)) in Hx.
    rewrite set_has_fold_intersect2 in Hx.
    apply andb_true_iff in Hx as [Hq Hqs].
    change (forallb (fun q0 => selects db q0 (val x)) (q :: queries) = true).
    apply forallb_forall. intros q' Hq'.
    rewrite Forall_forall in IH. apply IH; [exact Hq'| |exact Hin].
    destruct Hq' as [<-|Hq']; [exact Hq|].
    rewrite forallb_forall in Hqs. apply Hqs. now apply in_map.
  - rewrite union_eq, set_has_new_Set, set_has_concat in Hx.
    apply existsb_exists in Hx as (l & Hl & Hx).
    apply in_map_iff in Hl as (q & <- & Hq).
    apply existsb_exists. exists q. split; [exact Hq|].
    rewrite Forall_forall in IH. now apply IH.
Qed.

Lemma find_complete (records : list ref) (query : Query) :
  forall x, In x records -> selects db query (val x) = true ->
            set_has (matching db records query) x = true.
Proof.
  induction query as [text|queries IH|queries IH|fields] using Query_ind;
    intros x Hin Hsel; simpl in *.
  - apply set_has_In, filter_In. now split.
  - destruct queries as [|q queries]; [discriminate Hsel|].
    change (intersect (map (matching db records) (q :: queries)))
      with (fold_left (fun p n => intersect2 p n)
              (map (matching db records) queries) (matching db records q)).
    rewrite set_has_fold_intersect2.
    rewrite forallb_forall in Hsel. rewrite Forall_forall in IH.
    apply andb_true_iff. split.
    + apply IH; [now left | exact Hin | apply Hsel; now left].
    + apply forallb_forall. intros l Hl.
      apply in_map_iff in Hl as (q' & <- & Hq').
      apply IH; [now right | exact Hin | apply Hsel; now right].
  - rewrite union_eq, set_has_new_Set, set_has_concat.
    apply existsb_exists in Hsel as (q & Hq & Hsel).
    apply existsb_exists. exists (matching db records q).
    split; [now apply in_map|].
    rewrite Forall_forall in IH. now apply IH.
  - apply set_has_In, filter_In. now split.
Qed.

(** The matcher computes [selects]: membership in the result, in the
    sense of [Set.has], is decided by the record's contents. *)
Theorem find_selects (records : list ref) (query : Query) (x : ref) :
  heap_ok records -> In x records ->
  set_has (matching db records query) x = selects db query (val x).
Proof.
  intros Hheap Hin.
  destruct (selects db query (val x)) eqn:E.
  - now apply find_complete.
  - apply not_true_iff_false. intros H.
    apply (find_sound query Hheap) in H; congruence.
Qed.

End FindFacts.

(** ** Loading and serializing *)

Section LoadFacts.

Variable db : Database.

Lemma load_lines_spec (lines : list str) :
  forall first rows,
    load_lines first lines = Ok rows ->
    Forall2 decodes lines rows /\ addressed first rows /\ rows_wf rows.
Proof.
  induction lines as [|l lines IH]; intros first rows; simpl.
  - intros [= <-]. repeat split; constructor.
  - destruct (JSON_parse (slice1 l)) as [v|] eqn:Ev; [|discriminate].
    destruct (load_lines (S first) lines) as [rows'|] eqn:E;
      [|discriminate].
    simpl. intros [= <-].
    destruct (IH _ _ E) as (Hdec & Haddr & Hwf).
    repeat split.
    + constructor; [now split | exact Hdec].
    + unfold addressed in *. simpl. now rewrite Haddr.
    + constructor; [simpl; eapply JSON_parse_wf; eassumption | exact Hwf].
Qed.

Lemma load_lines_Err (lines : list str) (first : nat) (e : error) :
  load_lines first lines = Err e <->
  e = SyntaxError /\
  Exists (fun l => JSON_parse (slice1 l) = None) lines.
Proof.
  revert first. induction lines as [|l lines IH]; intros first; simpl.
  - split; [discriminate|]. intros [_ H]. inversion H.
  - destruct (JSON_parse (slice1 l)) as [v|] eqn:Ev.
    + specialize (IH (S first)).
      destruct (load_lines (S first) lines) as [rows|e'] eqn:E; simpl.
      * split; [discriminate|]. intros [He H].
        inversion H; subst; [congruence|].
        assert (X : Ok rows = Err SyntaxError) by (apply IH; auto).
        discriminate X.
      * split.
        -- intros [= <-]. destruct (proj1 IH eq_refl) as [-> H].
           split; [reflexivity | now apply Exists_cons_tl].
        -- intros [-> H]. f_equal.
           inversion H; subst; [congruence|].
           assert (X : @Err (list Row) e' = Err SyntaxError)
             by (apply IH; auto).
           congruence.
    + split.
      * intros [= <-]. split; [reflexivity | now apply Exists_cons_hd].
      * now intros [-> _].
Qed.

Lemma row_eta (r : Row) :
  {| exists_ := exists_ r;
     data := {| addr := addr (data r); val := val (data r) |} |} = r.
Proof. now destruct r as [e [a v]]. Qed.

Lemma startsWith_mark (r : Row) (s : str) :
  startsWith (lit "E") (mark r :: s) = exists_ r.
Proof. unfold mark. now destruct (exists_ r). Qed.

Lemma load_lines_bodies (rows : list Row) :
  forall first,
    addressed first rows -> rows_wf rows ->
    load_lines first (map body rows) = Ok rows.
Proof.
  induction rows as [|r rows IH]; intros first Haddr Hwf; [reflexivity|].
  inversion Hwf as [|? ? Hr Hrows]; subst.
  unfold addressed in Haddr. simpl in Haddr.
  injection Haddr as Ha Haddr.
  cbn [map load_lines body slice1 tl].
  rewrite JSON_parse_stringify by assumption.
  rewrite IH by assumption. cbn [bind]. unfold body.
  rewrite startsWith_mark, <- Ha. now rewrite row_eta.
Qed.

Lemma serialize_cons (r : Row) (rows : list Row) :
  serialize (r :: rows) = body r ++ newline :: serialize rows.
Proof.
  unfold serialize, concat_str, line, body. simpl.
  now rewrite <- app_assoc.
Qed.

Lemma serialize_app (rows rows' : list Row) :
  serialize (rows ++ rows') = serialize rows ++ serialize rows'.
Proof.
  unfold serialize, concat_str. now rewrite map_app, concat_app.
Qed.

Lemma serialize_join (rows : list Row) :
  rows <> [] ->
  serialize rows = join [newline] (map body rows) ++ [newline].
Proof.
  induction rows as [|r rows IH]; [easy|]. intros _.
  rewrite serialize_cons. destruct rows as [|r' rows]; [reflexivity|].
  rewrite IH by discriminate.
  change (map body (r :: r' :: rows))
    with (body r :: body r' :: map body rows).
  change (map body (r' :: rows)) with (body r' :: map body rows).
  rewrite join_cons. now rewrite <- !app_assoc.
Qed.

Lemma body_framed (r : Row) : framed (body r).
Proof.
  destruct (stringify_last (val (data r))) as (s & d & Hs & Hd).
  exists (mark r), s, d. unfold body. rewrite Hs.
  repeat split; [|exact Hd]. unfold mark. now destruct (exists_ r).
Qed.

Lemma join_framed (sep : str) (l : list str) :
  l <> [] -> Forall framed l -> framed (join sep l).
Proof.
  intros Hne Hall. induction Hall as [|x l Hx Hall IH]; [easy|].
  destruct l as [|y l]; [exact Hx|].
  rewrite join_cons.
  destruct Hx as (c & m & d & -> & Hc & Hd).
  destruct IH as (c' & m' & d' & -> & Hc' & Hd'); [discriminate|].
  exists c, (m ++ [d] ++ sep ++ c' :: m'), d'.
  repeat split; [|exact Hc | exact Hd'].
  simpl. f_equal. rewrite <- !app_assoc. simpl.
  f_equal. f_equal. now rewrite <- app_assoc.
Qed.

Lemma trim_serialize (rows : list Row) :
  rows <> [] -> trim (serialize rows) = join [newline] (map body rows).
Proof.
  intros Hne. rewrite serialize_join by assumption.
  destruct (@join_framed [newline] (map body rows))
    as (c & m & d & E & Hc & Hd).
  - now destruct rows.
  - apply Forall_map, Forall_forall. intros r _. apply body_framed.
  - rewrite E.
    apply (@trim_framed c d m [] [newline] Hc Hd); reflexivity.
Qed.

Lemma body_one_line (r : Row) : Forall (fun c => c <> newline) (body r).
Proof.
  unfold body. constructor; [|apply stringify_one_line].
  unfold mark. now destruct (exists_ r).
Qed.

Lemma split_join (l : list str) :
  l <> [] -> Forall (Forall (fun c => c <> newline)) l ->
  split newline (join [newline] l) = l.
Proof.
  intros Hne Hall. induction Hall as [|x l Hx Hall IH]; [easy|].
  destruct l as [|y l]; [now apply split_whole|].
  rewrite join_cons. cbn [app].
  rewrite split_app by assumption. now rewrite IH.
Qed.

Lemma lines_serialize (rows : list Row) :
  rows <> [] ->
  split newline (trim (serialize rows)) = map body rows.
Proof.
  intros Hne. rewrite trim_serialize by assumption.
  apply split_join; [now destruct rows|].
  apply Forall_map, Forall_forall. intros r _. apply body_one_line.
Qed.

(** Reading back what was serialized. *)
Theorem load_serialize (fs : FileSystem) (rows : list Row) :
  fs (filename db) = Some (serialize rows) ->
  rows <> [] -> addressed 0 rows -> rows_wf rows ->
  _load db fs = Ok rows.
Proof.
  intros Hfs Hne Haddr Hwf. unfold _load, readFile. rewrite Hfs. simpl.
  rewrite lines_serialize by assumption.
  now apply load_lines_bodies.
Qed.

Lemma split_nonempty (sep : ascii) (s : str) : split sep s <> [].
Proof. destruct (split_cons_shape sep s) as (p & ps & ->). discriminate. Qed.

(** What [_load] guarantees about the rows it returns. *)
Theorem load_rows (fs : FileSystem) (rows : list Row) :
  _load db fs = Ok rows ->
  rows <> [] /\ addressed 0 rows /\ rows_wf rows.
Proof.
  unfold _load, readFile.
  destruct (fs (filename db)) as [contents|]; [simpl|discriminate].
  intros H. destruct (load_lines_spec _ _ H) as (Hdec & Haddr & Hwf).
  repeat split; try assumption.
  intros ->. inversion Hdec as [E|]. symmetry in E.
  now apply split_nonempty in E.
Qed.

Lemma read_write (fs : FileSystem) (name contents : str) :
  writeFile fs name contents name = Some contents.
Proof. unfold writeFile. now rewrite str_eqb_refl. Qed.

End LoadFacts.

(** ** Sorting *)

Section SortFacts.

Variable A : Type.
Variable compare : A -> A -> Z.

Lemma stable_place_In (x y : A) (sorted : list A) :
  In y (stable_place compare x sorted) <-> y = x \/ In y sorted.
Proof.
  induction sorted as [|z sorted IH]; simpl; [intuition|].
  destruct (compare x z <? 0)%Z; simpl; rewrite ?IH; intuition.
Qed.

Lemma fold_stable_place_In (l acc : list A) (y : A) :
  In y (fold_left (fun sorted x => stable_place compare x sorted) l acc)
  <-> In y acc \/ In y l.
Proof.
  revert acc. induction l as [|x l IH]; intros acc; simpl; [tauto|].
  rewrite IH, stable_place_In. intuition.
Qed.

Lemma stable_sort_In (l : list A) (y : A) : In y (stable_sort compare l) <-> In y l.
Proof.
  unfold stable_sort. rewrite <- in_rev, fold_stable_place_In. simpl. tauto.
Qed.








End SortFacts.

(** ** The comparator of [find] *)

Section ComparatorFacts.

Variable localeCompare : str -> str -> Z.

(** Equal strings tie (when the collation says so) and the next key
    decides. *)
Lemma comparefn_string_tie (key : str) (o : option Order)
    (keys : list (str * option Order)) (a b : ref) (x y : str) :
  get_field (val a) key = Some (JStr x) ->
  get_field (val b) key = Some (JStr y) ->
  localeCompare x y = 0%Z ->
  ordering localeCompare ((key, o) :: keys) a b
  = ordering localeCompare keys a b.
Proof.
  intros Ha Hb Hxy. unfold ordering. cbn [map fst snd].
  rewrite Ha, Hb. cbn [compare_values]. rewrite Hxy. reflexivity.
Qed.

(** Equal numbers never tie: the comparator answers the direction of
    the key, whatever the later keys are and in whichever order the two
    records are given. *)
Lemma comparefn_numeric_tie (key : str) (o : Order)
    (keys : list (str * option Order)) (a b : ref) (n : Z) :
  get_field (val a) key = Some (JNum n) ->
  get_field (val b) key = Some (JNum n) ->
  ordering localeCompare ((key, Some o) :: keys) a b
  = order_value (Some o) /\
  ordering localeCompare ((key, Some o) :: keys) b a
  = order_value (Some o).
Proof.
  intros Ha Hb. unfold ordering. cbn [map fst snd].
  rewrite Ha, Hb. cbn [compare_values]. rewrite Z.ltb_irrefl.
  now destruct o.
Qed.

End ComparatorFacts.

(** ** Callbacks that do not throw *)

Section CallbackFacts.

Variables A B : Type.

Lemma map_m_Ok (f : A -> result B) (g : A -> B) (l : list A) :
  (forall x, In x l -> f x = Ok (g x)) -> map_m f l = Ok (map g l).
Proof.
  induction l as [|x l IH]; intros H; simpl; [reflexivity|].
  rewrite H by now left. simpl. rewrite IH; [reflexivity|].
  intros y Hy. apply H. now right.
Qed.

Lemma map_m_inv (f : A -> result B) (g : A -> B) (l : list A) :
  (forall x y, In x l -> f x = Ok y -> y = g x) ->
  forall ys, map_m f l = Ok ys -> ys = map g l.
Proof.
  induction l as [|x l IH]; intros H ys; simpl; [now intros [= <-]|].
  destruct (f x) as [y|] eqn:E; [simpl|discriminate].
  destruct (map_m f l) as [ys'|] eqn:E'; [simpl|discriminate].
  intros [= <-]. f_equal.
  - apply H; [now left | exact E].
  - apply IH; [|reflexivity]. intros z w Hz. apply H. now right.
Qed.

Lemma filter_m_Ok (p : A -> result bool) (q : A -> bool) (l : list A) :
  (forall x, In x l -> p x = Ok (q x)) -> filter_m p l = Ok (filter q l).
Proof.
  induction l as [|x l IH]; intros H; simpl; [reflexivity|].
  rewrite H by now left. simpl. rewrite IH; [reflexivity|].
  intros y Hy. apply H. now right.
Qed.

Lemma filter_m_inv (p : A -> result bool) (q : A -> bool) (l : list A) :
  (forall x b, In x l -> p x = Ok b -> b = q x) ->
  forall r, filter_m p l = Ok r -> r = filter q l.
Proof.
  induction l as [|x l IH]; intros H r; simpl; [now intros [= <-]|].
  destruct (p x) as [b|] eqn:E; [simpl|discriminate].
  destruct (filter_m p l) as [r'|] eqn:E'; [simpl|discriminate].
  intros [= <-].
  rewrite <- (H x b (or_introl eq_refl) E).
  rewrite (IH (fun z c Hz => H z c (or_intror Hz)) r' eq_refl).
  reflexivity.
Qed.

Lemma some_m_Ok (p : A -> result bool) (q : A -> bool) (l : list A) :
  (forall x, In x l -> p x = Ok (q x)) -> some_m p l = Ok (existsb q l).
Proof.
  induction l as [|x l IH]; intros H; simpl; [reflexivity|].
  rewrite H by now left. simpl. destruct (q x); [reflexivity|].
  apply IH. intros y Hy. apply H. now right.
Qed.

Lemma some_m_inv (p : A -> result bool) (q : A -> bool) (l : list A) :
  (forall x b, In x l -> p x = Ok b -> b = q x) ->
  forall b, some_m p l = Ok b -> b = existsb q l.
Proof.
  induction l as [|x l IH]; intros H b; simpl; [now intros [= <-]|].
  destruct (p x) as [c|] eqn:E; [simpl|discriminate].
  rewrite <- (H x c (or_introl eq_refl) E).
  destruct c; [now intros [= <-]|].
  apply IH. intros z d Hz. apply H. now right.
Qed.

Lemma every_m_Ok (p : A -> result bool) (q : A -> bool) (l : list A) :
  (forall x, In x l -> p x = Ok (q x)) -> every_m p l = Ok (forallb q l).
Proof.
  induction l as [|x l IH]; intros H; simpl; [reflexivity|].
  rewrite H by now left. simpl. destruct (q x); [|reflexivity].
  apply IH. intros y Hy. apply H. now right.
Qed.

Lemma every_m_inv (p : A -> result bool) (q : A -> bool) (l : list A) :
  (forall x b, In x l -> p x = Ok b -> b = q x) ->
  forall b, every_m p l = Ok b -> b = forallb q l.
Proof.
  induction l as [|x l IH]; intros H b; simpl; [now intros [= <-]|].
  destruct (p x) as [c|] eqn:E; [simpl|discriminate].
  rewrite <- (H x c (or_introl eq_refl) E).
  destruct c; [|now intros [= <-]].
  apply IH. intros z d Hz. apply H. now right.
Qed.

Lemma reduce_m_Ok (step : B -> A -> result B) (g : B -> A -> B)
    (l : list A) :
  (forall acc x, In x l -> step acc x = Ok (g acc x)) ->
  forall init, reduce_m step l init = Ok (fold_left g l init).
Proof.
  induction l as [|x l IH]; intros H init; simpl; [reflexivity|].
  rewrite H by now left. simpl. apply IH.
  intros acc y Hy. apply H. now right.
Qed.

Lemma reduce_m_inv (step : B -> A -> result B) (g : B -> A -> B)
    (l : list A) :
  (forall acc x r, In x l -> step acc x = Ok r -> r = g acc x) ->
  forall init r, reduce_m step l init = Ok r -> r = fold_left g l init.
Proof.
  induction l as [|x l IH]; intros H init r; simpl; [now intros [= <-]|].
  destruct (step init x) as [acc|] eqn:E; [simpl|discriminate].
  rewrite <- (H init x acc (or_introl eq_refl) E).
  apply IH. intros a y c Hy. apply H. now right.
Qed.

End CallbackFacts.

(** ** Reads that do not throw *)

Section ReadFacts.

Variable db : Database.

Lemma read_Ok (record : json) (key : str) :
  record <> JNull -> read record key = Ok (get_field record key).
Proof. now destruct record. Qed.

Lemma read_inv (record : json) (key : str) (value : option json) :
  read record key = Ok value -> value = get_field record key.
Proof. destruct record; simpl; congruence. Qed.

Lemma text_matches_Ok (text : str) (record : json) :
  record <> JNull ->
  text_matches db text record = Ok (text_selects db text record).
Proof.
  intros H. unfold text_matches, text_selects. apply some_m_Ok.
  intros key _. now rewrite read_Ok.
Qed.

Lemma text_matches_inv (text : str) (record : json) (b : bool) :
  text_matches db text record = Ok b -> b = text_selects db text record.
Proof.
  unfold text_matches, text_selects. apply some_m_inv.
  intros key c _. destruct (read record key) as [value|] eqn:E;
    [simpl|discriminate].
  apply read_inv in E. now intros [= <-]; subst.
Qed.

Lemma fields_match_Ok (fields : list (str * Clause)) (record : json) :
  record <> JNull ->
  fields_match fields record = Ok (fields_select fields record).
Proof.
  intros H. unfold fields_match, fields_select. apply every_m_Ok.
  intros kc _. now rewrite read_Ok.
Qed.

Lemma fields_match_inv (fields : list (str * Clause)) (record : json)
    (b : bool) :
  fields_match fields record = Ok b -> b = fields_select fields record.
Proof.
  unfold fields_match, fields_select. apply every_m_inv.
  intros kc c _. destruct (read record (fst kc)) as [value|] eqn:E;
    [simpl|discriminate].
  apply read_inv in E. now intros [= <-]; subst.
Qed.

(** On records that can be read the matcher returns, and it returns
    [matching]. *)
Lemma find_Ok (records : list ref) (query : Query) :
  readable records ->
  _find db records query = Ok (matching db records query).
Proof.
  intros Hread. unfold readable in Hread. rewrite Forall_forall in Hread.
  induction query as [text|queries IH|queries IH|fields] using Query_ind;
    simpl.
  - apply filter_m_Ok. intros x Hx. apply text_matches_Ok. auto.
  - rewrite (@map_m_Ok _ _ _ (matching db records)); [reflexivity|].
    now apply Forall_forall.
  - rewrite (@map_m_Ok _ _ _ (matching db records)); [reflexivity|].
    now apply Forall_forall.
  - apply filter_m_Ok. intros x Hx. apply fields_match_Ok. auto.
Qed.

(** Whenever the matcher returns, it returns [matching]. *)
Lemma find_inv (records : list ref) (query : Query) :
  forall l, _find db records query = Ok l -> l = matching db records query.
Proof.
  induction query as [text|queries IH|queries IH|fields] using Query_ind;
    intros l; simpl.
  - apply filter_m_inv. intros x b _. apply text_matches_inv.
  - destruct (map_m (_find db records) queries) as [ls|] eqn:E;
      [simpl|discriminate].
    intros [= <-]. f_equal.
    apply (@map_m_inv _ _ (_find db records)); [|exact E].
    intros q l' Hq. rewrite Forall_forall in IH. now apply IH.
  - destruct (map_m (_find db records) queries) as [ls|] eqn:E;
      [simpl|discriminate].
    intros [= <-]. f_equal.
    apply (@map_m_inv _ _ (_find db records)); [|exact E].
    intros q l' Hq. rewrite Forall_forall in IH. now apply IH.
  - apply filter_m_inv. intros x b _. apply fields_match_inv.
Qed.

Lemma project_Ok (keys : list str) (record : ref) :
  val record <> JNull -> project keys record = Ok (projected keys record).
Proof.
  intros H. unfold project, projected.
  rewrite (@reduce_m_Ok _ _ _
             (fun p n => set_property n (get_field (val record) n) p));
    [reflexivity|].
  intros acc n _. now rewrite read_Ok.
Qed.

Lemma project_inv (keys : list str) (record : ref) (y : Found) :
  project keys record = Ok y -> y = projected keys record.
Proof.
  unfold project, projected. intros H.
  match type of H with
  | context [reduce_m ?f keys []] =>
      destruct (reduce_m f keys []) as [p|] eqn:E; [|discriminate H]
  end.
  simpl in H. injection H as <-. f_equal.
  eapply reduce_m_inv; [|exact E].
  intros acc n r _. cbn beta.
  destruct (read (val record) n) as [value|] eqn:Er; [simpl|discriminate].
  apply read_inv in Er. intros [= <-]. now subst.
Qed.

End ReadFacts.

Section ComparatorReads.

Variable localeCompare : str -> str -> Z.

Lemma comparefn_Ok (sort : list (str * option Order)) (a b : ref) :
  val a <> JNull -> val b <> JNull ->
  comparefn localeCompare sort a b = Ok (ordering localeCompare sort a b).
Proof.
  intros Ha Hb. unfold comparefn, ordering.
  rewrite (@map_m_Ok _ _ _
             (fun ko => compare_values localeCompare (order_value (snd ko))
                          (get_field (val a) (fst ko))
                          (get_field (val b) (fst ko)))); [reflexivity|].
  intros ko _. now rewrite !read_Ok.
Qed.

Lemma comparefn_inv (sort : list (str * option Order)) (a b : ref) (c : Z) :
  comparefn localeCompare sort a b = Ok c ->
  c = ordering localeCompare sort a b.
Proof.
  unfold comparefn, ordering. intros H.
  match type of H with
  | context [map_m ?f sort] =>
      destruct (map_m f sort) as [compares|] eqn:E; [|discriminate H]
  end.
  simpl in H. injection H as <-. f_equal.
  eapply map_m_inv; [|exact E].
  intros ko y _. cbn beta.
  destruct (read (val a) (fst ko)) as [aValue|] eqn:Ea; [simpl|discriminate].
  destruct (read (val b) (fst ko)) as [bValue|] eqn:Eb; [simpl|discriminate].
  apply read_inv in Ea, Eb. intros [= <-]. now subst.
Qed.

End ComparatorReads.

Section SortReads.

Variable X : Type.
Variable comparefn_m : X -> X -> result Z.
Variable compare : X -> X -> Z.
Variable P : X -> Prop.

Hypothesis compare_inv :
  forall a b c, comparefn_m a b = Ok c -> c = compare a b.
Hypothesis compare_Ok :
  forall a b, P a -> P b -> comparefn_m a b = Ok (compare a b).

Lemma place_inv (x : X) (sorted r : list X) :
  place comparefn_m x sorted = Ok r -> r = stable_place compare x sorted.
Proof.
  revert r. induction sorted as [|y t IH]; intros r; simpl;
    [now intros [= <-]|].
  destruct (comparefn_m x y) as [c|] eqn:E; [simpl|discriminate].
  rewrite <- (compare_inv E).
  destruct (c <? 0)%Z; [|now intros [= <-]].
  destruct (place comparefn_m x t) as [r'|]; [simpl|discriminate].
  intros [= <-]. f_equal. now apply IH.
Qed.

Lemma place_Ok (x : X) (sorted : list X) :
  P x -> Forall P sorted ->
  place comparefn_m x sorted = Ok (stable_place compare x sorted).
Proof.
  intros Hx. induction 1 as [|y t Hy Ht IH]; simpl; [reflexivity|].
  rewrite compare_Ok by assumption. simpl.
  destruct (compare x y <? 0)%Z; [|reflexivity]. now rewrite IH.
Qed.

Lemma stable_place_Forall (x : X) (sorted : list X) :
  P x -> Forall P sorted -> Forall P (stable_place compare x sorted).
Proof.
  intros Hx. induction 1 as [|y t Hy Ht IH]; simpl; [now repeat constructor|].
  destruct (compare x y <? 0)%Z; repeat constructor; assumption.
Qed.

Lemma js_sort_inv (l r : list X) :
  js_sort comparefn_m l = Ok r -> r = stable_sort compare l.
Proof.
  unfold js_sort, stable_sort. intros H.
  destruct (reduce_m (fun sorted x => place comparefn_m x sorted) l [])
    as [sorted|] eqn:E; [|discriminate H].
  simpl in H. injection H as <-. f_equal.
  eapply reduce_m_inv; [|exact E].
  intros acc x r' _. apply place_inv.
Qed.

Lemma js_sort_Ok (l : list X) :
  Forall P l -> js_sort comparefn_m l = Ok (stable_sort compare l).
Proof.
  unfold js_sort, stable_sort. intros Hl.
  enough (H : forall acc,
             Forall P acc ->
             reduce_m (fun sorted x => place comparefn_m x sorted) l acc
             = Ok (fold_left (fun sorted x => stable_place compare x sorted)
                     l acc)) by now rewrite H.
  induction Hl as [|x l Hx Hl IH]; intros acc Hacc; simpl; [reflexivity|].
  rewrite place_Ok by assumption. simpl.
  apply IH. now apply stable_place_Forall.
Qed.

End SortReads.

(** ** The operations on a loaded store *)

Section OperationFacts.

Variable localeCompare : str -> str -> Z.
Variable db : Database.

Lemma NoDup_map_eq {X Y : Type} (f : X -> Y) (l : list X) (a b : X) :
  NoDup (map f l) -> In a l -> In b l -> f a = f b -> a = b.
Proof.
  induction l as [|x l IH]; simpl; [easy|].
  intros Hnd Ha Hb E. inversion Hnd as [|? ? Hx Hl]; subst.
  destruct Ha as [->|Ha], Hb as [->|Hb]; auto.
  - exfalso. apply Hx. rewrite E. now apply in_map.
  - exfalso. apply Hx. rewrite <- E. now apply in_map.
Qed.

Lemma existing_In (rows : list Row) (x : ref) :
  In x (existing rows) <-> exists r, In r rows /\ exists_ r = true /\ data r = x.
Proof.
  unfold existing. rewrite in_map_iff. split.
  - intros (r & E & Hr). apply filter_In in Hr as [Hr He]. eauto.
  - intros (r & Hr & He & E). exists r. split; [exact E|].
    apply filter_In. now split.
Qed.

Lemma addressed_heap (first : nat) (rows : list Row) :
  addressed first rows -> heap_ok (existing rows).
Proof.
  intros Haddr a b Ha Hb Hab.
  apply existing_In in Ha as (ra & Hra & _ & <-).
  apply existing_In in Hb as (rb & Hrb & _ & <-).
  unfold same_value in Hab.
  destruct (is_object (val (data ra))).
  - apply andb_true_iff in Hab as [_ Hab]. apply Nat.eqb_eq in Hab.
    assert (E : ra = rb).
    { apply (@NoDup_map_eq _ _ (fun r => addr (data r)) rows);
        try assumption.
      rewrite Haddr. apply seq_NoDup. }
    now rewrite E.
  - now apply prim_eqb_eq.
Qed.

Lemma deleted_selects (query : Query) (rows : list Row) (r : Row) :
  addressed 0 rows -> In r rows -> exists_ r = true ->
  set_has (new_Set (matching db (existing rows) query)) (data r)
  = selects db query (val (data r)).
Proof.
  intros Haddr Hr He. rewrite set_has_new_Set.
  apply find_selects; [eapply addressed_heap; eassumption|].
  apply existing_In. eauto.
Qed.

Lemma delete_spec (fs : FileSystem) (query : Query) (rows : list Row)
    (matched : list ref) :
  _load db fs = Ok rows ->
  _find db (existing rows) query = Ok matched ->
  delete db query fs =
  Ok (writeFile fs (filename db) (serialize (map (retire db query) rows))).
Proof.
  intros Hload Hfind. destruct (load_rows _ _ Hload) as (_ & Haddr & _).
  unfold delete. rewrite Hload. cbn [bind]. rewrite Hfind. cbn [bind].
  apply find_inv in Hfind. subst matched. do 3 f_equal.
  apply map_ext_in. intros r Hr. unfold retire.
  destruct (exists_ r) eqn:He; [|reflexivity].
  now rewrite deleted_selects.
Qed.

Lemma delete_inv (fs fs' : FileSystem) (query : Query) (rows : list Row) :
  _load db fs = Ok rows -> delete db query fs = Ok fs' ->
  exists matched,
    _find db (existing rows) query = Ok matched /\
    fs' = writeFile fs (filename db) (serialize (map (retire db query) rows)).
Proof.
  intros Hload Hdel.
  destruct (_find db (existing rows) query) as [matched|e] eqn:Hfind.
  - exists matched. split; [reflexivity|].
    rewrite (@delete_spec fs query rows matched Hload Hfind) in Hdel. congruence.
  - unfold delete in Hdel. rewrite Hload in Hdel. cbn [bind] in Hdel.
    rewrite Hfind in Hdel. discriminate Hdel.
Qed.

Lemma retire_rows (query : Query) (rows : list Row) (first : nat) :
  rows <> [] -> addressed first rows -> rows_wf rows ->
  map (retire db query) rows <> [] /\
  addressed first (map (retire db query) rows) /\
  rows_wf (map (retire db query) rows).
Proof.
  intros Hne Haddr Hwf. repeat split.
  - now destruct rows.
  - unfold addressed in *. now rewrite map_map, length_map.
  - unfold rows_wf in *. now apply Forall_map.
Qed.

(** What a completed [delete] leaves in the file. *)
Theorem delete_load (fs fs' : FileSystem) (query : Query)
    (rows : list Row) :
  _load db fs = Ok rows -> delete db query fs = Ok fs' ->
  fs' (filename db) = Some (serialize (map (retire db query) rows)) /\
  _load db fs' = Ok (map (retire db query) rows).
Proof.
  intros Hload Hdel.
  destruct (@delete_inv fs fs' query rows Hload Hdel) as (matched & _ & ->).
  destruct (load_rows _ _ Hload) as (Hne & Haddr & Hwf).
  destruct (@retire_rows query rows 0 Hne Haddr Hwf)
    as (Hne' & Haddr' & Hwf').
  split; [apply read_write|].
  apply load_serialize; try assumption. apply read_write.
Qed.

(** [delete] completes when the live records can be read. *)
Lemma delete_Ok (fs : FileSystem) (query : Query) (rows : list Row) :
  _load db fs = Ok rows -> readable (existing rows) ->
  exists fs', delete db query fs = Ok fs'.
Proof.
  intros Hload Hread. eexists.
  apply (@delete_spec fs query rows _ Hload (@find_Ok db _ query Hread)).
Qed.

Lemma insert_stores (fs : FileSystem) (rows : list Row) (record : json) :
  stores db fs rows -> wf record ->
  stores db (insert db record fs) (rows ++ [new_row rows record]) /\
  insert db record fs (filename db)
  = Some (serialize (rows ++ [new_row rows record])).
Proof.
  intros (Haddr & Hwf & Hfs) Hrec.
  assert (E : insert db record fs (filename db)
              = Some (serialize (rows ++ [new_row rows record]))).
  { unfold insert, appendFile. rewrite serialize_app.
    destruct (fs (filename db)) as [contents|]; rewrite read_write; subst.
    - do 2 f_equal. unfold serialize, concat_str. simpl.
      now rewrite app_nil_r.
    - unfold serialize, concat_str. simpl. now rewrite app_nil_r. }
  split; [|exact E]. repeat split.
  - unfold addressed in *. rewrite map_app, length_app, Haddr. simpl.
    now rewrite Nat.add_1_r, seq_S.
  - apply Forall_app. split; [exact Hwf|]. now repeat constructor.
  - now rewrite E.
Qed.

Lemma stores_load (fs : FileSystem) (rows : list Row) :
  stores db fs rows -> rows <> [] -> _load db fs = Ok rows.
Proof.
  intros (Haddr & Hwf & Hfs) Hne.
  destruct (fs (filename db)) as [contents|] eqn:E; [|contradiction].
  subst. now apply load_serialize.
Qed.

Lemma filter_true {X : Type} (l : list X) : filter (fun _ => true) l = l.
Proof. induction l; simpl; congruence. Qed.

Lemma delete_loads (fs fs' : FileSystem) (query : Query) :
  delete db query fs = Ok fs' -> exists rows, _load db fs = Ok rows.
Proof.
  unfold delete. destruct (_load db fs) as [rows|]; [eauto|discriminate].
Qed.

Lemma stores_nil_fails (fs : FileSystem) :
  stores db fs [] -> forall rows, _load db fs <> Ok rows.
Proof.
  intros (_ & _ & Hfs) rows. unfold _load, readFile.
  destruct (fs (filename db)) as [contents|]; [|discriminate].
  subst. discriminate.
Qed.

(** The file format is an invariant of the store: every file system it
    reaches holds serialized rows (or no file yet). *)
Theorem reachable_stores (fs : FileSystem) :
  reachable db fs -> exists rows, stores db fs rows.
Proof.
  induction 1 as [fs Hfs|fs Hfs|fs record _ (rows & Hst) Hrec
                 |fs fs' query _ (rows & Hst) Hdel].
  - exists []. repeat split; [constructor|]. now rewrite Hfs.
  - exists []. repeat split; [constructor|]. now rewrite Hfs.
  - exists (rows ++ [new_row rows record]).
    now apply insert_stores.
  - destruct (@delete_loads fs fs' query Hdel) as (rows0 & Hload).
    assert (Hne : rows <> []).
    { intros ->. now apply (stores_nil_fails Hst) in Hload. }
    rewrite (stores_load Hst Hne) in Hload. injection Hload as <-.
    pose proof (stores_load Hst Hne) as Hload.
    destruct (@delete_load fs fs' query rows Hload Hdel) as (Hfile & _).
    destruct Hst as (Haddr & Hwf & _).
    destruct (@retire_rows query rows 0 Hne Haddr Hwf) as (_ & Ha & Hw).
    exists (map (retire db query) rows).
    repeat split; try assumption. now rewrite Hfile.
Qed.

Lemma filter_m_true {X : Type} (l : list X) :
  filter_m (fun _ => Ok true) l = Ok l.
Proof. induction l as [|x l IH]; simpl; [reflexivity|]. now rewrite IH. Qed.

(** The match-all query reads no property. *)
Lemma find_everything (records : list ref) :
  _find db records (SimpleQuery []) = Ok records.
Proof. apply filter_m_true. Qed.

Lemma shape_Ok (options : option Options) (result : list ref) :
  readable result ->
  match optional projection options with
  | Some keys => map_m (project keys) result
  | None => Ok (map Whole result)
  end = Ok (map (shape options) result).
Proof.
  intros Hread. unfold shape.
  destruct (optional projection options) as [keys|]; [|reflexivity].
  apply map_m_Ok. intros x Hx. apply project_Ok.
  unfold readable in Hread. rewrite Forall_forall in Hread. auto.
Qed.

Lemma shape_inv (options : option Options) (result : list ref)
    (found : list Found) :
  match optional projection options with
  | Some keys => map_m (project keys) result
  | None => Ok (map Whole result)
  end = Ok found ->
  found = map (shape options) result.
Proof.
  unfold shape.
  destruct (optional projection options) as [keys|];
    [|now intros [= <-]].
  apply map_m_inv. intros x y _. apply project_inv.
Qed.

(** Whenever [find] returns, it returns the shapes of the matching
    records, in matching order unless a sort is asked for. *)
Lemma find_spec (fs : FileSystem) (query : Query) (options : option Options)
    (rows : list Row) (found : list Found) :
  _load db fs = Ok rows ->
  find localeCompare db fs query options = Ok found ->
  exists result,
    found = map (shape options) result
    /\ (forall x, In x result <-> In x (matching db (existing rows) query))
    /\ (optional sort options = None ->
        result = matching db (existing rows) query).
Proof.
  intros Hload. unfold find. rewrite Hload. cbn [bind].
  destruct (_find db (existing rows) query) as [matched|] eqn:Hfind;
    [cbn [bind]|discriminate].
  apply find_inv in Hfind. subst matched.
  destruct (optional sort options) as [keys|] eqn:Es.
  - destruct (js_sort (comparefn localeCompare keys)
                (matching db (existing rows) query)) as [sorted|] eqn:E;
      [cbn [bind]|discriminate].
    apply (@js_sort_inv _ _ (ordering localeCompare keys)) in E;
      [|intros a b c; apply comparefn_inv].
    intros H. apply shape_inv in H. exists sorted.
    split; [exact H|]. split; [|discriminate].
    intros x. rewrite E. apply stable_sort_In.
  - cbn [bind]. intros H. apply shape_inv in H.
    exists (matching db (existing rows) query). now repeat split.
Qed.

(** [find] returns when the live records can be read. *)
Lemma find_succeeds (fs : FileSystem) (query : Query)
    (options : option Options) (rows : list Row) :
  _load db fs = Ok rows -> readable (existing rows) ->
  exists found, find localeCompare db fs query options = Ok found.
Proof.
  intros Hload Hread. unfold find. rewrite Hload. cbn [bind].
  rewrite (@find_Ok db _ query Hread). cbn [bind].
  assert (Hm : readable (matching db (existing rows) query))
    by now apply find_Forall.
  destruct (optional sort options) as [keys|].
  - rewrite (@js_sort_Ok _ _ (ordering localeCompare keys)
               (fun x => val x <> JNull));
      [|intros a b; apply comparefn_Ok | exact Hm].
    cbn [bind]. eexists. apply shape_Ok.
    apply Forall_forall. intros x Hx. apply stable_sort_In in Hx.
    unfold readable in Hm. rewrite Forall_forall in Hm. auto.
  - cbn [bind]. eexists. now apply shape_Ok.
Qed.

End OperationFacts.

(** * The properties of the specification *)

Section Rewrites.

Variable db : Database.

Lemma load_lines_total (lines : list str) (first : nat) :
  Forall (fun l => JSON_parse (slice1 l) <> None) lines ->
  exists rows, load_lines first lines = Ok rows.
Proof.
  intros Hall. destruct (load_lines first lines) as [rows|e] eqn:E;
    [eauto|].
  apply load_lines_Err in E as [_ E]. apply Exists_exists in E.
  destruct E as (l & Hl & Hnone). rewrite Forall_forall in Hall.
  now apply Hall in Hl.
Qed.

(** C2, as the code has it.  [_load] fails, with the parser's
    [SyntaxError], exactly when the payload of some line (the line
    without its first character) does not decode.  The first character is
    not checked: when every payload decodes the load succeeds, and each
    line gives one row that is live if the line starts with [E] and dead
    otherwise, whatever character it starts with. *)
Theorem load_checks_payload_only (fs : FileSystem) (contents : str) :
  fs (filename db) = Some contents ->
  (_load db fs = Err SyntaxError <->
   Exists (fun l => JSON_parse (slice1 l) = None)
     (split newline (trim contents)))
  /\
  (Forall (fun l => JSON_parse (slice1 l) <> None)
     (split newline (trim contents)) ->
   exists rows,
     _load db fs = Ok rows /\
     Forall2 (fun l r => exists_ r = startsWith (lit "E") l /\
                         JSON_parse (slice1 l) = Some (val (data r)))
       (split newline (trim contents)) rows).
Proof.
  intros Hfs. unfold _load, readFile. rewrite Hfs. cbn [bind]. split.
  - rewrite load_lines_Err. tauto.
  - intros Hall. destruct (load_lines_total 0 Hall) as (rows & Hrows).
    exists rows. split; [exact Hrows|].
    now destruct (load_lines_spec _ _ Hrows).
Qed.

Lemma retire_flag (query : Query) (rows : list Row) (r : Row) :
  addressed 0 rows -> In r rows ->
  exists_ (retire db query r)
  = exists_ r && negb (set_has (matching db (existing rows) query) (data r)).
Proof.
  intros Haddr Hr. unfold retire. cbn [exists_].
  destruct (exists_ r) eqn:He; [|reflexivity].
  rewrite <- (@deleted_selects db query rows r Haddr Hr He).
  now rewrite set_has_new_Set.
Qed.

Lemma retire_dead (query : Query) (r : Row) :
  exists_ r = false -> retire db query r = r.
Proof. destruct r as [e d]. simpl. intros ->. reflexivity. Qed.

(** C6.  [delete] never reorders and never truncates.  When
    [delete(query)] completes on a file that loads to [rows], the file it
    wrote loads again to the same number of rows, with the same records at
    the same positions; the flag of a row is cleared exactly when the row
    was live and its record is in the set the query matched, and is
    unchanged otherwise. *)
Theorem delete_rewrites_in_place (fs fs' : FileSystem) (query : Query)
    (rows : list Row) :
  _load db fs = Ok rows -> delete db query fs = Ok fs' ->
  exists matched rows',
    _find db (existing rows) query = Ok matched /\
    fs' (filename db) = Some (serialize rows') /\
    _load db fs' = Ok rows' /\
    length rows' = length rows /\
    map data rows' = map data rows /\
    forall i r,
      nth_error rows i = Some r ->
      exists r',
        nth_error rows' i = Some r' /\ data r' = data r /\
        exists_ r' = exists_ r && negb (set_has matched (data r)).
Proof.
  intros Hload Hdel.
  destruct (@delete_inv db fs fs' query rows Hload Hdel)
    as (matched & Hfind & _).
  destruct (@delete_load db fs fs' query rows Hload Hdel) as (Hfile & Hload').
  destruct (@load_rows db fs rows Hload) as (_ & Haddr & _).
  exists matched, (map (retire db query) rows).
  repeat split; try assumption.
  - apply length_map.
  - rewrite map_map. reflexivity.
  - intros i r Hi. exists (retire db query r).
    rewrite nth_error_map, Hi. repeat split.
    rewrite (@find_inv db _ query matched Hfind).
    apply retire_flag; [exact Haddr|]. eapply nth_error_In; eassumption.
Qed.

(** C10.  Tombstones are monotone.  A completed [delete] rewrites every
    dead row as the same dead row at the same position, and [insert] on a
    store written by the store itself leaves every earlier row, dead or
    live, as it was; [find] writes nothing.  No operation revives a
    row. *)
Theorem tombstones_are_monotone (fs : FileSystem) (rows : list Row) :
  (_load db fs = Ok rows ->
   forall query fs',
     delete db query fs = Ok fs' ->
     exists rows',
       _load db fs' = Ok rows' /\
       forall i r,
         nth_error rows i = Some r -> exists_ r = false ->
         nth_error rows' i = Some r)
  /\
  (stores db fs rows ->
   forall record, wf record ->
   exists rows',
     _load db (insert db record fs) = Ok rows' /\
     forall i r, nth_error rows i = Some r -> nth_error rows' i = Some r).
Proof.
  split.
  - intros Hload query fs' Hdel.
    destruct (@delete_load db fs fs' query rows Hload Hdel) as (_ & Hload').
    exists (map (retire db query) rows). split; [exact Hload'|].
    intros i r Hi Hdead. rewrite nth_error_map, Hi. simpl.
    now rewrite retire_dead.
  - intros Hst record Hrec.
    destruct (@insert_stores db fs rows record Hst Hrec) as (Hst' & _).
    exists (rows ++ [new_row rows record]). split.
    + apply stores_load; [exact Hst' | now destruct rows].
    + intros i r Hi. rewrite nth_error_app1; [exact Hi|].
      apply nth_error_Some. congruence.
Qed.

Lemma existing_app (rows rows' : list Row) :
  existing (rows ++ rows') = existing rows ++ existing rows'.
Proof. unfold existing. now rewrite filter_app, map_app. Qed.

End Rewrites.

Section Queries.

Variable localeCompare : str -> str -> Z.
Variable db : Database.

Lemma find_plain (fs : FileSystem) (query : Query) (rows : list Row)
    (found : list Found) :
  _load db fs = Ok rows ->
  find localeCompare db fs query None = Ok found ->
  _find db (existing rows) query = Ok (matching db (existing rows) query) /\
  found = map Whole (matching db (existing rows) query).
Proof.
  intros Hload. unfold find. rewrite Hload. cbn [bind optional].
  destruct (_find db (existing rows) query) as [l|] eqn:E;
    [cbn [bind]|discriminate].
  apply find_inv in E. subst l. now intros [= <-].
Qed.

(** C7.  Comparison clauses of a field query.  On a loaded store whose
    live records can be read (none is [null]), a query
    [{key: {$lt: n}}] returns exactly the live records whose field [key]
    is a number strictly below [n], and [{key: {$gt: n}}] those whose
    field is a number strictly above [n], in file order.  A field equal
    to [n] matches neither clause, and a field that is not a number (or
    is missing) does not match: the clause is false, no error is
    raised. *)
Theorem comparison_clauses (fs : FileSystem) (rows : list Row) (key : str)
    (n : Z) :
  _load db fs = Ok rows -> readable (existing rows) ->
  find localeCompare db fs (SimpleQuery [(key, LTQuery n)]) None
  = Ok (map Whole
          (filter (fun x => match get_field (val x) key with
                            | Some (JNum v) => (v <? n)%Z
                            | _ => false
                            end) (existing rows)))
  /\ find localeCompare db fs (SimpleQuery [(key, GTQuery n)]) None
     = Ok (map Whole
             (filter (fun x => match get_field (val x) key with
                               | Some (JNum v) => (n <? v)%Z
                               | _ => false
                               end) (existing rows)))
  /\ (forall value,
        test_clause (LTQuery n) value = true <->
        exists v, value = Some (JNum v) /\ (v < n)%Z)
  /\ (forall value,
        test_clause (GTQuery n) value = true <->
        exists v, value = Some (JNum v) /\ (v > n)%Z)
  /\ test_clause (LTQuery n) (Some (JNum n)) = false
  /\ test_clause (GTQuery n) (Some (JNum n)) = false.
Proof.
  intros Hload Hread. unfold find. rewrite Hload. cbn [bind optional].
  rewrite !(@find_Ok db _ _ Hread). cbn [bind matching].
  repeat split.
  - do 2 f_equal. apply filter_ext. intros x.
    unfold fields_select. cbn [forallb fst snd test_clause].
    rewrite andb_true_r.
    destruct (get_field (val x) key) as [[]|]; try reflexivity.
    apply Z.gtb_ltb.
  - do 2 f_equal. apply filter_ext. intros x.
    unfold fields_select. cbn [forallb fst snd test_clause].
    rewrite andb_true_r.
    destruct (get_field (val x) key) as [[]|]; reflexivity.
  - destruct value as [[]|]; simpl; try discriminate.
    rewrite Z.gtb_ltb. intros H. apply Z.ltb_lt in H. eauto.
  - intros (v & -> & Hv). simpl. rewrite Z.gtb_ltb. now apply Z.ltb_lt.
  - destruct value as [[]|]; simpl; try discriminate.
    intros H. apply Z.ltb_lt in H. eexists. split; [reflexivity | lia].
  - intros (v & -> & Hv). simpl. apply Z.ltb_lt. lia.
  - simpl. rewrite Z.gtb_ltb. apply Z.ltb_irrefl.
  - simpl. apply Z.ltb_irrefl.
Qed.

(** C5.  Set algebra of the combinators.  Over one loaded store on which
    [find(q1)] and [find(q2)] return, [find({$and: [q1, q2]})] returns
    records of [find(q2)] that are members of [find(q1)], so it lies in
    the intersection; [find({$or: [q1, q2]})] is the concatenation of
    [find(q1)] and [find(q2)] with only the first occurrence of every
    record kept: it has the same members as the union and no record
    twice.  The empty [$and] and the empty [$or] both return the empty
    result. *)
Theorem combinators_set_algebra (fs : FileSystem) (rows : list Row)
    (q1 q2 : Query) (found1 found2 : list Found) :
  _load db fs = Ok rows ->
  find localeCompare db fs q1 None = Ok found1 ->
  find localeCompare db fs q2 None = Ok found2 ->
  exists A B C U,
    found1 = map Whole A /\ found2 = map Whole B /\
    find localeCompare db fs (AndQuery [q1; q2]) None = Ok (map Whole C) /\
    find localeCompare db fs (OrQuery [q1; q2]) None = Ok (map Whole U) /\
    (forall x, In x C -> set_has A x = true /\ In x B) /\
    U = first_occurrences [] (A ++ B) /\
    (forall x, set_has U x = set_has A x || set_has B x) /\
    distinct U /\
    find localeCompare db fs (AndQuery []) None = Ok [] /\
    find localeCompare db fs (OrQuery []) None = Ok [].
Proof.
  intros Hload H1 H2.
  destruct (@find_plain fs q1 rows found1 Hload H1) as (E1 & ->).
  destruct (@find_plain fs q2 rows found2 Hload H2) as (E2 & ->).
  set (A := matching db (existing rows) q1) in *.
  set (B := matching db (existing rows) q2) in *.
  exists A, B, (intersect2 A B), (new_Set (A ++ B)).
  unfold find. rewrite Hload. cbn [bind optional _find map_m].
  rewrite E1, E2. cbn [bind].
  assert (HU : union [A; B] = new_Set (A ++ B)).
  { rewrite union_eq. simpl. now rewrite app_nil_r. }
  rewrite HU.
  repeat split; try reflexivity.
  - apply intersect2_In in H. tauto.
  - apply intersect2_In in H. tauto.
  - apply new_Set_first_occurrences.
  - intros x. now rewrite set_has_new_Set, set_has_app.
  - apply new_Set_distinct.
Qed.

(** C9.  A file that is empty or holds only white space cannot be
    queried: [find] and [delete] both fail with the parser's error, since
    the trimmed contents split into one empty line whose payload does not
    decode. *)
Theorem blank_file_fails (fs : FileSystem) (contents : str) (query : Query)
    (options : option Options) :
  fs (filename db) = Some contents ->
  forallb is_space contents = true ->
  split newline (trim contents) = [[]] /\
  JSON_parse (slice1 []) = None /\
  find localeCompare db fs query options = Err SyntaxError /\
  delete db query fs = Err SyntaxError.
Proof.
  intros Hfs Hblank.
  assert (Hload : _load db fs = Err SyntaxError).
  { unfold _load, readFile. rewrite Hfs. cbn [bind].
    now rewrite trim_spaces. }
  rewrite trim_spaces by assumption.
  unfold find, delete. rewrite Hload. now repeat split.
Qed.

(** C4.  Tombstone exclusion.  If [delete(q)] finds the record of a live
    row among its matches, it completes and the row is still in the
    rewritten file, at the same position and with the same record, but
    dead; and every later [find], whatever its query and options, returns
    only (shapes of) live records whose contents differ from that
    record's.  Such a [find] does return whenever the live records can be
    read. *)
Theorem tombstone_exclusion (fs : FileSystem) (q : Query) (rows : list Row)
    (i : nat) (r : Row) (matched : list ref) :
  _load db fs = Ok rows ->
  nth_error rows i = Some r -> exists_ r = true ->
  _find db (existing rows) q = Ok matched ->
  set_has matched (data r) = true ->
  exists fs' rows',
    delete db q fs = Ok fs' /\ _load db fs' = Ok rows' /\
    nth_error rows' i = Some {| exists_ := false; data := data r |} /\
    (forall q' options found,
       find localeCompare db fs' q' options = Ok found ->
       exists result,
         found = map (shape options) result /\
         forall x, In x result ->
                   In x (existing rows') /\
                   x <> data r /\ val x <> val (data r)) /\
    (readable (existing rows') ->
     forall q' options,
     exists found, find localeCompare db fs' q' options = Ok found).
Proof.
  intros Hload Hi Hlive Hfind Hmatch.
  pose proof (@delete_spec db fs q rows matched Hload Hfind) as Hdel.
  destruct (@delete_load db fs _ q rows Hload Hdel) as (_ & Hload').
  destruct (@load_rows db fs rows Hload) as (_ & Haddr & _).
  assert (Hr : In r rows) by (eapply nth_error_In; eassumption).
  assert (Hsel : selects db q (val (data r)) = true).
  { rewrite <- (@deleted_selects db q rows r Haddr Hr Hlive).
    rewrite set_has_new_Set.
    now rewrite <- (@find_inv db _ q matched Hfind). }
  eexists _, (map (retire db q) rows).
  split; [exact Hdel|]. split; [exact Hload'|]. split; [|split].
  - rewrite nth_error_map, Hi. simpl. unfold retire.
    now rewrite Hsel, Hlive.
  - intros q' options found Hfound.
    destruct (@find_spec localeCompare db _ q' options _ found Hload' Hfound)
      as (result & Hres & Hin & _).
    exists result. split; [exact Hres|].
    intros x Hx. apply Hin, find_incl in Hx.
    assert (Hval : val x <> val (data r)).
    { apply existing_In in Hx as (r' & Hr' & He' & <-).
      apply in_map_iff in Hr' as (r0 & <- & Hr0).
      unfold retire in He'. cbn [exists_ data] in *.
      apply andb_true_iff in He' as [_ He'].
      intros E. unfold retire in E. cbn [data] in E.
      rewrite E, Hsel in He'. discriminate He'. }
    repeat split; [exact Hx | congruence | exact Hval].
  - intros Hread q' options.
    exact (@find_succeeds localeCompare db _ q' options _ Hload' Hread).
Qed.

(** C3, as the code has it.  On a store written by the store itself,
    [insert(r)] followed by [find({})] returns the records that were
    live before, in order, followed by [r] with its contents intact.  So
    [r] is always included, and it is included exactly once if and only
    if no live record already had the same contents. *)
Theorem insert_then_find_all (fs : FileSystem) (rows : list Row)
    (record : json) :
  stores db fs rows -> wf record ->
  let added := {| addr := length rows; val := record |} in
  let found := map Whole (existing rows ++ [added]) in
  find localeCompare db (insert db record fs) (SimpleQuery []) None
  = Ok found
  /\ (included_once record found <->
      forall x, In x (existing rows) -> val x <> record).
Proof.
  intros Hst Hrec added found.
  destruct (@insert_stores db fs rows record Hst Hrec) as (Hst' & _).
  assert (Hload : _load db (insert db record fs)
                  = Ok (rows ++ [new_row rows record])).
  { apply stores_load; [exact Hst' | now destruct rows]. }
  split.
  - unfold find. rewrite Hload. cbn [bind].
    rewrite find_everything. cbn [bind optional].
    now rewrite existing_app.
  - assert (Hlast : nth_error found (length (existing rows))
                    = Some (Whole added)).
    { unfold found. rewrite map_app, nth_error_app2;
        rewrite length_map; [|lia].
      now rewrite Nat.sub_diag. }
    assert (Hadded : holds_record record (Whole added))
      by now exists (length rows).
    split.
    + intros (k & y & Hk & Hy & Huniq) x Hx Hval.
      apply In_nth_error in Hx as (j & Hj).
      assert (Hj' : nth_error found j = Some (Whole x)).
      { unfold found. rewrite map_app, nth_error_app1.
        - now rewrite nth_error_map, Hj.
        - rewrite length_map. apply nth_error_Some. congruence. }
      assert (Hjk : j = k).
      { apply (Huniq j (Whole x) Hj'). exists (addr x).
        destruct x as [a v]. simpl in Hval. now subst. }
      assert (Hnk : length (existing rows) = k)
        by exact (Huniq _ _ Hlast Hadded).
      assert (Hlt : j < length (existing rows))
        by (apply nth_error_Some; congruence).
      lia.
    + intros Hfresh. exists (length (existing rows)), (Whole added).
      repeat split; try assumption.
      intros j z Hj (a & ->).
      destruct (Nat.lt_ge_cases j (length (existing rows))) as [Hlt|Hge].
      * exfalso. unfold found in Hj.
        rewrite map_app, nth_error_app1 in Hj by now rewrite length_map.
        rewrite nth_error_map in Hj.
        destruct (nth_error (existing rows) j) as [x|] eqn:Ex;
          [|discriminate].
        injection Hj as ->. apply nth_error_In in Ex.
        now apply Hfresh in Ex.
      * assert (Hlen : j < length found)
          by (apply nth_error_Some; congruence).
        unfold found in Hlen.
        rewrite length_map, length_app in Hlen. simpl in Hlen. lia.
Qed.

End Queries.

Section TextQueries.

Variable db : Database.

Lemma has_word_spec (text : str) (value : option json) :
  has_word text value = true <->
  exists s token,
    value = Some (JStr s) /\ In token (split_spaces s) /\
    toLowerCase token = toLowerCase text.
Proof.
  unfold has_word. split.
  - destruct value as [[| | |s| |]|]; try discriminate.
    intros H. apply existsb_exists in H as (w & Hw & Heq).
    apply in_map_iff in Hw as (token & <- & Htoken).
    apply str_eqb_eq in Heq. exists s, token. auto.
  - intros (s & token & -> & Htoken & Heq).
    apply existsb_exists. exists (toLowerCase token).
    split; [now apply in_map|]. now apply str_eqb_eq.
Qed.

Lemma text_selects_spec (text : str) (record : json) :
  text_selects db text record = true <->
  exists key value token,
    In key (fullTextSearchFieldNames db) /\
    get_field record key = Some (JStr value) /\
    In token (split_spaces value) /\
    toLowerCase token = toLowerCase text.
Proof.
  unfold text_selects. rewrite existsb_exists. split.
  - intros (key & Hkey & H).
    apply has_word_spec in H as (s & token & E & Htoken & Heq).
    exists key, s, token. auto.
  - intros (key & value & token & Hkey & E & Htoken & Heq).
    exists key. split; [exact Hkey|]. apply has_word_spec.
    exists value, token. auto.
Qed.

(** C8.  Text queries match whole words, ignoring case.  When the
    matcher returns on [{$text: s}], a record is in the result exactly
    when one of the configured full-text fields holds a string one of
    whose white-space separated pieces equals [s] once both are
    lower-cased.  For a non-empty [s] these pieces are the whole words of
    the string (occurrences bounded by white space or the ends of the
    string), so a text that only occurs inside a longer word does not
    match. *)
Theorem text_query_whole_token (records result : list ref) (text : str)
    (x : ref) :
  _find db records (TextQuery text) = Ok result ->
  (In x result <->
   In x records /\
   exists key value token,
     In key (fullTextSearchFieldNames db) /\
     get_field (val x) key = Some (JStr value) /\
     In token (split_spaces value) /\
     toLowerCase token = toLowerCase text)
  /\
  (text <> [] ->
   (In x result <->
    In x records /\
    exists key value token,
      In key (fullTextSearchFieldNames db) /\
      get_field (val x) key = Some (JStr value) /\
      is_token token value /\
      toLowerCase token = toLowerCase text)
   /\
   ((forall key value token,
       In key (fullTextSearchFieldNames db) ->
       get_field (val x) key = Some (JStr value) ->
       is_token token value ->
       toLowerCase token <> toLowerCase text) ->
    ~ In x result)).
Proof.
  intros Hfind. apply find_inv in Hfind. subst result.
  assert (H1 : In x (matching db records (TextQuery text)) <->
               In x records /\ text_selects db text (val x) = true)
    by (simpl; apply filter_In).
  assert (H2 : text <> [] ->
               (text_selects db text (val x) = true <->
                exists key value token,
                  In key (fullTextSearchFieldNames db) /\
                  get_field (val x) key = Some (JStr value) /\
                  is_token token value /\
                  toLowerCase token = toLowerCase text)).
  { intros Htext. rewrite text_selects_spec.
    assert (Hne : forall token,
               toLowerCase token = toLowerCase text -> token <> []).
    { intros token Heq ->. apply Htext, toLowerCase_nil.
      now rewrite <- Heq. }
    split; intros (key & value & token & Hkey & E & Htoken & Heq);
      exists key, value, token; repeat split; try assumption;
      now apply (split_spaces_tokens value (Hne token Heq)). }
  split; [now rewrite H1, text_selects_spec|].
  intros Htext. split; [now rewrite H1, (H2 Htext)|].
  intros Hnone Hx. apply H1 in Hx as [_ Hx]. apply (H2 Htext) in Hx.
  destruct Hx as (key & value & token & Hkey & E & Htoken & Heq).
  exact (Hnone key value token Hkey E Htoken Heq).
Qed.

End TextQueries.

(** * The properties on concrete stores *)

Ltac by_computation := vm_compute; reflexivity.

(** C1.  Sorting on a numeric key has no tie: for two records with the
    same number under a key the comparator answers the key's direction,
    never [0], so the next key is not consulted and the comparator calls
    both records greater than the other.  With the rows [{a:1,b:2}] and
    [{a:1,b:1}] in the file, sorting by [a] then [b] leaves [b] out of
    order, and sorting by [a] descending swaps the two records although
    they are equal on the only key. *)
Theorem numeric_tie_does_not_fall_through (localeCompare : str -> str -> Z) :
  let x := at_ 0 a1_b2 in
  let y := at_ 1 a1_b1 in
  _load people ties = Ok [live 0 a1_b2; live 1 a1_b1] /\
  comparefn localeCompare by_a_then_b x y = Ok 1%Z /\
  comparefn localeCompare by_a_then_b y x = Ok 1%Z /\
  find localeCompare people ties (SimpleQuery []) (sorted_by by_a_then_b)
  = Ok [Whole x; Whole y] /\
  find localeCompare people ties (SimpleQuery []) (sorted_by by_a_descending)
  = Ok [Whole y; Whole x].
Proof. repeat split; by_computation. Qed.

(** C2, refuted as stated: a line that starts with [X] is not rejected,
    it is loaded as a dead row. *)
Lemma load_accepts_unknown_marker :
  bad_marker (filename people) = Some (js "X{'a':1}") /\
  _load people bad_marker = Ok [dead 0 (JObj [(lit "a", JNum 1)])].
Proof. split; by_computation. Qed.

(** C3, refuted as stated: a record inserted twice is found twice. *)
Lemma insert_twice_found_twice :
  exists found,
    find code_unit_compare people
      (insert people ann (insert people ann no_files)) (SimpleQuery []) None
    = Ok found /\
    found = [Whole (at_ 0 ann); Whole (at_ 1 ann)] /\
    ~ included_once ann found.
Proof.
  eexists. split; [by_computation|]. split; [reflexivity|].
  intros (k & y & _ & _ & Huniq).
  assert (H0 : 0 = k) by (apply (Huniq 0 (Whole (at_ 0 ann)));
                           [reflexivity | now exists 0]).
  assert (H1 : 1 = k) by (apply (Huniq 1 (Whole (at_ 1 ann)));
                           [reflexivity | now exists 1]).
  congruence.
Qed.

Ltac prove_wf :=
  repeat (simpl; first [ exact I | split | constructor ]);
  simpl; intuition discriminate.

Lemma ann_wf : wf ann.
Proof. prove_wf. Defined.

Lemma bob_wf : wf bob.
Proof. prove_wf. Defined.

Lemma ann_bob_rows : _load people ann_bob = Ok [live 0 ann; live 1 bob].
Proof. by_computation. Defined.

Lemma ann_bob_readable : readable (existing [live 0 ann; live 1 bob]).
Proof. repeat constructor; discriminate. Defined.

Lemma ann_stored : stores people (insert people ann no_files) [live 0 ann].
Proof.
  split; [reflexivity|].
  split; [|by_computation].
  apply Forall_cons; [exact ann_wf | apply Forall_nil].
Defined.

(** C7 on Ann (30) and Bob (40). *)
Lemma comparison_clauses_witness :
  _load people ann_bob = Ok [live 0 ann; live 1 bob] /\
  readable (existing [live 0 ann; live 1 bob]) /\
  find code_unit_compare people ann_bob
    (SimpleQuery [(lit "age", LTQuery 35)]) None = Ok [Whole (at_ 0 ann)] /\
  find code_unit_compare people ann_bob
    (SimpleQuery [(lit "age", GTQuery 35)]) None = Ok [Whole (at_ 1 bob)] /\
  find code_unit_compare people ann_bob
    (SimpleQuery [(lit "age", GTQuery 40)]) None = Ok [] /\
  find code_unit_compare people ann_bob
    (SimpleQuery [(lit "name", LTQuery 35)]) None = Ok [].
Proof.
  split; [exact ann_bob_rows|]. split; [exact ann_bob_readable|].
  destruct (@comparison_clauses code_unit_compare people ann_bob _
              (lit "age") 35%Z ann_bob_rows ann_bob_readable)
    as (Hlt & Hgt & _).
  destruct (@comparison_clauses code_unit_compare people ann_bob _
              (lit "age") 40%Z ann_bob_rows ann_bob_readable)
    as (_ & Hgt40 & _).
  destruct (@comparison_clauses code_unit_compare people ann_bob _
              (lit "name") 35%Z ann_bob_rows ann_bob_readable)
    as (Hname & _).
  split; [exact Hlt|]. split; [exact Hgt|].
  split; [exact Hgt40 | exact Hname].
Defined.

(** C5 on the queries [age > 35] and [$text: "curious"]. *)
Lemma combinators_set_algebra_witness :
  _load people ann_bob = Ok [live 0 ann; live 1 bob] /\
  find code_unit_compare people ann_bob
    (SimpleQuery [(lit "age", GTQuery 35)]) None = Ok [Whole (at_ 1 bob)] /\
  find code_unit_compare people ann_bob
    (TextQuery (lit "curious")) None = Ok [Whole (at_ 0 ann)] /\
  exists A B C U,
    [Whole (at_ 1 bob)] = map Whole A /\
    [Whole (at_ 0 ann)] = map Whole B /\
    find code_unit_compare people ann_bob
      (AndQuery [SimpleQuery [(lit "age", GTQuery 35)];
                 TextQuery (lit "curious")]) None = Ok (map Whole C) /\
    find code_unit_compare people ann_bob
      (OrQuery [SimpleQuery [(lit "age", GTQuery 35)];
                TextQuery (lit "curious")]) None = Ok (map Whole U) /\
    (forall x, In x C -> set_has A x = true /\ In x B) /\
    U = first_occurrences [] (A ++ B) /\
    (forall x, set_has U x = set_has A x || set_has B x) /\
    distinct U /\
    find code_unit_compare people ann_bob (AndQuery []) None = Ok [] /\
    find code_unit_compare people ann_bob (OrQuery []) None = Ok [].
Proof.
  assert (H1 : find code_unit_compare people ann_bob
                 (SimpleQuery [(lit "age", GTQuery 35)]) None
               = Ok [Whole (at_ 1 bob)]) by by_computation.
  assert (H2 : find code_unit_compare people ann_bob
                 (TextQuery (lit "curious")) None
               = Ok [Whole (at_ 0 ann)]) by by_computation.
  split; [exact ann_bob_rows|]. split; [exact H1|]. split; [exact H2|].
  exact (@combinators_set_algebra code_unit_compare people ann_bob _
           (SimpleQuery [(lit "age", GTQuery 35)])
           (TextQuery (lit "curious")) _ _ ann_bob_rows H1 H2).
Defined.

(** C9 on a file that holds a space and a line break. *)
Lemma blank_file_fails_witness :
  blank (filename people) = Some [" "%char; newline] /\
  forallb is_space [" "%char; newline] = true /\
  find code_unit_compare people blank (SimpleQuery []) None
  = Err SyntaxError /\
  delete people (SimpleQuery []) blank = Err SyntaxError.
Proof.
  assert (Hfile : blank (filename people) = Some [" "%char; newline])
    by by_computation.
  assert (Hblank : forallb is_space [" "%char; newline] = true)
    by reflexivity.
  destruct (@blank_file_fails code_unit_compare people blank _
              (SimpleQuery []) None Hfile Hblank) as (_ & _ & Hfind & Hdel).
  split; [exact Hfile|]. split; [exact Hblank|].
  split; [exact Hfind | exact Hdel].
Defined.

Lemma delete_ann : delete people (name_is "Ann") ann_bob = Ok ann_gone.
Proof.
  unfold ann_gone.
  exact (@delete_spec people ann_bob (name_is "Ann") _ [at_ 0 ann]
           ann_bob_rows eq_refl).
Defined.

(** C6 on deleting Ann from the store of Ann and Bob. *)
Lemma delete_rewrites_in_place_witness :
  _load people ann_bob = Ok [live 0 ann; live 1 bob] /\
  delete people (name_is "Ann") ann_bob = Ok ann_gone /\
  exists matched rows',
    _find people (existing [live 0 ann; live 1 bob]) (name_is "Ann")
    = Ok matched /\
    ann_gone (filename people) = Some (serialize rows') /\
    _load people ann_gone = Ok rows' /\
    length rows' = 2 /\
    map data rows' = [at_ 0 ann; at_ 1 bob].
Proof.
  split; [exact ann_bob_rows|]. split; [exact delete_ann|].
  destruct (@delete_rewrites_in_place people ann_bob ann_gone
              (name_is "Ann") _ ann_bob_rows delete_ann)
    as (matched & rows' & Hfind & Hfile & Hload & Hlen & Hdata & _).
  exists matched, rows'.
  split; [exact Hfind|]. split; [exact Hfile|]. split; [exact Hload|].
  split; [exact Hlen | exact Hdata].
Defined.

Lemma ann_gone_rows : _load people ann_gone = Ok [dead 0 ann; live 1 bob].
Proof. by_computation. Defined.

Lemma ann_gone_stored : stores people ann_gone [dead 0 ann; live 1 bob].
Proof.
  split; [reflexivity|].
  split; [|by_computation].
  apply Forall_cons; [exact ann_wf|].
  apply Forall_cons; [exact bob_wf | apply Forall_nil].
Defined.

(** C10 on a store with a dead row: deleting Bob keeps Ann dead, and so
    does inserting into the store. *)
Lemma tombstones_are_monotone_witness :
  _load people ann_gone = Ok [dead 0 ann; live 1 bob] /\
  stores people ann_gone [dead 0 ann; live 1 bob] /\
  (exists fs' rows',
     delete people (name_is "Bob") ann_gone = Ok fs' /\
     _load people fs' = Ok rows' /\
     nth_error rows' 0 = Some (dead 0 ann)) /\
  (exists rows',
     _load people (insert people bob ann_gone) = Ok rows' /\
     nth_error rows' 0 = Some (dead 0 ann)).
Proof.
  destruct (@tombstones_are_monotone people ann_gone
              [dead 0 ann; live 1 bob]) as (Hdelete & Hinsert).
  assert (Hread : readable (existing [dead 0 ann; live 1 bob]))
    by (repeat constructor; discriminate).
  destruct (@delete_Ok people ann_gone (name_is "Bob") _
              ann_gone_rows Hread) as (fs' & Hdel).
  destruct (Hdelete ann_gone_rows (name_is "Bob") fs' Hdel)
    as (rows' & Hload' & Hkeep).
  destruct (Hinsert ann_gone_stored bob bob_wf) as (rows'' & Hload'' & Hkeep').
  split; [exact ann_gone_rows|]. split; [exact ann_gone_stored|]. split.
  - exists fs', rows'. split; [exact Hdel|]. split; [exact Hload'|].
    now apply Hkeep.
  - exists rows''. split; [exact Hload''|]. now apply Hkeep'.
Defined.

(** C4 on deleting Ann from the store of Ann and Bob. *)
Lemma tombstone_exclusion_witness :
  _load people ann_bob = Ok [live 0 ann; live 1 bob] /\
  _find people (existing [live 0 ann; live 1 bob]) (name_is "Ann")
  = Ok [at_ 0 ann] /\
  set_has [at_ 0 ann] (at_ 0 ann) = true /\
  exists fs' rows',
    delete people (name_is "Ann") ann_bob = Ok fs' /\
    _load people fs' = Ok rows' /\
    nth_error rows' 0 = Some (dead 0 ann) /\
    (forall q' options found,
       find code_unit_compare people fs' q' options = Ok found ->
       exists result,
         found = map (shape options) result /\
         forall x, In x result ->
                   In x (existing rows') /\ x <> at_ 0 ann /\ val x <> ann) /\
    (readable (existing rows') ->
     forall q' options,
     exists found, find code_unit_compare people fs' q' options = Ok found).
Proof.
  split; [exact ann_bob_rows|]. split; [reflexivity|].
  split; [reflexivity|].
  exact (@tombstone_exclusion code_unit_compare people ann_bob
           (name_is "Ann") [live 0 ann; live 1 bob] 0 (live 0 ann)
           [at_ 0 ann] ann_bob_rows eq_refl eq_refl eq_refl eq_refl).
Defined.

(** C2 on the store with Ann dead and Bob live: both payloads decode,
    the load succeeds. *)
Lemma load_checks_payload_only_witness :
  ann_gone (filename people)
  = Some (serialize [dead 0 ann; live 1 bob]) /\
  ~ Exists (fun l => JSON_parse (slice1 l) = None)
      (split newline (trim (serialize [dead 0 ann; live 1 bob]))) /\
  _load people ann_gone <> Err SyntaxError.
Proof.
  assert (Hfile : ann_gone (filename people)
                  = Some (serialize [dead 0 ann; live 1 bob]))
    by by_computation.
  destruct (@load_checks_payload_only people ann_gone _ Hfile)
    as (Hiff & _).
  assert (Hload : _load people ann_gone <> Err SyntaxError)
    by (vm_compute; discriminate).
  split; [exact Hfile|]. split; [|exact Hload].
  intros H. apply Hload, Hiff, H.
Defined.

(** C3 on inserting Bob into the store that holds Ann. *)
Lemma insert_then_find_all_witness :
  stores people (insert people ann no_files) [live 0 ann] /\
  wf bob /\
  find code_unit_compare people ann_bob (SimpleQuery []) None
  = Ok [Whole (at_ 0 ann); Whole (at_ 1 bob)] /\
  included_once bob [Whole (at_ 0 ann); Whole (at_ 1 bob)].
Proof.
  destruct (@insert_then_find_all code_unit_compare people
              (insert people ann no_files) [live 0 ann] bob
              ann_stored bob_wf) as (Hfind & Honce).
  split; [exact ann_stored|]. split; [exact bob_wf|].
  split; [exact Hfind|].
  apply Honce. intros x [<-|[]]. vm_compute. discriminate.
Defined.

(** C8 on the biographies "Fast and curious" and "slow  but steady". *)
Lemma text_query_whole_token_witness :
  _find people [at_ 0 ann; at_ 1 bob] (TextQuery (lit "fast"))
  = Ok [at_ 0 ann] /\
  (In (at_ 1 bob) [at_ 0 ann] <->
   In (at_ 1 bob) [at_ 0 ann; at_ 1 bob] /\
   exists key value token,
     In key (fullTextSearchFieldNames people) /\
     get_field bob key = Some (JStr value) /\
     is_token token value /\
     toLowerCase token = toLowerCase (lit "fast")).
Proof.
  assert (Hfind : _find people [at_ 0 ann; at_ 1 bob] (TextQuery (lit "fast"))
                  = Ok [at_ 0 ann]) by reflexivity.
  split; [exact Hfind|].
  destruct (@text_query_whole_token people [at_ 0 ann; at_ 1 bob]
              [at_ 0 ann] (lit "fast") (at_ 1 bob) Hfind) as (_ & Hword).
  destruct (Hword ltac:(discriminate)) as (Hiff & _).
  exact Hiff.
Defined.

Lemma text_query_examples :
  find code_unit_compare people ann_bob (TextQuery (lit "fast")) None
  = Ok [Whole (at_ 0 ann)] /\
  find code_unit_compare people ann_bob (TextQuery (lit "fas")) None
  = Ok [] /\
  find code_unit_compare people ann_bob (TextQuery (lit "STEADY")) None
  = Ok [Whole (at_ 1 bob)] /\
  find code_unit_compare people ann_bob (TextQuery (lit "")) None = Ok [].
Proof. repeat split; by_computation. Qed.

(** A record that is [null] makes every query that reads a field fail,
    and leaves the match-all query alone; the length of an array is a
    field like any other. *)
Lemma reads_on_other_values :
  let file := writeFile no_files (filename people) (js "Enull") in
  find code_unit_compare people file (SimpleQuery []) None
  = Ok [Whole (at_ 0 JNull)] /\
  find code_unit_compare people file (name_is "Ann") None = Err TypeError /\
  delete people (name_is "Ann") file = Err TypeError /\
  find code_unit_compare people
    (writeFile no_files (filename people) (js "E[7,8]"))
    (SimpleQuery [(lit "length", GTQuery 1)]) None
  = Ok [Whole (at_ 0 (JArr [JNum 7; JNum 8]))].
Proof. repeat split; by_computation. Qed.

(** The scenario of the specification: Ann and Bob, a query on the age,
    then Ann deleted. *)
Lemma scenario :
  find code_unit_compare people ann_bob
    (SimpleQuery [(lit "age", GTQuery 35)]) None = Ok [Whole (at_ 1 bob)] /\
  delete people (name_is "Ann") ann_bob = Ok ann_gone /\
  find code_unit_compare people ann_gone (SimpleQuery []) None
  = Ok [Whole (at_ 1 bob)].
Proof.
  split; [by_computation|]. split; [exact delete_ann | by_computation].
Qed.

(** * Further properties of the code *)

(** ** The set helpers *)

Section SetAlgebra.

Lemma subseq_refl {A : Type} (l : list A) : subseq l l.
Proof. induction l as [|x l IH]; constructor; exact IH. Qed.

Lemma subseq_filter {A : Type} (f : A -> bool) (l : list A) :
  subseq (filter f l) l.
Proof.
  induction l as [|x l IH]; simpl; [constructor|].
  destruct (f x); now constructor.
Qed.

Lemma subseq_trans {A : Type} (a b c : list A) :
  subseq a b -> subseq b c -> subseq a c.
Proof.
  intros Hab Hbc. revert a Hab.
  induction Hbc as [s|x l s _ IH|x l s _ IH]; intros a Hab.
  - inversion Hab. constructor.
  - apply subseq_skip. now apply IH.
  - inversion Hab; subst.
    + constructor.
    + apply subseq_skip. now apply IH.
    + apply subseq_take. now apply IH.
Qed.

Lemma last_default {A : Type} (l : list A) (x d d' : A) :
  last (x :: l) d = last (x :: l) d'.
Proof.
  revert x. induction l as [|y l IH]; intros x; [reflexivity|].
  change (last (y :: l) d = last (y :: l) d'). apply IH.
Qed.

Lemma fold_intersect2_last (rest : list (list ref)) (first : list ref) :
  subseq (fold_left (fun p n => intersect2 p n) rest first) (last rest first).
Proof.
  revert first. induction rest as [|n rest IH]; intros first.
  - apply subseq_refl.
  - cbn [fold_left]. eapply subseq_trans; [apply IH|].
    destruct rest as [|m rest].
    + apply subseq_filter.
    + change (last (n :: m :: rest) first) with (last (m :: rest) first).
      rewrite (last_default rest m (intersect2 first n) first).
      apply subseq_refl.
Qed.


Lemma first_occurrences_id (l seen : list ref) :
  distinct l -> (forall x, In x l -> set_has seen x = false) ->
  first_occurrences seen l = l.
Proof.
  intros Hd. revert seen.
  induction Hd as [|x l Hx _ IH]; intros seen Hseen; [reflexivity|].
  cbn [first_occurrences]. rewrite (Hseen x (or_introl eq_refl)).
  f_equal. apply IH. intros y Hy. rewrite set_has_app.
  rewrite (Hseen y (or_intror Hy)). cbn [orb set_has existsb].
  rewrite Forall_forall in Hx. rewrite same_value_sym, (Hx y Hy).
  reflexivity.
Qed.

(** X2.  [union] holds a value exactly when some array holds it, holds
    none twice, lists the values in the order of their first occurrence in
    the arrays laid end to end, and changes nothing when applied again. *)
Theorem union_collects_once (arrs : list (list ref)) :
  (forall x, set_has (union arrs) x = existsb (fun l => set_has l x) arrs) /\
  distinct (union arrs) /\
  union arrs = first_occurrences [] (concat arrs) /\
  union [union arrs] = union arrs.
Proof.
  rewrite union_eq. repeat split.
  - intros x. rewrite set_has_new_Set. apply set_has_concat.
  - apply new_Set_distinct.
  - apply new_Set_first_occurrences.
  - rewrite union_eq. cbn [concat]. rewrite app_nil_r.
    rewrite (new_Set_first_occurrences (new_Set (concat arrs))).
    apply first_occurrences_id; [apply new_Set_distinct|reflexivity].
Qed.

Lemma distinct_NoDup (l : list ref) : distinct l -> NoDup l.
Proof.
  induction 1 as [|x l Hx _ IH]; constructor; [|exact IH].
  intros Hin. rewrite Forall_forall in Hx.
  specialize (Hx x Hin). now rewrite same_value_refl in Hx.
Qed.

Lemma fold_intersect2_NoDup (rest : list (list ref)) (first : list ref) :
  NoDup first -> Forall (@NoDup ref) rest ->
  NoDup (fold_left (fun p n => intersect2 p n) rest first).
Proof.
  intros Hf Hr. revert first Hf.
  induction Hr as [|n rest Hn _ IH]; intros first Hf; [exact Hf|].
  cbn [fold_left]. apply IH. now apply NoDup_filter.
Qed.

End SetAlgebra.

(** ** The matcher *)

Section Matcher.

Variable db : Database.

(** X3.  [_find] decides by the contents of a record. Whenever it returns,
    the result holds records of the input only, and a record of the input
    is in the result (as [Set] decides it) exactly when its contents
    satisfy the query read as a formula: a field query when every clause
    holds, [$and] when the list is not empty and every branch holds, [$or]
    when some branch holds. *)
Theorem matcher_decides_by_contents (records result : list ref)
    (query : Query) :
  heap_ok records -> _find db records query = Ok result ->
  incl result records /\
  forall x, In x records -> set_has result x = selects db query (val x).
Proof.
  intros Hheap Hfind. apply find_inv in Hfind. subst result. split.
  - intros x. apply find_incl.
  - intros x Hx. now apply find_selects.
Qed.

Lemma last_map {A B : Type} (f : A -> B) (l : list A) (d : A) :
  last (map f l) (f d) = f (last l d).
Proof.
  induction l as [|x l IH]; [reflexivity|].
  destruct l as [|y l]; [reflexivity|]. exact IH.
Qed.

Lemma last_In {A : Type} (l : list A) (d : A) : In (last l d) (d :: l).
Proof.
  induction l as [|x l IH]; [now left|].
  destruct l as [|y l]; [right; now left|].
  destruct IH as [IH|IH]; [left; exact IH | right; right; exact IH].
Qed.

Lemma matching_or_free (records : list ref) (query : Query) :
  or_free query = true -> subseq (matching db records query) records.
Proof.
  induction query as [text|queries IH|queries _|fields] using Query_ind;
    intros Hfree.
  - apply subseq_filter.
  - cbn [matching]. destruct queries as [|q queries]; [constructor|].
    cbn [map intersect]. eapply subseq_trans; [apply fold_intersect2_last|].
    rewrite (last_map (matching db records)).
    cbn [or_free] in Hfree. rewrite forallb_forall in Hfree.
    rewrite Forall_forall in IH.
    pose proof (last_In queries q) as Hin.
    apply IH; [exact Hin | now apply Hfree].
  - discriminate.
  - apply subseq_filter.
Qed.

(** X4.  A query without [$or] keeps the order of the records: the result
    is the input with some records left out. *)
Theorem or_free_query_keeps_order (records result : list ref)
    (query : Query) :
  or_free query = true -> _find db records query = Ok result ->
  subseq result records.
Proof.
  intros Hfree Hfind. apply find_inv in Hfind. subst result.
  now apply matching_or_free.
Qed.

Lemma matching_NoDup (records : list ref) (query : Query) :
  NoDup records -> NoDup (matching db records query).
Proof.
  intros Hnd.
  induction query as [text|queries IH|queries _|fields] using Query_ind.
  - now apply NoDup_filter.
  - cbn [matching]. destruct queries as [|q queries]; [constructor|].
    cbn [map intersect]. inversion IH as [|? ? Hq Hqs]; subst.
    apply fold_intersect2_NoDup; [exact Hq|].
    apply Forall_map. exact Hqs.
  - cbn [matching]. rewrite union_eq. apply distinct_NoDup, new_Set_distinct.
  - now apply NoDup_filter.
Qed.

Lemma fields_match_null (fields : list (str * Clause)) :
  fields <> [] -> fields_match fields JNull = Err TypeError.
Proof. destruct fields as [|kc fields]; [congruence|reflexivity]. Qed.

Lemma filter_m_null (fields : list (str * Clause)) (records : list ref) :
  fields <> [] -> Exists (fun x => val x = JNull) records ->
  filter_m (fun record => fields_match fields (val record)) records
  = Err TypeError.
Proof.
  intros Hne. induction 1 as [x t Hx|x t _ IH]; cbn [filter_m].
  - rewrite Hx, (fields_match_null Hne). reflexivity.
  - destruct (fields_match fields (val x)) as [b|e] eqn:E; cbn [bind].
    + rewrite IH. reflexivity.
    + destruct (val x) eqn:Ev;
        try (rewrite fields_match_Ok in E by discriminate; discriminate).
      rewrite (fields_match_null Hne) in E. congruence.
Qed.

Lemma readable_dec (records : list ref) :
  readable records \/ Exists (fun x => val x = JNull) records.
Proof.
  induction records as [|x t [IH|IH]].
  - left. constructor.
  - destruct (val x) eqn:E;
      try (left; constructor; [rewrite E; discriminate | exact IH]).
    right. now left.
  - right. now right.
Qed.

Lemma heap_member (records : list ref) (P : json -> bool) (x : ref) :
  heap_ok records -> In x records ->
  set_has (filter (fun r => P (val r)) records) x = P (val x).
Proof.
  intros Hheap Hx. destruct (P (val x)) eqn:E.
  - apply set_has_In, filter_In. now split.
  - destruct (set_has _ x) eqn:Hs; [|reflexivity].
    unfold set_has in Hs. apply existsb_exists in Hs.
    destruct Hs as (y & Hy & Hsame). apply filter_In in Hy.
    destruct Hy as (Hy & HP).
    rewrite (Hheap x y Hx Hy Hsame) in E. congruence.
Qed.

Lemma filter_filter {A : Type} (f g : A -> bool) (l : list A) :
  filter f (filter g l) = filter (fun x => g x && f x) l.
Proof.
  induction l as [|x l IH]; [reflexivity|]. cbn [filter].
  destruct (g x); cbn [filter andb]; [|exact IH].
  destruct (f x); now rewrite IH.
Qed.

Lemma filter_ext_In' {A : Type} (f g : A -> bool) (l : list A) :
  (forall x, In x l -> f x = g x) -> filter f l = filter g l.
Proof.
  induction l as [|x l IH]; intros H; [reflexivity|]. cbn [filter].
  rewrite (H x (or_introl eq_refl)), IH; [reflexivity|].
  intros y Hy. apply H. now right.
Qed.

Lemma intersect_filters (records : list ref) (g : str * Clause -> json -> bool)
    (rest : list (str * Clause)) :
  heap_ok records ->
  forall P : json -> bool,
    fold_left (fun p n => intersect2 p n)
      (map (fun kc => filter (fun r => g kc (val r)) records) rest)
      (filter (fun r => P (val r)) records)
    = filter (fun r => P (val r) && forallb (fun kc => g kc (val r)) rest)
        records.
Proof.
  intros Hheap. induction rest as [|kc rest IH]; intros P.
  - cbn [map fold_left forallb]. apply filter_ext_In'. intros x _.
    now rewrite andb_true_r.
  - cbn [map fold_left forallb].
    assert (Hstep : intersect2 (filter (fun r => P (val r)) records)
                      (filter (fun r => g kc (val r)) records)
                    = filter (fun r => (fun v => P v && g kc v) (val r))
                        records).
    { unfold intersect2. rewrite filter_filter. apply filter_ext_In'.
      intros x Hx. rewrite set_has_new_Set, (@heap_member records P x Hheap Hx).
      apply andb_comm. }
    rewrite Hstep, (IH (fun v => P v && g kc v)).
    apply filter_ext_In'. intros x _. now rewrite andb_assoc.
Qed.

Lemma fields_select_cons (kc : str * Clause) (rest : list (str * Clause))
    (v : json) :
  fields_select (kc :: rest) v
  = fields_select [kc] v && forallb (fun kc => fields_select [kc] v) rest.
Proof.
  unfold fields_select. cbn [forallb]. rewrite andb_true_r. f_equal.
  induction rest as [|kc' rest IH]; [reflexivity|].
  cbn [forallb]. now rewrite andb_true_r, IH.
Qed.

(** X5.  A field query with several keys selects what the [$and] of its
    keys, one query each, selects: the same records in the same order, and
    the same failure when a record cannot be read. Only the query without
    keys differs: it selects every record, where the empty [$and] selects
    none. *)
Theorem field_query_is_a_conjunction (records : list ref)
    (fields : list (str * Clause)) :
  heap_ok records -> fields <> [] ->
  _find db records (AndQuery (singles fields))
  = _find db records (SimpleQuery fields)
  /\ _find db records (AndQuery (singles [])) = Ok []
  /\ _find db records (SimpleQuery []) = Ok records.
Proof.
  intros Hheap Hne.
  split; [|split; [reflexivity | apply filter_m_true]].
  destruct fields as [|kc rest]; [congruence|].
  destruct (readable_dec records) as [Hread|Hnull].
  - rewrite !(find_Ok db _ Hread). f_equal.
    cbn [matching singles map intersect]. rewrite map_map.
    cbn [matching].
    rewrite (@intersect_filters records (fun kc v => fields_select [kc] v)
               rest Hheap (fun v => fields_select [kc] v)).
    apply filter_ext_In'. intros x _. symmetry. apply fields_select_cons.
  - cbn [_find singles map map_m].
    rewrite (@filter_m_null [kc] records ltac:(discriminate) Hnull).
    rewrite (@filter_m_null (kc :: rest) records Hne Hnull). reflexivity.
Qed.

Lemma prim_eqb_iff (a b : json) :
  prim_eqb a b = true <-> a = b /\ is_object a = false.
Proof.
  split.
  - intros H. split; [now apply prim_eqb_eq|].
    now destruct (prim_eqb_object _ _ H).
  - intros (<- & Hobj). now apply prim_eqb_refl.
Qed.

(** X6.  [$eq] and [$in] compare with [===]: a record is selected exactly
    when it has the field and the field holds the very primitive asked
    for. A query value that is an array or an object selects nothing,
    since no parsed record holds that same object. *)
Theorem equality_clauses_compare_primitives (records result : list ref)
    (key : str) (x : ref) :
  (forall q,
     _find db records (SimpleQuery [(key, EqQuery q)]) = Ok result ->
     (In x result <->
      In x records /\ get_field (val x) key = Some q /\ is_object q = false))
  /\
  (forall values,
     _find db records (SimpleQuery [(key, InQuery values)]) = Ok result ->
     (In x result <->
      In x records /\
      exists v, get_field (val x) key = Some v /\ In v values /\
                is_object v = false)).
Proof.
  split.
  - intros q Hfind. apply find_inv in Hfind. subst result.
    cbn [matching]. rewrite filter_In.
    unfold fields_select. cbn [forallb fst snd]. rewrite andb_true_r.
    split; intros (Hx & H); (split; [exact Hx|]).
    + destruct (get_field (val x) key) as [v|]; [|discriminate].
      cbn [test_clause] in H. apply prim_eqb_iff in H.
      destruct H as (-> & Hobj). now split.
    + destruct H as (-> & Hobj). cbn [test_clause].
      apply prim_eqb_iff. now split.
  - intros values Hfind. apply find_inv in Hfind. subst result.
    cbn [matching]. rewrite filter_In.
    unfold fields_select. cbn [forallb fst snd]. rewrite andb_true_r.
    split; intros (Hx & H); (split; [exact Hx|]).
    + destruct (get_field (val x) key) as [v|]; [|discriminate].
      cbn [test_clause] in H. apply existsb_exists in H.
      destruct H as (w & Hw & Heq). apply prim_eqb_iff in Heq.
      destruct Heq as (-> & Hobj). exists v. now repeat split.
    + destruct H as (v & -> & Hv & Hobj). cbn [test_clause].
      apply existsb_exists. exists v. split; [exact Hv|].
      apply prim_eqb_iff. now split.
Qed.

Lemma split_run_visible (s : str) :
  forall in_run t, In t (split_run in_run s) -> visible t.
Proof.
  induction s as [|c s IH]; intros in_run t Hin.
  - destruct Hin as [<-|[]]. constructor.
  - cbn [split_run] in Hin. destruct (is_space c) eqn:Ec.
    + destruct in_run.
      * now apply (IH true).
      * destruct Hin as [<-|Hin]; [constructor | now apply (IH true)].
    + destruct (split_run false s) as [|piece pieces] eqn:E.
      * destruct Hin as [<-|[]]. now repeat constructor.
      * destruct Hin as [<-|Hin].
        -- constructor; [exact Ec|]. apply (IH false). rewrite E. now left.
        -- apply (IH false). rewrite E. now right.
Qed.

Lemma is_space_lower (c : ascii) : is_space (lower_char c) = is_space c.
Proof. ascii_cases c; reflexivity. Qed.

Lemma spaces_toLowerCase (s : str) :
  existsb is_space (toLowerCase s) = existsb is_space s.
Proof.
  induction s as [|c s IH]; [reflexivity|].
  cbn [toLowerCase map existsb]. rewrite is_space_lower. f_equal. exact IH.
Qed.

Lemma visible_no_space (t : str) : visible t -> existsb is_space t = false.
Proof.
  induction 1 as [|c t Hc _ IH]; [reflexivity|].
  cbn [existsb]. now rewrite Hc, IH.
Qed.

(** X7.  A [$text] query is matched against single words: a text that
    holds white space (two words, say) selects no record, whatever the
    fields hold. *)
Theorem text_with_white_space_selects_nothing (records result : list ref)
    (text : str) :
  existsb is_space text = true ->
  _find db records (TextQuery text) = Ok result -> result = [].
Proof.
  intros Hspace Hfind. apply find_inv in Hfind. subst result.
  cbn [matching].
  induction records as [|x records IH]; [reflexivity|].
  cbn [filter]. destruct (text_selects db text (val x)) eqn:E; [|exact IH].
  exfalso. apply text_selects_spec in E.
  destruct E as (key & value & token & _ & _ & Htoken & Hlower).
  apply split_run_visible in Htoken. apply visible_no_space in Htoken.
  rewrite <- spaces_toLowerCase, Hlower, spaces_toLowerCase in Htoken.
  congruence.
Qed.

End Matcher.

(** ** Sorting and projecting *)

Section Arrangement.

Variable A : Type.
Variable compare : A -> A -> Z.

Lemma stable_place_perm (x : A) (s : list A) :
  Permutation (stable_place compare x s) (x :: s).
Proof.
  induction s as [|y t IH]; [reflexivity|]. cbn [stable_place].
  destruct (compare x y <? 0)%Z; [|reflexivity].
  rewrite IH. apply perm_swap.
Qed.

Lemma fold_stable_place_perm (l acc : list A) :
  Permutation (fold_left (fun sorted x => stable_place compare x sorted) l acc)
    (l ++ acc).
Proof.
  revert acc. induction l as [|x l IH]; intros acc; [reflexivity|].
  cbn [fold_left]. rewrite IH, stable_place_perm.
  symmetry. apply Permutation_middle.
Qed.

Lemma stable_sort_perm (l : list A) : Permutation (stable_sort compare l) l.
Proof.
  unfold stable_sort. rewrite <- Permutation_rev, fold_stable_place_perm.
  now rewrite app_nil_r.
Qed.

Lemma fold_stable_place_id (l acc : list A) :
  (forall a b, In a l -> In b (l ++ acc) -> (compare a b <? 0)%Z = false) ->
  fold_left (fun sorted x => stable_place compare x sorted) l acc
  = rev l ++ acc.
Proof.
  revert acc. induction l as [|x l IH]; intros acc H; [reflexivity|].
  cbn [fold_left].
  assert (Hx : stable_place compare x acc = x :: acc).
  { destruct acc as [|y t]; [reflexivity|]. cbn [stable_place].
    rewrite H; [reflexivity | now left |].
    right. apply in_or_app. right. now left. }
  rewrite Hx, IH.
  - cbn [rev]. now rewrite <- app_assoc.
  - intros a b Ha Hb. apply H; [now right|].
    apply in_app_or in Hb. destruct Hb as [Hb|[<-|Hb]].
    + right. apply in_or_app. now left.
    + now left.
    + right. apply in_or_app. now right.
Qed.

Lemma stable_sort_id (l : list A) :
  (forall a b, In a l -> In b l -> (compare a b <? 0)%Z = false) ->
  stable_sort compare l = l.
Proof.
  intros H. unfold stable_sort. rewrite fold_stable_place_id.
  - rewrite app_nil_r. apply rev_involutive.
  - intros a b Ha Hb. rewrite app_nil_r in Hb. now apply H.
Qed.

Variable P : A -> Prop.
Variable R : A -> A -> Prop.

Hypothesis below : forall x y, P x -> P y -> (compare x y < 0)%Z -> R x y.
Hypothesis not_below :
  forall x y, P x -> P y -> ~ (compare x y < 0)%Z -> R y x.
Hypothesis R_trans : forall x y z, R x y -> R y z -> R x z.

Lemma stable_place_sorted (x : A) (s : list A) :
  P x -> Forall P s ->
  StronglySorted (fun later earlier => R earlier later) s ->
  StronglySorted (fun later earlier => R earlier later)
    (stable_place compare x s).
Proof.
  intros Hx HP Hs. induction Hs as [|y t Ht IH Hy]; cbn [stable_place].
  - repeat constructor.
  - inversion HP as [|? ? HPy HPt]; subst.
    destruct (compare x y <? 0)%Z eqn:E.
    + apply Z.ltb_lt in E. constructor; [now apply IH|].
      apply Forall_forall. intros z Hz. apply stable_place_In in Hz.
      destruct Hz as [->|Hz]; [now apply below|].
      rewrite Forall_forall in Hy. now apply Hy.
    + apply Z.ltb_ge in E.
      assert (Hyx : R y x) by (apply not_below; [exact Hx|exact HPy|lia]).
      constructor; [now constructor|].
      constructor; [exact Hyx|].
      apply Forall_forall. intros z Hz. rewrite Forall_forall in Hy.
      apply R_trans with y; [now apply Hy | exact Hyx].
Qed.

Lemma fold_stable_place_sorted (l acc : list A) :
  Forall P l -> Forall P acc ->
  StronglySorted (fun later earlier => R earlier later) acc ->
  StronglySorted (fun later earlier => R earlier later)
    (fold_left (fun sorted x => stable_place compare x sorted) l acc).
Proof.
  intros Hl. revert acc.
  induction Hl as [|x l Hx _ IH]; intros acc Hacc Hs; [exact Hs|].
  cbn [fold_left]. apply IH.
  - apply Forall_forall. intros z Hz. apply stable_place_In in Hz.
    destruct Hz as [->|Hz]; [exact Hx|].
    rewrite Forall_forall in Hacc. now apply Hacc.
  - now apply stable_place_sorted.
Qed.

Lemma sorted_snoc (Q : A -> A -> Prop) (l : list A) (a : A) :
  StronglySorted Q l -> Forall (fun z => Q z a) l ->
  StronglySorted Q (l ++ [a]).
Proof.
  induction 1 as [|x l Hl IH Hx]; intros Ha; cbn [app].
  - repeat constructor.
  - inversion Ha as [|? ? Hxa Hla]; subst.
    constructor; [now apply IH|].
    apply Forall_app. split; [exact Hx | now constructor].
Qed.

Lemma sorted_rev (l : list A) :
  StronglySorted (fun later earlier => R earlier later) l ->
  StronglySorted R (rev l).
Proof.
  induction 1 as [|x l Hl IH Hx]; cbn [rev]; [constructor|].
  apply sorted_snoc; [exact IH|].
  apply Forall_forall. intros z Hz. apply in_rev in Hz.
  rewrite Forall_forall in Hx. now apply Hx.
Qed.

Lemma stable_sort_sorted (l : list A) :
  Forall P l -> StronglySorted R (stable_sort compare l).
Proof.
  intros Hl. unfold stable_sort. apply sorted_rev.
  apply fold_stable_place_sorted; [exact Hl| |]; constructor.
Qed.

End Arrangement.

Section Options.

Variable localeCompare : str -> str -> Z.
Variable db : Database.

Lemma find_loads (fs : FileSystem) (query : Query) (options : option Options)
    (found : list Found) :
  find localeCompare db fs query options = Ok found ->
  exists rows, _load db fs = Ok rows.
Proof.
  unfold find. destruct (_load db fs) as [rows|]; [eauto|discriminate].
Qed.

(** The stages of a [find] that returns. *)
Lemma find_stages (fs : FileSystem) (query : Query) (options : option Options)
    (rows : list Row) (found : list Found) :
  _load db fs = Ok rows ->
  find localeCompare db fs query options = Ok found ->
  exists result,
    _find db (existing rows) query = Ok (matching db (existing rows) query) /\
    match optional sort options with
    | Some keys =>
        js_sort (comparefn localeCompare keys)
          (matching db (existing rows) query) = Ok result /\
        result = stable_sort (ordering localeCompare keys)
                   (matching db (existing rows) query)
    | None => result = matching db (existing rows) query
    end /\
    found = map (shape options) result.
Proof.
  intros Hload. unfold find. rewrite Hload. cbn [bind].
  destruct (_find db (existing rows) query) as [matched|] eqn:Hfind;
    [cbn [bind]|discriminate].
  apply find_inv in Hfind. subst matched.
  destruct (optional sort options) as [keys|] eqn:Es.
  - destruct (js_sort (comparefn localeCompare keys)
                (matching db (existing rows) query)) as [sorted|] eqn:E;
      [cbn [bind]|discriminate].
    intros H. apply shape_inv in H. exists sorted.
    split; [reflexivity|]. split; [|exact H]. split; [reflexivity|].
    apply (@js_sort_inv _ _ (ordering localeCompare keys)) in E;
      [exact E | intros a b c; apply comparefn_inv].
  - cbn [bind]. intros H. apply shape_inv in H.
    exists (matching db (existing rows) query). now repeat split.
Qed.





(** X9.  Sorting only rearranges. The call with a sort returns what the
    same call without the sort returns, in another order: nothing is lost,
    nothing is added, nothing is repeated. *)
Theorem sort_only_rearranges (fs : FileSystem) (query : Query)
    (keys : option (list str)) (order : list (str * option Order))
    (sorted plain : list Found) :
  find localeCompare db fs query
    (Some {| projection := keys; sort := Some order |}) = Ok sorted ->
  find localeCompare db fs query
    (Some {| projection := keys; sort := None |}) = Ok plain ->
  Permutation plain sorted.
Proof.
  intros Hsorted Hplain.
  destruct (find_loads _ _ _ Hsorted) as (rows & Hload).
  destruct (find_stages _ _ _ Hload Hsorted) as (r1 & _ & (_ & ->) & ->).
  destruct (find_stages _ _ _ Hload Hplain) as (r2 & _ & -> & ->).
  unfold shape. cbn [optional projection].
  apply Permutation_map. symmetry. apply stable_sort_perm.
Qed.

Lemma ordering_unordered (order : list (str * option Order)) (a b : ref) :
  (forall k, In k (map fst order) -> unordered k (val a) = true) ->
  ordering localeCompare order a b = 0%Z.
Proof.
  unfold ordering, first_nonzero.
  induction order as [|[k o] order IH]; intros H; [reflexivity|].
  cbn [map fst snd List.find].
  assert (Hk : unordered k (val a) = true) by (apply H; now left).
  unfold unordered in Hk.
  assert (Hc : compare_values localeCompare (order_value o)
                 (get_field (val a) k) (get_field (val b) k) = 0%Z).
  { destruct (get_field (val a) k) as [[]|]; try discriminate;
      reflexivity. }
  rewrite Hc. cbn [Z.eqb negb]. apply IH. intros k' Hk'. apply H. now right.
Qed.

(** X10.  Sorting on keys that order nothing changes nothing. When under
    every sort key every live record holds neither a string nor a number
    (the key is missing, or holds a boolean, [null], an array or an
    object), a call that returns with the sort returns what the call
    without the sort returns, in the same order. This covers the empty
    sort object. *)
Theorem sort_on_unordered_keys_keeps_order (fs : FileSystem) (query : Query)
    (keys : option (list str)) (order : list (str * option Order))
    (rows : list Row) (found : list Found) :
  _load db fs = Ok rows ->
  (forall x k, In x (existing rows) -> In k (map fst order) ->
               unordered k (val x) = true) ->
  find localeCompare db fs query
    (Some {| projection := keys; sort := Some order |}) = Ok found ->
  find localeCompare db fs query
    (Some {| projection := keys; sort := None |}) = Ok found.
Proof.
  intros Hload Hun Hfind.
  destruct (find_stages _ _ _ Hload Hfind) as (result & Hm & (_ & Hs) & Hf).
  rewrite stable_sort_id in Hs.
  - subst result. unfold find. rewrite Hload. cbn [bind]. rewrite Hm.
    cbn [bind optional sort projection].
    unfold find in Hfind. rewrite Hload in Hfind. cbn [bind] in Hfind.
    rewrite Hm in Hfind. cbn [bind optional sort projection] in Hfind.
    destruct (js_sort (comparefn localeCompare order)
                (matching db (existing rows) query)) as [sorted|] eqn:E;
      [|discriminate].
    apply (@js_sort_inv _ _ (ordering localeCompare order)) in E;
      [|intros a b c; apply comparefn_inv].
    rewrite stable_sort_id in E.
    + subst sorted. exact Hfind.
    + intros a b Ha _. rewrite ordering_unordered; [reflexivity|].
      intros k Hk. apply Hun; [|exact Hk]. eapply find_incl; eassumption.
  - intros a b Ha _. rewrite ordering_unordered; [reflexivity|].
    intros k Hk. apply Hun; [|exact Hk]. eapply find_incl; eassumption.
Qed.

Lemma ordering_numbers (key : str) (o : Order) (a b : ref) (m n : Z) :
  get_field (val a) key = Some (JNum m) ->
  get_field (val b) key = Some (JNum n) ->
  ordering localeCompare [(key, Some o)] a b
  = ((if (m <? n)%Z then -1 else 1) * order_value (Some o))%Z.
Proof.
  intros Ha Hb. unfold ordering, first_nonzero.
  cbn [map fst snd]. rewrite Ha, Hb. cbn [compare_values List.find].
  destruct (m <? n)%Z, o; reflexivity.
Qed.

Lemma in_order_trans (o : Order) (key : str) (x y z : ref) :
  in_order o key x y -> in_order o key y z -> in_order o key x z.
Proof. unfold in_order. destruct o; lia. Qed.

(** X11.  Sorting on one numeric key orders the results. When every live
    record holds a number under the key, the records [find] returns are in
    non-decreasing order of that number for the direction [1], and in
    non-increasing order for [-1]. *)
Theorem numeric_sort_orders_results (fs : FileSystem) (query : Query)
    (key : str) (o : Order) (rows : list Row) (found : list Found) :
  _load db fs = Ok rows ->
  (forall x, In x (existing rows) ->
             exists n, get_field (val x) key = Some (JNum n)) ->
  find localeCompare db fs query
    (Some {| projection := None; sort := Some [(key, Some o)] |}) = Ok found ->
  exists result,
    found = map Whole result /\ StronglySorted (in_order o key) result.
Proof.
  intros Hload Hnum Hfind.
  destruct (find_stages _ _ _ Hload Hfind) as (result & _ & (_ & Hs) & Hf).
  exists result. split; [exact Hf|]. rewrite Hs.
  apply (@stable_sort_sorted _ (ordering localeCompare [(key, Some o)])
           (fun x => exists n, get_field (val x) key = Some (JNum n))).
  - intros x y (m & Hx) (n & Hy) Hlt.
    rewrite (@ordering_numbers key o x y m n Hx Hy) in Hlt.
    unfold in_order, number_at. rewrite Hx, Hy.
    destruct (m <? n)%Z eqn:E, o; cbn [order_value] in Hlt;
      try apply Z.ltb_lt in E; try apply Z.ltb_ge in E; lia.
  - intros x y (m & Hx) (n & Hy) Hge.
    rewrite (@ordering_numbers key o x y m n Hx Hy) in Hge.
    unfold in_order, number_at. rewrite Hx, Hy.
    destruct (m <? n)%Z eqn:E, o; cbn [order_value] in Hge;
      try apply Z.ltb_lt in E; try apply Z.ltb_ge in E; lia.
  - intros x y z. apply in_order_trans.
  - apply Forall_forall. intros x Hx. apply Hnum.
    eapply find_incl; eassumption.
Qed.





Lemma existing_addresses (first : nat) (rows : list Row) :
  addressed first rows -> NoDup (map addr (existing rows)).
Proof.
  intros Haddr. unfold existing. rewrite map_map.
  assert (Hall : NoDup (map (fun r => addr (data r)) rows)).
  { unfold addressed in Haddr. rewrite Haddr. apply seq_NoDup. }
  clear Haddr. induction rows as [|r rows IH]; [constructor|].
  cbn [map] in Hall. inversion Hall as [|? ? Hr Hrows]; subst.
  cbn [filter]. destruct (exists_ r); [|now apply IH].
  cbn [map]. constructor; [|now apply IH].
  intros Hin. apply Hr. apply in_map_iff in Hin.
  destruct Hin as (r' & Heq & Hr'). apply filter_In in Hr'.
  apply in_map_iff. exists r'. now split.
Qed.

Lemma existing_NoDup (first : nat) (rows : list Row) :
  addressed first rows -> NoDup (existing rows).
Proof.
  intros Haddr. apply (NoDup_map_inv addr).
  eapply existing_addresses; eassumption.
Qed.

(** X13.  [find] returns no row twice. Without a projection the results
    are records of the store, and each row of the file gives at most one
    of them, also when several branches of an [$or] select it and when the
    results are sorted. *)
Theorem find_returns_no_row_twice (fs : FileSystem) (query : Query)
    (options : option Options) (found : list Found) :
  optional projection options = None ->
  find localeCompare db fs query options = Ok found ->
  exists result, found = map Whole result /\ NoDup result.
Proof.
  intros Hp Hfind.
  destruct (find_loads _ _ _ Hfind) as (rows & Hload).
  destruct (find_stages _ _ _ Hload Hfind) as (result & _ & Hs & Hf).
  exists result. split.
  - rewrite Hf. unfold shape. now rewrite Hp.
  - destruct (load_rows _ _ Hload) as (_ & Haddr & _).
    assert (Hm : NoDup (matching db (existing rows) query))
      by (apply matching_NoDup; eapply existing_NoDup; eassumption).
    destruct (optional sort options) as [keys|].
    + destruct Hs as (_ & ->).
      eapply Permutation_NoDup; [|exact Hm].
      symmetry. apply stable_sort_perm.
    + now subst result.
Qed.

End Options.

(** ** Sorting on a string key *)

Section Collation.

Variable localeCompare : str -> str -> Z.
Variable db : Database.

(** The collation is a total preorder. *)
Hypothesis collation_sign :
  forall a b, Z.sgn (localeCompare b a) = (- Z.sgn (localeCompare a b))%Z.
Hypothesis collation_trans :
  forall a b c,
    (localeCompare a b <= 0)%Z -> (localeCompare b c <= 0)%Z ->
    (localeCompare a c <= 0)%Z.

Lemma ordering_strings (key : str) (o : Order) (a b : ref) (s t : str) :
  get_field (val a) key = Some (JStr s) ->
  get_field (val b) key = Some (JStr t) ->
  ordering localeCompare [(key, Some o)] a b
  = (localeCompare s t * order_value (Some o))%Z.
Proof.
  intros Ha Hb. unfold ordering, first_nonzero.
  cbn [map fst snd]. rewrite Ha, Hb. cbn [compare_values List.find].
  destruct (localeCompare s t * order_value (Some o) =? 0)%Z eqn:E;
    cbn [negb]; [|reflexivity].
  apply Z.eqb_eq in E. now rewrite E.
Qed.

Lemma collated_trans (o : Order) (key : str) (x y z : ref) :
  collated localeCompare o key x y -> collated localeCompare o key y z ->
  collated localeCompare o key x z.
Proof.
  unfold collated.
  set (a := string_at key x). set (b := string_at key y).
  set (c := string_at key z). destruct o; cbn [order_value]; intros H1 H2.
  - assert (H : (localeCompare a c <= 0)%Z)
      by (apply collation_trans with b; lia).
    lia.
  - pose proof (collation_sign a b) as Sab.
    pose proof (collation_sign b c) as Sbc.
    pose proof (collation_sign a c) as Sac.
    assert (H : (localeCompare c a <= 0)%Z).
    { apply collation_trans with b.
      - destruct (localeCompare b c), (localeCompare c b);
          cbn in Sbc; try lia; discriminate.
      - destruct (localeCompare a b), (localeCompare b a);
          cbn in Sab; try lia; discriminate. }
    destruct (localeCompare a c), (localeCompare c a);
      cbn in Sac; try lia; discriminate.
Qed.

(** X14.  Sorting on one string key orders the results by the collation.
    When [localeCompare] is a total preorder and every live record holds a
    string under the key, each record [find] returns stands before the
    records after it in the collation, for the direction [1], and after
    them for [-1]. *)
Theorem string_sort_orders_results (fs : FileSystem) (query : Query)
    (key : str) (o : Order) (rows : list Row) (found : list Found) :
  _load db fs = Ok rows ->
  (forall x, In x (existing rows) ->
             exists s, get_field (val x) key = Some (JStr s)) ->
  find localeCompare db fs query
    (Some {| projection := None; sort := Some [(key, Some o)] |}) = Ok found ->
  exists result,
    found = map Whole result /\
    StronglySorted (collated localeCompare o key) result.
Proof.
  intros Hload Hstr Hfind.
  destruct (@find_stages localeCompare db fs query _ rows found Hload Hfind)
    as (result & _ & (_ & Hs) & Hf).
  exists result. split; [exact Hf|]. rewrite Hs.
  apply (@stable_sort_sorted _ (ordering localeCompare [(key, Some o)])
           (fun x => exists s, get_field (val x) key = Some (JStr s))).
  - intros x y (s & Hx) (t & Hy) Hlt.
    rewrite (@ordering_strings key o x y s t Hx Hy) in Hlt.
    unfold collated, string_at. rewrite Hx, Hy. lia.
  - intros x y (s & Hx) (t & Hy) Hge.
    rewrite (@ordering_strings key o x y s t Hx Hy) in Hge.
    unfold collated, string_at. rewrite Hx, Hy.
    pose proof (collation_sign s t) as Hsign.
    destruct o; cbn [order_value] in *;
      destruct (localeCompare s t), (localeCompare t s);
      cbn in Hsign; try lia; discriminate.
  - intros x y z. apply collated_trans.
  - apply Forall_forall. intros x Hx. apply Hstr.
    eapply find_incl; eassumption.
Qed.

End Collation.


(** ** Writing: [insert] and [delete] *)

Section Writes.

Variable localeCompare : str -> str -> Z.
Variable db : Database.

Lemma retire_twice (query : Query) (r : Row) :
  retire db query (retire db query r) = retire db query r.
Proof.
  unfold retire. cbn [exists_ data]. f_equal.
  destruct (exists_ r), (selects db query (val (data r))); reflexivity.
Qed.

Lemma existing_retire (query : Query) (rows : list Row) :
  existing (map (retire db query) rows)
  = filter (fun x => negb (selects db query (val x))) (existing rows).
Proof.
  unfold existing. induction rows as [|r rows IH]; [reflexivity|].
  cbn [map filter]. unfold retire at 1. cbn [exists_ data].
  destruct (exists_ r); cbn [andb map filter]; [|exact IH].
  destruct (selects db query (val (data r))); cbn [negb map];
    [exact IH | now rewrite IH].
Qed.

Lemma readable_filter (f : ref -> bool) (records : list ref) :
  readable records -> readable (filter f records).
Proof.
  unfold readable. rewrite !Forall_forall. intros H x Hx.
  apply filter_In in Hx. now apply H.
Qed.

(** X15.  Deleting twice is deleting once. On a store whose live records
    can be read, [delete] with a query completes, completes again on the
    file it wrote, and the second call leaves every file as the first one
    left it. *)
Theorem delete_twice_is_delete_once (fs : FileSystem) (query : Query)
    (rows : list Row) :
  _load db fs = Ok rows -> readable (existing rows) ->
  exists fs1 fs2,
    delete db query fs = Ok fs1 /\ delete db query fs1 = Ok fs2 /\
    forall name, fs2 name = fs1 name.
Proof.
  intros Hload Hread.
  destruct (@delete_Ok db fs query rows Hload Hread) as (fs1 & Hdel1).
  destruct (@delete_load db fs fs1 query rows Hload Hdel1) as (_ & Hload1).
  assert (Hread1 : readable (existing (map (retire db query) rows)))
    by (rewrite existing_retire; now apply readable_filter).
  destruct (@delete_Ok db fs1 query _ Hload1 Hread1) as (fs2 & Hdel2).
  exists fs1, fs2. split; [exact Hdel1|]. split; [exact Hdel2|].
  destruct (@delete_inv db fs fs1 query rows Hload Hdel1) as (_ & _ & E1).
  destruct (@delete_inv db fs1 fs2 query _ Hload1 Hdel2) as (_ & _ & E2).
  intros name. rewrite E2. unfold writeFile at 1.
  destruct (str_eqb name (filename db)) eqn:E; [|reflexivity].
  rewrite E1. unfold writeFile. rewrite E. f_equal. f_equal.
  rewrite map_map. apply map_ext. intros r. apply retire_twice.
Qed.

Lemma no_member_nil {X : Type} (l : list X) :
  (forall x, ~ In x l) -> l = [].
Proof.
  destruct l as [|x l]; [reflexivity|]. intros H.
  exfalso. apply (H x). now left.
Qed.

Lemma matching_after_delete (query : Query) (rows : list Row) (first : nat) :
  addressed first rows ->
  matching db (existing (map (retire db query) rows)) query = [].
Proof.
  intros Haddr. apply no_member_nil. intros x Hx.
  assert (Hin : In x (existing (map (retire db query) rows)))
    by (eapply find_incl; eassumption).
  assert (Hheap : heap_ok (existing (map (retire db query) rows))).
  { apply (@addressed_heap first). unfold addressed in *.
    rewrite map_map, length_map. cbn [retire data]. exact Haddr. }
  pose proof (@find_sound db _ query Hheap x (set_has_In _ _ Hx) Hin) as Hsel.
  rewrite existing_retire in Hin. apply filter_In in Hin.
  destruct Hin as (_ & Hnot). rewrite Hsel in Hnot. discriminate.
Qed.

(** X16.  What a query deleted, the query no longer finds. On a store
    whose live records can be read, [delete] completes and a [find] with
    the same query on the file it wrote returns the empty list, whatever
    the options. *)
Theorem deleted_records_are_not_found (fs : FileSystem) (query : Query)
    (options : option Options) (rows : list Row) :
  _load db fs = Ok rows -> readable (existing rows) ->
  exists fs',
    delete db query fs = Ok fs' /\
    find localeCompare db fs' query options = Ok [].
Proof.
  intros Hload Hread.
  destruct (@delete_Ok db fs query rows Hload Hread) as (fs' & Hdel).
  destruct (@delete_load db fs fs' query rows Hload Hdel) as (_ & Hload').
  exists fs'. split; [exact Hdel|].
  assert (Hread' : readable (existing (map (retire db query) rows)))
    by (rewrite existing_retire; now apply readable_filter).
  destruct (@find_succeeds localeCompare db fs' query options _
              Hload' Hread') as (found & Hfind).
  rewrite Hfind. f_equal.
  destruct (@find_stages localeCompare db fs' query options _ found
              Hload' Hfind) as (result & _ & Hs & ->).
  destruct (@load_rows db fs rows Hload) as (_ & Haddr & _).
  rewrite (@matching_after_delete query rows 0 Haddr) in Hs.
  destruct (optional sort options) as [keys|].
  - destruct Hs as (_ & ->). reflexivity.
  - subst result. reflexivity.
Qed.

(** X17.  [delete] removes what the query selects and nothing else. After
    a [delete] that completes, the match-all [find] returns the records
    that were live before and whose contents the query does not select, in
    their order in the file. *)
Theorem delete_keeps_the_rest (fs fs' : FileSystem) (query : Query)
    (rows : list Row) :
  _load db fs = Ok rows -> delete db query fs = Ok fs' ->
  find localeCompare db fs' (SimpleQuery []) None
  = Ok (map Whole
          (filter (fun x => negb (selects db query (val x)))
             (existing rows))).
Proof.
  intros Hload Hdel.
  destruct (@delete_load db fs fs' query rows Hload Hdel) as (_ & Hload').
  unfold find. rewrite Hload'. cbn [bind].
  rewrite find_everything. cbn [bind optional].
  now rewrite existing_retire.
Qed.

Lemma existing_live_rows (records : list ref) :
  existing (live_rows records) = records.
Proof.
  unfold existing, live_rows.
  induction records as [|x l IH]; [reflexivity|].
  cbn [map filter exists_ data]. now rewrite IH.
Qed.

Lemma insert_all_stores (records : list json) :
  Forall wf records ->
  forall fs rows,
    stores db fs rows ->
    stores db (insert_all db records fs)
      (rows ++ live_rows (numbered (length rows) records)).
Proof.
  induction 1 as [|record records Hwf _ IH]; intros fs rows Hst.
  - cbn [insert_all fold_left numbered live_rows map].
    now rewrite app_nil_r.
  - cbn [insert_all fold_left].
    destruct (@insert_stores db fs rows record Hst Hwf) as (Hst' & _).
    specialize (IH _ _ Hst'). unfold insert_all in IH.
    rewrite <- app_assoc, length_app in IH. cbn [length app] in IH.
    rewrite Nat.add_1_r in IH. exact IH.
Qed.

(** X18.  Records are read back as they were inserted. On a store written
    by the store itself (or a missing file), after the records of a list
    have been inserted one after the other, the match-all [find] returns
    the records that were live before, followed by the inserted ones in
    the order of insertion, each with the contents it was given. *)
Theorem inserted_records_are_read_back (fs : FileSystem) (rows : list Row)
    (records : list json) :
  stores db fs rows -> Forall wf records -> records <> [] ->
  find localeCompare db (insert_all db records fs) (SimpleQuery []) None
  = Ok (map Whole (existing rows ++ numbered (length rows) records)).
Proof.
  intros Hst Hwf Hne.
  pose proof (@insert_all_stores records Hwf fs rows Hst) as Hst'.
  assert (Hrows : rows ++ live_rows (numbered (length rows) records) <> []).
  { destruct records as [|r records]; [congruence|].
    destruct rows; discriminate. }
  unfold find. rewrite (@stores_load db _ _ Hst' Hrows). cbn [bind].
  rewrite find_everything. cbn [bind optional].
  now rewrite existing_app, existing_live_rows.
Qed.

(** X19.  The store does not damage its file. Every file the store reaches
    from a missing or empty one, by [insert] of records that can be
    written and by [delete]s that complete, is empty or is the text of
    rows, one line each; [_load] reads exactly these rows back. *)
Theorem reachable_file_loads (fs : FileSystem) (text : str) :
  reachable db fs -> fs (filename db) = Some text -> text <> [] ->
  exists rows, text = serialize rows /\ _load db fs = Ok rows.
Proof.
  intros Hreach Hfile Hne.
  destruct (@reachable_stores db fs Hreach) as (rows & Hst).
  exists rows. pose proof Hst as (_ & _ & Hfs). rewrite Hfile in Hfs.
  split; [exact Hfs|]. apply stores_load; [exact Hst|].
  intros ->. apply Hne. rewrite Hfs. reflexivity.
Qed.

(** X20.  On a store that holds rows written by the store, none of them
    [null], no operation fails. Every [find] returns; every [delete]
    completes and every [insert] of a record other than [null] is written,
    and each leaves a store of the same kind, so that the operations after
    it do not fail either. *)
Theorem operations_succeed_on_written_stores (fs : FileSystem)
    (rows : list Row) :
  stores db fs rows -> rows <> [] -> readable (existing rows) ->
  (forall query options,
     exists found, find localeCompare db fs query options = Ok found) /\
  (forall query,
     exists fs',
       delete db query fs = Ok fs' /\
       stores db fs' (map (retire db query) rows) /\
       map (retire db query) rows <> [] /\
       readable (existing (map (retire db query) rows))) /\
  (forall record,
     wf record -> record <> JNull ->
     stores db (insert db record fs) (rows ++ [new_row rows record]) /\
     rows ++ [new_row rows record] <> [] /\
     readable (existing (rows ++ [new_row rows record]))).
Proof.
  intros Hst Hne Hread.
  pose proof (@stores_load db fs rows Hst Hne) as Hload.
  split; [|split].
  - intros query options.
    exact (@find_succeeds localeCompare db fs query options rows Hload Hread).
  - intros query.
    destruct (@delete_Ok db fs query rows Hload Hread) as (fs' & Hdel).
    destruct (@delete_load db fs fs' query rows Hload Hdel) as (Hfile & _).
    destruct Hst as (Haddr & Hwf & _).
    destruct (@retire_rows db query rows 0 Hne Haddr Hwf) as (Hne' & Ha & Hw).
    exists fs'. split; [exact Hdel|]. split; [|split; [exact Hne'|]].
    + split; [exact Ha|]. split; [exact Hw|]. now rewrite Hfile.
    + rewrite existing_retire. now apply readable_filter.
  - intros record Hwf Hnull.
    destruct (@insert_stores db fs rows record Hst Hwf) as (Hst' & _).
    split; [exact Hst'|]. split; [now destruct rows|].
    rewrite existing_app. apply Forall_app. split; [exact Hread|].
    repeat constructor. exact Hnull.
Qed.




(** X22.  A record that is [null] makes the field queries fail. When some
    live record is [null], every [find] and every [delete] with a field
    query of at least one key fails with a [TypeError]; [delete] then
    writes nothing. The match-all query reads no field and still returns
    every live record. *)
Theorem null_record_fails_field_queries (fs : FileSystem) (rows : list Row)
    (fields : list (str * Clause)) (options : option Options) :
  _load db fs = Ok rows ->
  Exists (fun x => val x = JNull) (existing rows) ->
  fields <> [] ->
  find localeCompare db fs (SimpleQuery fields) options = Err TypeError /\
  delete db (SimpleQuery fields) fs = Err TypeError /\
  find localeCompare db fs (SimpleQuery []) None
  = Ok (map Whole (existing rows)).
Proof.
  intros Hload Hnull Hne. unfold find, delete. rewrite Hload. cbn [bind].
  cbn [_find]. rewrite (@filter_m_null fields _ Hne Hnull).
  repeat split. now rewrite filter_m_true.
Qed.

End Writes.

(** ** The earlier versions of [find] *)

Section Renaming.

Variable localeCompare : str -> str -> Z.
Variable db : Database.
Variable records : list ref.
Variable g : ref -> ref.

Hypothesis g_val : forall x, val (g x) = val x.
Hypothesis g_same :
  forall x y, In x records -> In y records ->
              same_value (g x) (g y) = same_value x y.

Lemma set_has_map (l : list ref) (x : ref) :
  incl l records -> In x records -> set_has (map g l) (g x) = set_has l x.
Proof.
  intros Hl Hx. unfold set_has.
  induction l as [|y l IH]; [reflexivity|]. cbn [map existsb].
  rewrite g_same; [|exact Hx | apply Hl; now left].
  f_equal. apply IH. intros z Hz. apply Hl. now right.
Qed.

Lemma set_add_incl (acc : list ref) (x : ref) :
  incl acc records -> In x records -> incl (set_add acc x) records.
Proof.
  intros Hacc Hx. unfold set_add. destruct (set_has acc x); [exact Hacc|].
  apply incl_app; [exact Hacc|]. intros z [<-|[]]. exact Hx.
Qed.

Lemma set_add_map (acc : list ref) (x : ref) :
  incl acc records -> In x records ->
  set_add (map g acc) (g x) = map g (set_add acc x).
Proof.
  intros Hacc Hx. unfold set_add. rewrite set_has_map by assumption.
  destruct (set_has acc x); [reflexivity|]. now rewrite map_app.
Qed.

Lemma fold_add_map (l acc : list ref) :
  incl l records -> incl acc records ->
  fold_left set_add (map g l) (map g acc) = map g (fold_left set_add l acc).
Proof.
  revert acc. induction l as [|x l IH]; intros acc Hl Hacc; [reflexivity|].
  assert (Hx : In x records) by (apply Hl; now left).
  cbn [map fold_left]. rewrite set_add_map by assumption.
  apply IH; [|now apply set_add_incl].
  intros z Hz. apply Hl. now right.
Qed.

Lemma new_Set_map (l : list ref) :
  incl l records -> new_Set (map g l) = map g (new_Set l).
Proof. intros Hl. apply (@fold_add_map l [] Hl). intros z []. Qed.

Lemma intersect2_map (a b : list ref) :
  incl a records -> incl b records ->
  intersect2 (map g a) (map g b) = map g (intersect2 a b).
Proof.
  intros Ha Hb. unfold intersect2.
  induction b as [|y b IH]; [reflexivity|].
  assert (Hy : In y records) by (apply Hb; now left).
  cbn [map filter].
  rewrite (set_has_new_Set (map g a) (g y)), (set_has_new_Set a y).
  rewrite (@set_has_map a y Ha Hy).
  rewrite IH by (intros z Hz; apply Hb; now right).
  now destruct (set_has a y).
Qed.

Lemma intersect2_incl (a b : list ref) :
  incl b records -> incl (intersect2 a b) records.
Proof.
  intros Hb z Hz. apply intersect2_In in Hz. apply Hb. tauto.
Qed.

Lemma fold_intersect2_map (rest : list (list ref)) :
  Forall (fun l => incl l records) rest ->
  forall first,
    incl first records ->
    fold_left (fun p n => intersect2 p n) (map (map g) rest) (map g first)
    = map g (fold_left (fun p n => intersect2 p n) rest first).
Proof.
  induction 1 as [|n rest Hn _ IH]; intros first Hf; [reflexivity|].
  cbn [map fold_left]. rewrite intersect2_map by assumption.
  apply IH. now apply intersect2_incl.
Qed.

Lemma intersect_map (ls : list (list ref)) :
  Forall (fun l => incl l records) ls ->
  intersect (map (map g) ls) = map g (intersect ls).
Proof.
  intros H. destruct H as [|first rest Hf Hr]; [reflexivity|].
  cbn [map intersect]. now apply fold_intersect2_map.
Qed.

Lemma union_map (ls : list (list ref)) :
  Forall (fun l => incl l records) ls ->
  union (map (map g) ls) = map g (union ls).
Proof.
  intros H. rewrite !union_eq, <- concat_map. apply new_Set_map.
  intros z Hz. apply in_concat in Hz. destruct Hz as (l & Hl & Hz).
  rewrite Forall_forall in H. now apply (H l Hl).
Qed.

Lemma filter_m_map (p : json -> result bool) (l : list ref) :
  filter_m (fun r => p (val r)) (map g l)
  = fmap (map g) (filter_m (fun r => p (val r)) l).
Proof.
  induction l as [|x l IH]; [reflexivity|].
  cbn [map filter_m]. rewrite g_val, IH.
  destruct (p (val x)) as [b|e]; [|reflexivity]. cbn [bind].
  destruct (filter_m (fun r => p (val r)) l) as [r|e]; [|reflexivity].
  cbn [bind fmap]. now destruct b.
Qed.

Lemma find_map (query : Query) :
  _find db (map g records) query = fmap (map g) (_find db records query).
Proof.
  induction query as [text|queries IH|queries IH|fields] using Query_ind.
  - apply (filter_m_map (text_matches db text)).
  - cbn [_find].
    assert (Hsub : map_m (_find db (map g records)) queries
                   = fmap (map (map g)) (map_m (_find db records) queries)).
    { induction IH as [|q queries Hq _ IHq]; [reflexivity|].
      cbn [map_m]. rewrite Hq, IHq.
      destruct (_find db records q) as [l|e]; [|reflexivity]. cbn [bind fmap].
      now destruct (map_m (_find db records) queries). }
    rewrite Hsub.
    destruct (map_m (_find db records) queries) as [ls|e] eqn:E;
      [|reflexivity].
    cbn [bind fmap]. f_equal. apply intersect_map.
    apply (@map_m_inv _ _ _ (matching db records)) in E;
      [|intros x y _; apply find_inv].
    subst ls. apply Forall_forall. intros l Hl. apply in_map_iff in Hl.
    destruct Hl as (q & <- & _). intros z. apply find_incl.
  - cbn [_find].
    assert (Hsub : map_m (_find db (map g records)) queries
                   = fmap (map (map g)) (map_m (_find db records) queries)).
    { induction IH as [|q queries Hq _ IHq]; [reflexivity|].
      cbn [map_m]. rewrite Hq, IHq.
      destruct (_find db records q) as [l|e]; [|reflexivity]. cbn [bind fmap].
      now destruct (map_m (_find db records) queries). }
    rewrite Hsub.
    destruct (map_m (_find db records) queries) as [ls|e] eqn:E;
      [|reflexivity].
    cbn [bind fmap]. f_equal. apply union_map.
    apply (@map_m_inv _ _ _ (matching db records)) in E;
      [|intros x y _; apply find_inv].
    subst ls. apply Forall_forall. intros l Hl. apply in_map_iff in Hl.
    destruct Hl as (q & <- & _). intros z. apply find_incl.
  - apply (filter_m_map (fields_match fields)).
Qed.

Variable comparefn_m : ref -> ref -> result Z.
Hypothesis comparefn_g : forall a b, comparefn_m (g a) (g b) = comparefn_m a b.

Lemma place_map (x : ref) (s : list ref) :
  place comparefn_m (g x) (map g s) = fmap (map g) (place comparefn_m x s).
Proof.
  induction s as [|y t IH]; [reflexivity|].
  cbn [map place]. rewrite comparefn_g.
  destruct (comparefn_m x y) as [c|e]; [|reflexivity]. cbn [bind].
  destruct (c <? 0)%Z; [|reflexivity].
  rewrite IH. now destruct (place comparefn_m x t).
Qed.

Lemma reduce_place_map (l acc : list ref) :
  reduce_m (fun sorted x => place comparefn_m x sorted) (map g l) (map g acc)
  = fmap (map g)
      (reduce_m (fun sorted x => place comparefn_m x sorted) l acc).
Proof.
  revert acc. induction l as [|x l IH]; intros acc; [reflexivity|].
  cbn [map reduce_m]. rewrite place_map.
  destruct (place comparefn_m x acc) as [r|e]; [|reflexivity].
  cbn [bind fmap]. apply IH.
Qed.

Lemma js_sort_map (l : list ref) :
  js_sort comparefn_m (map g l) = fmap (map g) (js_sort comparefn_m l).
Proof.
  unfold js_sort. pose proof (reduce_place_map l []) as H.
  change (map g []) with (@nil ref) in H. rewrite H.
  destruct (reduce_m _ l []) as [r|e]; [|reflexivity].
  cbn [bind fmap]. now rewrite map_rev.
Qed.

Lemma project_map (keys : list str) (l : list ref) :
  map_m (project keys) (map g l) = map_m (project keys) l.
Proof.
  induction l as [|x l IH]; [reflexivity|]. cbn [map map_m].
  rewrite IH. unfold project. now rewrite g_val.
Qed.

Lemma content_of_map (l : list ref) :
  map content_of (map Whole (map g l)) = map content_of (map Whole l).
Proof.
  rewrite !map_map. apply map_ext. intros x. cbn [content_of]. now rewrite g_val.
Qed.

End Renaming.

Section Earlier.

Variable localeCompare : str -> str -> Z.
Variable db : Database.

Lemma position_inj (l : list ref) (a b : nat) :
  In a (map addr l) -> In b (map addr l) ->
  position a l = position b l -> a = b.
Proof.
  induction l as [|x l IH]; intros Ha Hb; [destruct Ha|].
  cbn [position].
  destruct (Nat.eqb_spec (addr x) a) as [Ea|Ea],
           (Nat.eqb_spec (addr x) b) as [Eb|Eb]; try discriminate.
  - congruence.
  - intros [= H]. apply IH; [| |exact H].
    + destruct Ha as [Ha|Ha]; [contradiction|exact Ha].
    + destruct Hb as [Hb|Hb]; [contradiction|exact Hb].
Qed.

Lemma renumbered_same (l : list ref) (x y : ref) :
  In x l -> In y l ->
  same_value (renumbered l x) (renumbered l y) = same_value x y.
Proof.
  intros Hx Hy. unfold same_value, renumbered. cbn [val addr].
  destruct (is_object (val x)); [|reflexivity]. f_equal.
  destruct (Nat.eqb_spec (addr x) (addr y)) as [E|E].
  - rewrite E. apply Nat.eqb_refl.
  - apply Nat.eqb_neq. intros H. apply E.
    apply (@position_inj l); [now apply in_map | now apply in_map | exact H].
Qed.

Lemma renumbered_numbered (l : list ref) :
  NoDup (map addr l) ->
  forall first,
    map (fun x => {| addr := first + position (addr x) l; val := val x |}) l
    = numbered first (map val l).
Proof.
  induction l as [|x l IH]; intros Hnd first; [reflexivity|].
  cbn [map] in Hnd. inversion Hnd as [|? ? Hx Hl]; subst.
  cbn [map numbered position]. rewrite Nat.eqb_refl, Nat.add_0_r. f_equal.
  rewrite <- (IH Hl (S first)). apply map_ext_in. intros y Hy.
  destruct (Nat.eqb_spec (addr x) (addr y)) as [E|E].
  - exfalso. apply Hx. rewrite E. now apply in_map.
  - f_equal. lia.
Qed.

Lemma split_serialize (rows : list Row) :
  split newline (serialize rows) = map body rows ++ [[]].
Proof.
  induction rows as [|r rows IH]; [reflexivity|].
  rewrite serialize_cons, split_app by apply body_one_line.
  cbn [map app]. now rewrite IH.
Qed.

Lemma live_lines_serialize (rows : list Row) :
  live_lines (serialize rows) = map body (filter exists_ rows).
Proof.
  unfold live_lines. rewrite split_serialize, filter_app.
  assert (Hlast : filter (fun r => startsWith (lit "E") r) [[]] = [])
    by reflexivity.
  rewrite Hlast, app_nil_r. clear Hlast.
  induction rows as [|r rows IH]; [reflexivity|].
  cbn [map filter]. unfold body at 1. rewrite startsWith_mark.
  destruct (exists_ r); cbn [map]; now rewrite IH.
Qed.

Lemma parse_all_values (texts : list str) (values : list json) :
  map JSON_parse texts = map Some values ->
  forall first, Part_000.parse_all first texts = Ok (numbered first values).
Proof.
  revert values. induction texts as [|t texts IH]; intros values H first.
  - destruct values; [reflexivity|discriminate].
  - destruct values as [|v values]; [discriminate|].
    cbn [map] in H. injection H as Ht Hrest.
    cbn [Part_000.parse_all numbered]. rewrite Ht, (IH _ Hrest). reflexivity.
Qed.

Lemma parse_all_Err (texts : list str) (first : nat) (e : error) :
  Part_000.parse_all first texts = Err e <->
  e = SyntaxError /\ Exists (fun t => JSON_parse t = None) texts.
Proof.
  revert first e. induction texts as [|t texts IH]; intros first e.
  - cbn [Part_000.parse_all]. split; [discriminate|].
    intros (_ & H). inversion H.
  - cbn [Part_000.parse_all]. destruct (JSON_parse t) as [v|] eqn:Et.
    + destruct (Part_000.parse_all (S first) texts) as [l|e'] eqn:El;
        cbn [bind].
      * split; [discriminate|]. intros (-> & H).
        inversion H as [? ? H0|? ? H0]; subst; [congruence|].
        assert (Hbad : Part_000.parse_all (S first) texts = Err SyntaxError)
          by (apply IH; now split).
        congruence.
      * apply IH in El. destruct El as (-> & Hex).
        split; [intros [= <-]; split; [reflexivity | now right]|].
        now intros (-> & _).
    + split; [intros [= <-]; split; [reflexivity | now left]|].
      now intros (-> & _).
Qed.

Lemma parse_all_total (texts : list str) (first : nat) :
  Forall (fun t => JSON_parse t <> None) texts ->
  exists values, map JSON_parse texts = map Some values.
Proof.
  induction 1 as [|t texts Ht _ (values & IH)]; [now exists []|].
  destruct (JSON_parse t) as [v|] eqn:E; [|congruence].
  exists (v :: values). cbn [map]. now rewrite E, IH.
Qed.

Lemma filter_m_Err {X : Type} (p : X -> result bool) (l : list X) (e : error) :
  filter_m p l = Err e -> exists x, In x l /\ p x = Err e.
Proof.
  induction l as [|x l IH]; [discriminate|]. cbn [filter_m].
  destruct (p x) as [b|e'] eqn:E; cbn [bind].
  - destruct (filter_m p l) as [r|e'']; [discriminate|].
    cbn [bind]. intros [= <-]. destruct (IH eq_refl) as (y & Hy & Hp).
    exists y. split; [now right | exact Hp].
  - intros [= <-]. exists x. split; [now left | exact E].
Qed.

Lemma read_Err (record : json) (key : str) (e : error) :
  read record key = Err e -> e = TypeError.
Proof. destruct record; cbn [read]; congruence. Qed.

Lemma text_matches_Err (text : str) (record : json) (e : error) :
  text_matches db text record = Err e -> e = TypeError.
Proof.
  unfold text_matches.
  induction (fullTextSearchFieldNames db) as [|k ks IH]; [discriminate|].
  cbn [some_m]. destruct (read record k) as [v|e'] eqn:E; cbn [bind].
  - destruct (has_word text v); [discriminate | exact IH].
  - intros [= <-]. now apply read_Err in E.
Qed.

Lemma fields_match_Err (fields : list (str * Clause)) (record : json)
    (e : error) :
  fields_match fields record = Err e -> e = TypeError.
Proof.
  unfold fields_match.
  induction fields as [|kc fields IH]; [discriminate|].
  cbn [every_m]. destruct (read record (fst kc)) as [v|e'] eqn:E; cbn [bind].
  - destruct (test_clause (snd kc) v); [exact IH | discriminate].
  - intros [= <-]. now apply read_Err in E.
Qed.

Lemma map_m_Err {X Y : Type} (f : X -> result Y) (l : list X) (e : error) :
  map_m f l = Err e -> exists x, In x l /\ f x = Err e.
Proof.
  induction l as [|x l IH]; [discriminate|]. cbn [map_m].
  destruct (f x) as [y|e'] eqn:E; cbn [bind].
  - destruct (map_m f l) as [r|e'']; [discriminate|].
    cbn [bind]. intros [= <-]. destruct (IH eq_refl) as (z & Hz & Hf).
    exists z. split; [now right | exact Hf].
  - intros [= <-]. exists x. split; [now left | exact E].
Qed.

Lemma find_Err (records : list ref) (query : Query) (e : error) :
  _find db records query = Err e -> e = TypeError.
Proof.
  induction query as [text|queries IH|queries IH|fields] using Query_ind;
    cbn [_find]; intros H.
  - apply filter_m_Err in H. destruct H as (x & _ & H).
    now apply text_matches_Err in H.
  - destruct (map_m (_find db records) queries) as [ls|e'] eqn:E;
      [discriminate|].
    cbn [bind] in H. injection H as <-.
    apply map_m_Err in E. destruct E as (q & Hq & E).
    rewrite Forall_forall in IH. now apply (IH q Hq).
  - destruct (map_m (_find db records) queries) as [ls|e'] eqn:E;
      [discriminate|].
    cbn [bind] in H. injection H as <-.
    apply map_m_Err in E. destruct E as (q & Hq & E).
    rewrite Forall_forall in IH. now apply (IH q Hq).
  - apply filter_m_Err in H. destruct H as (x & _ & H).
    now apply fields_match_Err in H.
Qed.

Lemma find_nil (query : Query) : _find db [] query = Ok [].
Proof.
  rewrite (@find_Ok db [] query (Forall_nil _)). f_equal.
  apply no_member_nil. intros x Hx. now apply find_incl in Hx.
Qed.

(** X23.  The earlier [find] parses the live lines only. It fails with the
    parser's [SyntaxError] exactly when the payload of a line that starts
    with [E] does not decode; when they all decode it answers the query on
    the decoded records, in the order of their lines. The other lines are
    never parsed: a file without a line that starts with [E] (an empty
    file, tombstones, any other text) gives the empty result for every
    query. *)
Theorem earlier_find_reads_live_lines_only (fs : FileSystem) (text : str)
    (query : Query) :
  fs (filename db) = Some text ->
  (Part_000.find db fs query = Err SyntaxError <->
   Exists (fun l => JSON_parse (slice1 l) = None) (live_lines text))
  /\
  (forall values,
     map (fun l => JSON_parse (slice1 l)) (live_lines text) = map Some values ->
     Part_000.find db fs query = _find db (numbered 0 values) query)
  /\
  (live_lines text = [] -> Part_000.find db fs query = Ok []).
Proof.
  intros Hfs.
  assert (Hvalues : forall values,
             map (fun l => JSON_parse (slice1 l)) (live_lines text)
             = map Some values ->
             Part_000.find db fs query = _find db (numbered 0 values) query).
  { intros values H. unfold Part_000.find, readFile. rewrite Hfs. cbn [bind].
    fold (live_lines text). rewrite <- map_map in H.
    now rewrite (@parse_all_values _ values H 0). }
  split; [|split; [exact Hvalues|]].
  - unfold Part_000.find, readFile. rewrite Hfs. cbn [bind].
    fold (live_lines text).
    destruct (Part_000.parse_all 0 (map slice1 (live_lines text)))
      as [records|e] eqn:E; cbn [bind].
    + split.
      * intros H. apply find_Err in H. discriminate.
      * intros H. exfalso.
        assert (Hbad : Part_000.parse_all 0 (map slice1 (live_lines text))
                       = Err SyntaxError).
        { apply parse_all_Err. split; [reflexivity|].
          apply Exists_exists in H. destruct H as (l & Hl & Hnone).
          apply Exists_exists. exists (slice1 l). split; [|exact Hnone].
          now apply in_map. }
        congruence.
    + apply parse_all_Err in E. destruct E as (-> & Hex).
      split; [intros _|reflexivity].
      apply Exists_exists in Hex. destruct Hex as (t & Ht & Hnone).
      apply in_map_iff in Ht. destruct Ht as (l & <- & Hl).
      apply Exists_exists. now exists l.
  - intros Hnil. rewrite (Hvalues []); [apply find_nil|].
    now rewrite Hnil.
Qed.

Lemma stores_file (fs : FileSystem) (rows : list Row) :
  stores db fs rows -> rows <> [] ->
  fs (filename db) = Some (serialize rows).
Proof.
  intros (_ & _ & H) Hne. destruct (fs (filename db)); [now subst|].
  contradiction.
Qed.

Lemma earlier_records (rows : list Row) :
  addressed 0 rows -> rows_wf rows ->
  Part_000.parse_all 0 (map slice1 (live_lines (serialize rows)))
  = Ok (map (renumbered (existing rows)) (existing rows)).
Proof.
  intros Haddr Hwf.
  rewrite live_lines_serialize, map_map.
  rewrite (@parse_all_values _ (map val (existing rows))).
  - f_equal. symmetry.
    exact (@renumbered_numbered (existing rows)
             (@existing_addresses 0 rows Haddr) 0).
  - unfold existing. rewrite !map_map.
    unfold rows_wf in Hwf. rewrite Forall_forall in Hwf.
    apply map_ext_in. intros r Hr. apply filter_In in Hr.
    cbn [body slice1 tl]. apply JSON_parse_stringify. now apply Hwf.
Qed.

Lemma earlier_find_plain (fs : FileSystem) (query : Query) :
  Part_001.find localeCompare db fs query None
  = fmap (map Whole) (Part_000.find db fs query).
Proof.
  unfold Part_001.find, Part_000.find.
  destruct (readFile fs (filename db)) as [text|e]; [|reflexivity].
  cbn [bind].
  change (Part_001.parse_all) with (Part_000.parse_all).
  destruct (Part_000.parse_all 0 _) as [records|e]; [|reflexivity].
  cbn [bind]. destruct (_find db records query); reflexivity.
Qed.

Lemma versions_agree (fs : FileSystem) (rows : list Row) (query : Query)
    (options : option Options) :
  stores db fs rows -> rows <> [] ->
  same_answer (find localeCompare db fs query options)
    (Part_001.find localeCompare db fs query options).
Proof.
  intros Hst Hne.
  pose proof (@stores_load db fs rows Hst Hne) as Hload.
  pose proof (stores_file Hst Hne) as Hfile.
  destruct Hst as (Haddr & Hwf & _).
  unfold find, Part_001.find, readFile. rewrite Hload, Hfile. cbn [bind].
  change (Part_001.parse_all) with (Part_000.parse_all).
  fold (live_lines (serialize rows)).
  rewrite (earlier_records Haddr Hwf). cbn [bind].
  set (records := existing rows).
  set (g := renumbered records).
  assert (g_val : forall x, val (g x) = val x) by reflexivity.
  assert (g_same : forall x y, In x records -> In y records ->
                               same_value (g x) (g y) = same_value x y)
    by (intros x y; apply renumbered_same).
  rewrite (@find_map db records g g_val g_same query).
  destruct (_find db records query) as [result|e]; [|reflexivity].
  cbn [bind fmap].
  assert (Hsort :
            match optional sort options with
            | Some keys => js_sort (comparefn localeCompare keys) (map g result)
            | None => Ok (map g result)
            end
            = fmap (map g)
                match optional sort options with
                | Some keys => js_sort (comparefn localeCompare keys) result
                | None => Ok result
                end).
  { destruct (optional sort options) as [keys|]; [|reflexivity].
    apply js_sort_map. reflexivity. }
  rewrite Hsort.
  destruct (match optional sort options with
            | Some keys => js_sort (comparefn localeCompare keys) result
            | None => Ok result
            end) as [sorted|e]; [|reflexivity].
  cbn [bind fmap].
  destruct (optional projection options) as [keys|].
  - rewrite (@project_map g g_val keys sorted).
    now destruct (map_m (project keys) sorted).
  - cbn [same_answer]. apply (@content_of_map g g_val).
Qed.

(** X24.  The three versions of [find] agree on what the store wrote. On a
    file that holds rows written by [insert] and [delete], the [find] of
    this version and the earlier [find] with options answer alike for
    every query and all options: both fail with the same error, or both
    return results with the same contents in the same order. The first
    [find], which takes no options, answers as they do without options. *)
Theorem versions_agree_on_written_stores (fs : FileSystem) (rows : list Row)
    (query : Query) (options : option Options) :
  stores db fs rows -> rows <> [] ->
  same_answer (find localeCompare db fs query options)
    (Part_001.find localeCompare db fs query options) /\
  same_answer (find localeCompare db fs query None)
    (fmap (map Whole) (Part_000.find db fs query)).
Proof.
  intros Hst Hne. split; [exact (@versions_agree fs rows query options Hst Hne)|].
  rewrite <- earlier_find_plain.
  exact (@versions_agree fs rows query None Hst Hne).
Qed.

End Earlier.

(** ** The further properties on concrete stores *)

Lemma code_unit_compare_sign (a b : str) :
  Z.sgn (code_unit_compare b a) = (- Z.sgn (code_unit_compare a b))%Z.
Proof.
  revert b. induction a as [|x a IH]; intros [|y b]; try reflexivity.
  cbn [code_unit_compare]. rewrite (Nat.compare_antisym (nat_of_ascii x)).
  destruct (nat_of_ascii x ?= nat_of_ascii y); cbn [CompOpp];
    [apply IH | reflexivity | reflexivity].
Qed.

Lemma code_unit_compare_trans (a b c : str) :
  (code_unit_compare a b <= 0)%Z -> (code_unit_compare b c <= 0)%Z ->
  (code_unit_compare a c <= 0)%Z.
Proof.
  revert b c. induction a as [|x a IH]; intros [|y b] [|z c];
    cbn [code_unit_compare]; try lia.
  destruct (Nat.compare_spec (nat_of_ascii x) (nat_of_ascii y)) as [E|E|E];
    destruct (Nat.compare_spec (nat_of_ascii y) (nat_of_ascii z)) as [F|F|F];
    destruct (Nat.compare_spec (nat_of_ascii x) (nat_of_ascii z)) as [G|G|G];
    try lia; intros H1 H2.
  now apply IH with b.
Qed.

Lemma ann_bob_heap : heap_ok [at_ 0 ann; at_ 1 bob].
Proof. exact (@addressed_heap 0 [live 0 ann; live 1 bob] eq_refl). Defined.

(** X3 on Ann and Bob and the query [name = Bob or age > 35]. *)
Lemma matcher_decides_by_contents_witness :
  heap_ok [at_ 0 ann; at_ 1 bob] /\
  _find people [at_ 0 ann; at_ 1 bob] (OrQuery [name_is "Bob"; older_than 35])
  = Ok [at_ 1 bob] /\
  incl [at_ 1 bob] [at_ 0 ann; at_ 1 bob] /\
  set_has [at_ 1 bob] (at_ 0 ann)
  = selects people (OrQuery [name_is "Bob"; older_than 35]) ann /\
  set_has [at_ 1 bob] (at_ 1 bob)
  = selects people (OrQuery [name_is "Bob"; older_than 35]) bob.
Proof.
  assert (Hfind : _find people [at_ 0 ann; at_ 1 bob]
                    (OrQuery [name_is "Bob"; older_than 35])
                  = Ok [at_ 1 bob]) by reflexivity.
  destruct (@matcher_decides_by_contents people _ _ _ ann_bob_heap Hfind)
    as (Hincl & Hsel).
  split; [exact ann_bob_heap|]. split; [exact Hfind|].
  split; [exact Hincl|]. split.
  - apply (Hsel (at_ 0 ann)). now left.
  - apply (Hsel (at_ 1 bob)). right. now left.
Defined.

(** X4 on Ann and Bob and the query [age > 20 and name = Bob]. *)
Lemma or_free_query_keeps_order_witness :
  or_free (AndQuery [older_than 20; name_is "Bob"]) = true /\
  _find people [at_ 0 ann; at_ 1 bob] (AndQuery [older_than 20; name_is "Bob"])
  = Ok [at_ 1 bob] /\
  subseq [at_ 1 bob] [at_ 0 ann; at_ 1 bob].
Proof.
  assert (Hfree : or_free (AndQuery [older_than 20; name_is "Bob"]) = true)
    by reflexivity.
  assert (Hfind : _find people [at_ 0 ann; at_ 1 bob]
                    (AndQuery [older_than 20; name_is "Bob"])
                  = Ok [at_ 1 bob]) by reflexivity.
  split; [exact Hfree|]. split; [exact Hfind|].
  exact (@or_free_query_keeps_order people _ _ _ Hfree Hfind).
Defined.

(** X5 on Ann and Bob and the query [{name: Bob, age: > 35}]. *)
Lemma field_query_is_a_conjunction_witness :
  heap_ok [at_ 0 ann; at_ 1 bob] /\
  [(lit "name", EqQuery (JStr (lit "Bob"))); (lit "age", GTQuery 35)] <> [] /\
  _find people [at_ 0 ann; at_ 1 bob]
    (AndQuery [name_is "Bob"; older_than 35])
  = _find people [at_ 0 ann; at_ 1 bob]
      (SimpleQuery [(lit "name", EqQuery (JStr (lit "Bob")));
                    (lit "age", GTQuery 35)]).
Proof.
  assert (Hne : [(lit "name", EqQuery (JStr (lit "Bob")));
                 (lit "age", GTQuery 35)] <> []) by discriminate.
  destruct (@field_query_is_a_conjunction people _ _ ann_bob_heap Hne)
    as (Heq & _).
  split; [exact ann_bob_heap|]. split; [exact Hne | exact Heq].
Defined.

(** X6 on Ann and Bob: [name = Ann] selects Ann, and [{name: {$in:
    [[1]]}}], whose only value is an array, selects nothing. *)
Lemma equality_clauses_compare_primitives_witness :
  _find people [at_ 0 ann; at_ 1 bob] (name_is "Ann") = Ok [at_ 0 ann] /\
  (In (at_ 0 ann) [at_ 0 ann] <->
   In (at_ 0 ann) [at_ 0 ann; at_ 1 bob] /\
   get_field ann (lit "name") = Some (JStr (lit "Ann")) /\
   is_object (JStr (lit "Ann")) = false) /\
  _find people [at_ 0 ann; at_ 1 bob]
    (SimpleQuery [(lit "name", InQuery [JArr [JNum 1]])]) = Ok [] /\
  (In (at_ 0 ann) [] <->
   In (at_ 0 ann) [at_ 0 ann; at_ 1 bob] /\
   exists v, get_field ann (lit "name") = Some v /\
             In v [JArr [JNum 1]] /\ is_object v = false).
Proof.
  assert (Heq : _find people [at_ 0 ann; at_ 1 bob] (name_is "Ann")
                = Ok [at_ 0 ann]) by reflexivity.
  assert (Hin : _find people [at_ 0 ann; at_ 1 bob]
                  (SimpleQuery [(lit "name", InQuery [JArr [JNum 1]])])
                = Ok []) by reflexivity.
  destruct (@equality_clauses_compare_primitives people
              [at_ 0 ann; at_ 1 bob] [at_ 0 ann] (lit "name") (at_ 0 ann))
    as (H1 & _).
  destruct (@equality_clauses_compare_primitives people
              [at_ 0 ann; at_ 1 bob] [] (lit "name") (at_ 0 ann))
    as (_ & H2).
  split; [exact Heq|]. split; [exact (H1 _ Heq)|].
  split; [exact Hin | exact (H2 _ Hin)].
Defined.

(** X7 on Ann, whose biography is "Fast and curious", and the text
    "Fast and". *)
Lemma text_with_white_space_selects_nothing_witness :
  existsb is_space (lit "Fast and") = true /\
  exists result,
    _find people [at_ 0 ann; at_ 1 bob] (TextQuery (lit "Fast and"))
    = Ok result /\
    result = [].
Proof.
  assert (Hspace : existsb is_space (lit "Fast and") = true) by reflexivity.
  split; [exact Hspace|]. eexists. split; [reflexivity|].
  exact (@text_with_white_space_selects_nothing people
           [at_ 0 ann; at_ 1 bob] _ (lit "Fast and") Hspace eq_refl).
Defined.


(** X9 on Ann and Bob, sorted by age downwards. *)
Lemma sort_only_rearranges_witness :
  find code_unit_compare people ann_bob (SimpleQuery [])
    (Some {| projection := None; sort := Some (by_age Descending) |})
  = Ok [Whole (at_ 1 bob); Whole (at_ 0 ann)] /\
  find code_unit_compare people ann_bob (SimpleQuery [])
    (Some {| projection := None; sort := None |})
  = Ok [Whole (at_ 0 ann); Whole (at_ 1 bob)] /\
  Permutation [Whole (at_ 0 ann); Whole (at_ 1 bob)]
    [Whole (at_ 1 bob); Whole (at_ 0 ann)].
Proof.
  assert (Hsorted : find code_unit_compare people ann_bob (SimpleQuery [])
                      (Some {| projection := None;
                               sort := Some (by_age Descending) |})
                    = Ok [Whole (at_ 1 bob); Whole (at_ 0 ann)])
    by by_computation.
  assert (Hplain : find code_unit_compare people ann_bob (SimpleQuery [])
                     (Some {| projection := None; sort := None |})
                   = Ok [Whole (at_ 0 ann); Whole (at_ 1 bob)])
    by by_computation.
  split; [exact Hsorted|]. split; [exact Hplain|].
  exact (@sort_only_rearranges code_unit_compare people ann_bob
           (SimpleQuery []) None (by_age Descending) _ _ Hsorted Hplain).
Defined.

(** X10 on Ann and Bob, sorted on a key they do not have. *)
Lemma sort_on_unordered_keys_keeps_order_witness :
  _load people ann_bob = Ok [live 0 ann; live 1 bob] /\
  (forall x k, In x (existing [live 0 ann; live 1 bob]) ->
               In k (map fst [(lit "email", Some Descending)]) ->
               unordered k (val x) = true) /\
  find code_unit_compare people ann_bob (SimpleQuery [])
    (Some {| projection := None;
             sort := Some [(lit "email", Some Descending)] |})
  = Ok [Whole (at_ 0 ann); Whole (at_ 1 bob)] /\
  find code_unit_compare people ann_bob (SimpleQuery [])
    (Some {| projection := None; sort := None |})
  = Ok [Whole (at_ 0 ann); Whole (at_ 1 bob)].
Proof.
  assert (Hun : forall x k, In x (existing [live 0 ann; live 1 bob]) ->
                            In k (map fst [(lit "email", Some Descending)]) ->
                            unordered k (val x) = true).
  { intros x k [<-|[<-|[]]] [<-|[]]; reflexivity. }
  assert (Hfind : find code_unit_compare people ann_bob (SimpleQuery [])
                    (Some {| projection := None;
                             sort := Some [(lit "email", Some Descending)] |})
                  = Ok [Whole (at_ 0 ann); Whole (at_ 1 bob)])
    by by_computation.
  split; [exact ann_bob_rows|]. split; [exact Hun|]. split; [exact Hfind|].
  exact (@sort_on_unordered_keys_keeps_order code_unit_compare people ann_bob
           (SimpleQuery []) None _ _ _ ann_bob_rows Hun Hfind).
Defined.

Lemma ann_bob_ages :
  forall x, In x (existing [live 0 ann; live 1 bob]) ->
            exists n, get_field (val x) (lit "age") = Some (JNum n).
Proof.
  intros x [<-|[<-|[]]]; [now exists 30%Z | now exists 40%Z].
Defined.

(** X11 on Ann (30) and Bob (40), sorted by age downwards. *)
Lemma numeric_sort_orders_results_witness :
  _load people ann_bob = Ok [live 0 ann; live 1 bob] /\
  (forall x, In x (existing [live 0 ann; live 1 bob]) ->
             exists n, get_field (val x) (lit "age") = Some (JNum n)) /\
  find code_unit_compare people ann_bob (SimpleQuery [])
    (Some {| projection := None; sort := Some (by_age Descending) |})
  = Ok [Whole (at_ 1 bob); Whole (at_ 0 ann)] /\
  exists result,
    [Whole (at_ 1 bob); Whole (at_ 0 ann)] = map Whole result /\
    StronglySorted (in_order Descending (lit "age")) result.
Proof.
  assert (Hfind : find code_unit_compare people ann_bob (SimpleQuery [])
                    (Some {| projection := None;
                             sort := Some (by_age Descending) |})
                  = Ok [Whole (at_ 1 bob); Whole (at_ 0 ann)])
    by by_computation.
  split; [exact ann_bob_rows|]. split; [exact ann_bob_ages|].
  split; [exact Hfind|].
  exact (@numeric_sort_orders_results code_unit_compare people ann_bob
           (SimpleQuery []) (lit "age") Descending _ _
           ann_bob_rows ann_bob_ages Hfind).
Defined.


(** X13 on Ann and Bob and a query whose two branches both select Bob. *)
Lemma find_returns_no_row_twice_witness :
  optional projection (sorted_by (by_age Descending)) = None /\
  find code_unit_compare people ann_bob
    (OrQuery [name_is "Bob"; older_than 35; older_than 20])
    (sorted_by (by_age Descending))
  = Ok [Whole (at_ 1 bob); Whole (at_ 0 ann)] /\
  exists result,
    [Whole (at_ 1 bob); Whole (at_ 0 ann)] = map Whole result /\
    NoDup result.
Proof.
  assert (Hfind : find code_unit_compare people ann_bob
                    (OrQuery [name_is "Bob"; older_than 35; older_than 20])
                    (sorted_by (by_age Descending))
                  = Ok [Whole (at_ 1 bob); Whole (at_ 0 ann)])
    by by_computation.
  split; [reflexivity|]. split; [exact Hfind|].
  exact (@find_returns_no_row_twice code_unit_compare people ann_bob
           _ (sorted_by (by_age Descending)) _ eq_refl Hfind).
Defined.

Lemma ann_bob_names :
  forall x, In x (existing [live 0 ann; live 1 bob]) ->
            exists s, get_field (val x) (lit "name") = Some (JStr s).
Proof.
  intros x [<-|[<-|[]]]; [now exists (lit "Ann") | now exists (lit "Bob")].
Defined.

(** X14 on Ann and Bob, sorted by name downwards in code unit order. *)
Lemma string_sort_orders_results_witness :
  _load people ann_bob = Ok [live 0 ann; live 1 bob] /\
  (forall x, In x (existing [live 0 ann; live 1 bob]) ->
             exists s, get_field (val x) (lit "name") = Some (JStr s)) /\
  find code_unit_compare people ann_bob (SimpleQuery [])
    (Some {| projection := None; sort := Some (by_name Descending) |})
  = Ok [Whole (at_ 1 bob); Whole (at_ 0 ann)] /\
  exists result,
    [Whole (at_ 1 bob); Whole (at_ 0 ann)] = map Whole result /\
    StronglySorted (collated code_unit_compare Descending (lit "name")) result.
Proof.
  assert (Hfind : find code_unit_compare people ann_bob (SimpleQuery [])
                    (Some {| projection := None;
                             sort := Some (by_name Descending) |})
                  = Ok [Whole (at_ 1 bob); Whole (at_ 0 ann)])
    by by_computation.
  split; [exact ann_bob_rows|]. split; [exact ann_bob_names|].
  split; [exact Hfind|].
  exact (@string_sort_orders_results code_unit_compare people
           code_unit_compare_sign code_unit_compare_trans ann_bob
           (SimpleQuery []) (lit "name") Descending _ _
           ann_bob_rows ann_bob_names Hfind).
Defined.

(** X15 on deleting Ann twice from the store of Ann and Bob. *)
Lemma delete_twice_is_delete_once_witness :
  _load people ann_bob = Ok [live 0 ann; live 1 bob] /\
  readable (existing [live 0 ann; live 1 bob]) /\
  exists fs1 fs2,
    delete people (name_is "Ann") ann_bob = Ok fs1 /\
    delete people (name_is "Ann") fs1 = Ok fs2 /\
    fs2 (filename people) = fs1 (filename people).
Proof.
  destruct (@delete_twice_is_delete_once people ann_bob (name_is "Ann") _
              ann_bob_rows ann_bob_readable)
    as (fs1 & fs2 & H1 & H2 & Hsame).
  split; [exact ann_bob_rows|]. split; [exact ann_bob_readable|].
  exists fs1, fs2. split; [exact H1|]. split; [exact H2|]. apply Hsame.
Defined.

(** X16 on deleting the people older than 35, then looking for them. *)
Lemma deleted_records_are_not_found_witness :
  _load people ann_bob = Ok [live 0 ann; live 1 bob] /\
  readable (existing [live 0 ann; live 1 bob]) /\
  exists fs',
    delete people (older_than 35) ann_bob = Ok fs' /\
    find code_unit_compare people fs' (older_than 35)
      (sorted_by (by_age Ascending)) = Ok [].
Proof.
  split; [exact ann_bob_rows|]. split; [exact ann_bob_readable|].
  exact (@deleted_records_are_not_found code_unit_compare people ann_bob
           (older_than 35) (sorted_by (by_age Ascending)) _
           ann_bob_rows ann_bob_readable).
Defined.

(** X17 on deleting Ann from the store of Ann and Bob. *)
Lemma delete_keeps_the_rest_witness :
  _load people ann_bob = Ok [live 0 ann; live 1 bob] /\
  delete people (name_is "Ann") ann_bob = Ok ann_gone /\
  find code_unit_compare people ann_gone (SimpleQuery []) None
  = Ok [Whole (at_ 1 bob)].
Proof.
  split; [exact ann_bob_rows|]. split; [exact delete_ann|].
  exact (@delete_keeps_the_rest code_unit_compare people ann_bob ann_gone
           (name_is "Ann") _ ann_bob_rows delete_ann).
Defined.

Lemma nothing_stored : stores people no_files [].
Proof. split; [reflexivity|]. split; [apply Forall_nil | reflexivity]. Defined.

(** X18 on inserting Ann, then Bob, where there is no file yet. *)
Lemma inserted_records_are_read_back_witness :
  stores people no_files [] /\
  Forall wf [ann; bob] /\
  [ann; bob] <> [] /\
  find code_unit_compare people (insert_all people [ann; bob] no_files)
    (SimpleQuery []) None
  = Ok [Whole (at_ 0 ann); Whole (at_ 1 bob)].
Proof.
  assert (Hwf : Forall wf [ann; bob]).
  { apply Forall_cons; [exact ann_wf|].
    apply Forall_cons; [exact bob_wf | apply Forall_nil]. }
  assert (Hne : [ann; bob] <> []) by discriminate.
  split; [exact nothing_stored|]. split; [exact Hwf|]. split; [exact Hne|].
  exact (@inserted_records_are_read_back code_unit_compare people no_files
           [] [ann; bob] nothing_stored Hwf Hne).
Defined.

(** X19 on the store of Ann and Bob, reached by two [insert]s. *)
Lemma reachable_file_loads_witness :
  reachable people ann_bob /\
  ann_bob (filename people) = Some (serialize [live 0 ann; live 1 bob]) /\
  serialize [live 0 ann; live 1 bob] <> [] /\
  exists rows,
    serialize [live 0 ann; live 1 bob] = serialize rows /\
    _load people ann_bob = Ok rows.
Proof.
  assert (Hreach : reachable people ann_bob).
  { apply reach_insert; [|exact bob_wf].
    apply reach_insert; [|exact ann_wf].
    apply reach_missing. reflexivity. }
  assert (Hfile : ann_bob (filename people)
                  = Some (serialize [live 0 ann; live 1 bob]))
    by by_computation.
  assert (Hne : serialize [live 0 ann; live 1 bob] <> []) by discriminate.
  split; [exact Hreach|]. split; [exact Hfile|]. split; [exact Hne|].
  exact (@reachable_file_loads people ann_bob _ Hreach Hfile Hne).
Defined.

Lemma ann_bob_stored : stores people ann_bob [live 0 ann; live 1 bob].
Proof.
  split; [reflexivity|].
  split; [|by_computation].
  apply Forall_cons; [exact ann_wf|].
  apply Forall_cons; [exact bob_wf | apply Forall_nil].
Defined.

(** X20 on the store of Ann and Bob: a [find], a [delete] and an
    [insert]. *)
Lemma operations_succeed_on_written_stores_witness :
  stores people ann_bob [live 0 ann; live 1 bob] /\
  [live 0 ann; live 1 bob] <> [] /\
  readable (existing [live 0 ann; live 1 bob]) /\
  (exists found,
     find code_unit_compare people ann_bob (TextQuery (lit "fast"))
       (sorted_by (by_name Ascending)) = Ok found) /\
  (exists fs',
     delete people (older_than 35) ann_bob = Ok fs' /\
     stores people fs'
       (map (retire people (older_than 35)) [live 0 ann; live 1 bob])) /\
  stores people (insert people ann ann_bob)
    ([live 0 ann; live 1 bob] ++ [new_row [live 0 ann; live 1 bob] ann]).
Proof.
  assert (Hne : [live 0 ann; live 1 bob] <> []) by discriminate.
  destruct (@operations_succeed_on_written_stores code_unit_compare people
              ann_bob _ ann_bob_stored Hne ann_bob_readable)
    as (Hfind & Hdelete & Hinsert).
  split; [exact ann_bob_stored|]. split; [exact Hne|].
  split; [exact ann_bob_readable|]. split; [apply Hfind|]. split.
  - destruct (Hdelete (older_than 35)) as (fs' & Hdel & Hst & _).
    exists fs'. split; [exact Hdel | exact Hst].
  - destruct (Hinsert ann ann_wf) as (Hst & _); [discriminate | exact Hst].
Defined.


(** X22 on the store that holds [null], then Ann. *)
Lemma null_record_fails_field_queries_witness :
  _load people with_null = Ok [live 0 JNull; live 1 ann] /\
  Exists (fun x => val x = JNull) (existing [live 0 JNull; live 1 ann]) /\
  [(lit "name", EqQuery (JStr (lit "Ann")))] <> [] /\
  find code_unit_compare people with_null (name_is "Ann") None
  = Err TypeError /\
  delete people (name_is "Ann") with_null = Err TypeError /\
  find code_unit_compare people with_null (SimpleQuery []) None
  = Ok [Whole (at_ 0 JNull); Whole (at_ 1 ann)].
Proof.
  assert (Hload : _load people with_null = Ok [live 0 JNull; live 1 ann])
    by by_computation.
  assert (Hnull : Exists (fun x => val x = JNull)
                    (existing [live 0 JNull; live 1 ann]))
    by (left; reflexivity).
  assert (Hne : [(lit "name", EqQuery (JStr (lit "Ann")))] <> [])
    by discriminate.
  split; [exact Hload|]. split; [exact Hnull|]. split; [exact Hne|].
  exact (@null_record_fails_field_queries code_unit_compare people with_null
           _ _ None Hload Hnull Hne).
Defined.

(** X23 on a file whose first line is no row. *)
Lemma earlier_find_reads_live_lines_only_witness :
  hand_edited (filename people)
  = Some (js "# people" ++ newline :: js "E{'a':1}" ++ [newline]) /\
  map (fun l => JSON_parse (slice1 l))
    (live_lines (js "# people" ++ newline :: js "E{'a':1}" ++ [newline]))
  = map Some [JObj [(lit "a", JNum 1)]] /\
  Part_000.find people hand_edited (SimpleQuery [(lit "a", GTQuery 0)])
  = Ok [at_ 0 (JObj [(lit "a", JNum 1)])] /\
  Part_000.find people hand_edited (SimpleQuery [(lit "a", GTQuery 0)])
  <> Err SyntaxError /\
  _load people hand_edited = Err SyntaxError.
Proof.
  assert (Hfile : hand_edited (filename people)
                  = Some (js "# people" ++ newline :: js "E{'a':1}"
                          ++ [newline])) by by_computation.
  assert (Hvalues :
            map (fun l => JSON_parse (slice1 l))
              (live_lines (js "# people" ++ newline :: js "E{'a':1}"
                           ++ [newline]))
            = map Some [JObj [(lit "a", JNum 1)]]) by by_computation.
  destruct (@earlier_find_reads_live_lines_only people hand_edited _
              (SimpleQuery [(lit "a", GTQuery 0)]) Hfile)
    as (_ & Hfind & _).
  split; [exact Hfile|]. split; [exact Hvalues|].
  split; [rewrite (Hfind _ Hvalues); reflexivity|].
  split; [rewrite (Hfind _ Hvalues); discriminate | by_computation].
Defined.

(** X24 on the store with Ann dead and Bob live. *)
Lemma versions_agree_on_written_stores_witness :
  stores people ann_gone [dead 0 ann; live 1 bob] /\
  [dead 0 ann; live 1 bob] <> [] /\
  find code_unit_compare people ann_gone (older_than 35) None
  = Ok [Whole (at_ 1 bob)] /\
  Part_001.find code_unit_compare people ann_gone (older_than 35) None
  = Ok [Whole (at_ 0 bob)] /\
  Part_000.find people ann_gone (older_than 35) = Ok [at_ 0 bob] /\
  same_answer (find code_unit_compare people ann_gone (older_than 35) None)
    (Part_001.find code_unit_compare people ann_gone (older_than 35) None) /\
  same_answer (find code_unit_compare people ann_gone (older_than 35) None)
    (fmap (map Whole) (Part_000.find people ann_gone (older_than 35))).
Proof.
  assert (Hne : [dead 0 ann; live 1 bob] <> []) by discriminate.
  split; [exact ann_gone_stored|]. split; [exact Hne|].
  split; [by_computation|]. split; [by_computation|].
  split; [by_computation|].
  exact (@versions_agree_on_written_stores code_unit_compare people ann_gone
           _ (older_than 35) None ann_gone_stored Hne).
Defined.
